(** * QUBO construction and schedule validation for the two-machine job shop

    A shallow embedding of [toy_cases/jssp/notebooks/helper.py]: the four
    penalty-term builders, the matrix assembly of [solve_and_visualize_jssp],
    the schedule extractor and the validators.

    Modelling conventions.
    - Python exceptions are values of [exn]; a function that can raise
      returns [res A].  Loops are [for_each] over the iterated sequence,
      threading the mutated object through the error monad.
    - The coefficient matrix (a square NumPy array) is a list of rows.
      Coefficients and penalties are integers, so that [+=] is exact.
      NumPy adds in float64, which is commutative but not associative:
      statements about the accumulated values assume an injective variable
      index, on which no entry receives more than two increments.
    - [var_index] is a finite map from (task, time) to a flat index; it is
      only ever looked up, never iterated.  [task_map] is an insertion
      ordered dictionary, iterated with [.items()], hence an association
      list.
    - The assignment vector holds rationals; [py_round] is Python's
      round-half-to-even.
    - Task ids, time slots and flat indices are natural numbers: [range]
      produces nothing else, and an index is then out of range exactly
      when it is too large. *)

From Stdlib Require Import ZArith QArith Qround Lia Lqa Permutation Sorted.
From stdpp Require Import gmap list sorting strings pretty.

Close Scope Q_scope.
Open Scope Z_scope.

(** ** Exceptions and the error monad *)

Inductive exn : Type := KeyError | IndexError | ValueError.

Inductive res (A : Type) : Type :=
| Ok (a : A)
| Raise (e : exn).
Arguments Ok {A} a.
Arguments Raise {A} e.

#[global] Instance res_ret : MRet res := fun A a => Ok a.
#[global] Instance res_bind : MBind res := fun A B f m =>
  match m with
  | Ok a => f a
  | Raise e => Raise e
  end.

(** What is left of a result once the kind of exception is forgotten. *)
Definition returned {A} (r : res A) : option A :=
  match r with
  | Ok a => Some a
  | Raise _ => None
  end.

(** [for x in l: body], the loop state threaded through [body]. *)
Fixpoint for_each {A S : Type} (l : list A) (body : A -> S -> res S) (s : S) : res S :=
  match l with
  | [] => Ok s
  | x :: l' => s' ← body x s; for_each l' body s'
  end.

(** [range(n)] and [range(a, b)]. *)
Definition range (n : nat) : list nat := seq 0 n.
Definition range_from (a b : nat) : list nat := seq a (b - a).

(** [l[i]] on a Python list or a one-dimensional array. *)
Definition index {A} (l : list A) (i : nat) : res A :=
  match l !! i with
  | Some x => Ok x
  | None => Raise IndexError
  end.

(** ** Dictionaries *)

(** [var_index[(k, t)]] raises [KeyError] on an absent key, while
    [var_index.get((k, t))] returns [None]. *)
Definition subscript (var_index : gmap (nat * nat) nat) (key : nat * nat) : res nat :=
  match var_index !! key with
  | Some idx => Ok idx
  | None => Raise KeyError
  end.

Definition get (var_index : gmap (nat * nat) nat) (key : nat * nat) : option nat :=
  var_index !! key.

(** A task: (job id, operation index, machine id, duration). *)
Abbreviation task_info := (Z * Z * Z * Z)%type.

(** [task_map]: task id to task, in insertion order. *)
Abbreviation task_dict := (list (nat * task_info)).

Fixpoint dict_lookup {V} (d : list (nat * V)) (k : nat) : option V :=
  match d with
  | [] => None
  | (k', v) :: d' => if Nat.eqb k' k then Some v else dict_lookup d' k
  end.

Definition dict_subscript {V} (d : list (nat * V)) (k : nat) : res V :=
  match dict_lookup d k with
  | Some v => Ok v
  | None => Raise KeyError
  end.

(** ** The coefficient matrix *)

Abbreviation matrix := (list (list Z)).

(** [np.zeros((n, n))]. *)
Definition zeros (n : nat) : matrix := replicate n (replicate n 0).

(** [Q[i, j]], when both indices are in range. *)
Definition mget (M : matrix) (i j : nat) : option Z :=
  match M !! i with
  | Some row => row !! j
  | None => None
  end.

(** [Q[i, j] += v]; an index out of range raises [IndexError]. *)
Definition add_at (M : matrix) (i j : nat) (v : Z) : res matrix :=
  match M !! i with
  | Some row =>
      match row !! j with
      | Some x => Ok (<[i := <[j := x + v]> row]> M)
      | None => Raise IndexError
      end
  | None => Raise IndexError
  end.

(** ** Sorting *)

(** [list.sort] and [sorted] are stable: an element is inserted in front
    of the first element that is strictly greater. *)
Section Sorting.
Context {A : Type} (leb : A -> A -> bool).

Fixpoint insert_sorted (x : A) (l : list A) : list A :=
  match l with
  | [] => [x]
  | y :: l' => if leb x y then x :: y :: l' else y :: insert_sorted x l'
  end.

Fixpoint sort_with (l : list A) : list A :=
  match l with
  | [] => []
  | x :: l' => insert_sorted x (sort_with l')
  end.
End Sorting.

(** [sorted(l, key=key)]. *)
Definition sorted_by {A} (key : A -> Z) (l : list A) : list A :=
  sort_with (fun a b => key a <=? key b) l.

(** ** Functions for constructing the QUBO matrix *)

Definition apply_unique_start_constraint (M : matrix) (var_index : gmap (nat * nat) nat)
    (num_tasks T_max : nat) (penalty : Z) : res matrix :=
  for_each (range num_tasks) (fun k M =>
    for_each (range T_max) (fun t1 M =>
      idx_1 ← subscript var_index (k, t1);
      M ← add_at M idx_1 idx_1 (- penalty);
      for_each (range_from (t1 + 1) T_max) (fun t2 M =>
        if negb (Nat.eqb t1 t2) then
          idx_2 ← subscript var_index (k, t2);
          add_at M idx_1 idx_2 penalty
        else Ok M) M) M) M.

(** The guard [idx_1 is not None and idx_2 is not None] is applied to
    values obtained by subscripting, which are indices: it always holds. *)
Definition apply_machine_conflict_constraint (M : matrix) (var_index : gmap (nat * nat) nat)
    (task_map : task_dict) (T_max : nat) (penalty : Z) : res matrix :=
  for_each task_map (fun '(k1, (j1, o1, m1, d1)) M =>
    for_each task_map (fun '(k2, (j2, o2, m2, d2)) M =>
      if Nat.eqb k1 k2 then Ok M
      else if negb (m1 =? m2) then Ok M
      else
        for_each (range T_max) (fun t1 M =>
          for_each (range T_max) (fun t2 M =>
            if (0 <? Z.of_nat t2 - Z.of_nat t1) && (Z.of_nat t2 - Z.of_nat t1 <? d1) then
              idx_1 ← subscript var_index (k1, t1);
              idx_2 ← subscript var_index (k2, t2);
              add_at M idx_1 idx_2 penalty
            else Ok M) M) M) M) M.

(** [groups[key].append(v)], creating the group on first use; new groups
    go last, as in an insertion-ordered dictionary. *)
Fixpoint group_append {V} (groups : list (Z * list V)) (key : Z) (v : V) : list (Z * list V) :=
  match groups with
  | [] => [(key, [v])]
  | (j, vs) :: rest =>
      if j =? key then (j, vs ++ [v]) :: rest
      else (j, vs) :: group_append rest key v
  end.

Definition build_job_tasks (task_map : task_dict) : list (Z * list nat) :=
  fold_left (fun job_tasks '(k, (job, _, _, _)) => group_append job_tasks job k) task_map [].

Definition apply_precedence_constraint (M : matrix) (var_index : gmap (nat * nat) nat)
    (task_map : task_dict) (T_max : nat) (penalty : Z) : res matrix :=
  let job_tasks := build_job_tasks task_map in
  for_each job_tasks (fun '(job, ks) M =>
    let ks := sort_with Nat.leb ks in
    for_each (range (length ks - 1)) (fun operation_idx M =>
      k1 ← index ks operation_idx;
      k2 ← index ks (operation_idx + 1);
      '(_, _, _, duration_1) ← dict_subscript task_map k1;
      for_each (range T_max) (fun t1 M =>
        for_each (range T_max) (fun t2 M =>
          if Z.of_nat t2 <? Z.of_nat t1 + duration_1 then
            match get var_index (k1, t1), get var_index (k2, t2) with
            | Some idx_1, Some idx_2 => add_at M idx_1 idx_2 penalty
            | _, _ => Ok M
            end
          else Ok M) M) M) M) M.

Definition apply_makespan_objective (M : matrix) (var_index : gmap (nat * nat) nat)
    (task_map : task_dict) (num_tasks T_max : nat) (weight : Z) : res matrix :=
  for_each (range num_tasks) (fun k M =>
    '(_, _, _, duration) ← dict_subscript task_map k;
    for_each (range T_max) (fun t M =>
      idx ← subscript var_index (k, t);
      add_at M idx idx (weight * (Z.of_nat t + duration))) M) M.

(** ** The matrix assembled by [solve_and_visualize_jssp] *)

Record penalty_config : Type := {
  one_hot : Z;
  machine_penalty : Z;
  precedence : Z;
  makespan : Z
}.

Inductive builder : Type := UniqueStart | MachineConflict | Precedence | Makespan.

#[global] Instance builder_eq_dec : EqDecision builder.
Proof. solve_decision. Defined.

Section Assembly.
Variables (cfg : penalty_config) (num_vars : nat) (var_index : gmap (nat * nat) nat)
          (task_map : task_dict) (num_tasks T_max : nat).

Definition apply_builder (b : builder) (M : matrix) : res matrix :=
  match b with
  | UniqueStart =>
      apply_unique_start_constraint M var_index num_tasks T_max (one_hot cfg)
  | MachineConflict =>
      apply_machine_conflict_constraint M var_index task_map T_max (machine_penalty cfg)
  | Precedence =>
      apply_precedence_constraint M var_index task_map T_max (precedence cfg)
  | Makespan =>
      apply_makespan_objective M var_index task_map num_tasks T_max (makespan cfg)
  end.

(** The passes of [solve_and_visualize_jssp], in a given order. *)
Definition build_qubo (order : list builder) : res matrix :=
  for_each order apply_builder (zeros num_vars).

(** The order in which the source applies them. *)
Definition source_order : list builder :=
  [UniqueStart; MachineConflict; Precedence; Makespan].
End Assembly.

(** ** The quadratic program handed to the solver

    The lines of [solve_and_visualize_jssp] between the assembly of the
    matrix and the call of the solver: one binary variable [x_i] per index,
    the diagonal as linear terms, and the non-zero entries above the
    diagonal as quadratic terms.  The two dictionaries are only handed
    over, never iterated: they are finite maps. *)

(** [f"x_{i}"]. *)
Definition var_name (i : nat) : string := "x_" +:+ pretty i.

(** [Q[i, j]] read; an index out of range raises [IndexError]. *)
Definition read_at (M : matrix) (i j : nat) : res Z :=
  match mget M i j with
  | Some v => Ok v
  | None => Raise IndexError
  end.

Record quadratic_program : Type := {
  variables : list string;
  linear : gmap string Z;
  quadratic : gmap (string * string) Z
}.

Definition declare_variables (num_vars : nat) : list string :=
  fold_left (fun names i => names ++ [var_name i]) (range num_vars) [].

Definition linear_terms (num_vars : nat) (M : matrix) : res (gmap string Z) :=
  for_each (range num_vars) (fun i d =>
    v ← read_at M i i;
    Ok (<[var_name i := v]> d)) ∅.

Definition quadratic_terms (num_vars : nat) (M : matrix) : res (gmap (string * string) Z) :=
  for_each (range num_vars) (fun i d =>
    for_each (range_from (i + 1) num_vars) (fun j d =>
      c ← read_at M i j;
      if negb (c =? 0) then
        v ← read_at M i j;
        Ok (<[(var_name i, var_name j) := v]> d)
      else Ok d) d) ∅.

Definition build_program (num_vars : nat) (M : matrix) : res quadratic_program :=
  let names := declare_variables num_vars in
  l ← linear_terms num_vars M;
  q ← quadratic_terms num_vars M;
  Ok {| variables := names; linear := l; quadratic := q |}.

(** [solve_and_visualize_jssp] up to the call of the solver. *)
Definition qubo_program (cfg : penalty_config) (num_vars : nat)
    (var_index : gmap (nat * nat) nat) (task_map : task_dict) (num_tasks T_max : nat)
  : res quadratic_program :=
  M ← build_qubo cfg num_vars var_index task_map num_tasks T_max source_order;
  build_program num_vars M.

(** ** Functions for interpreting the results *)

(** Python's [round] on a real number: to the nearest integer, ties to the
    even one. *)
Definition py_round (x : Q) : Z :=
  let f := Qfloor x in
  match Qcompare (Qminus x (inject_Z f)) (1 # 2) with
  | Lt => f
  | Gt => f + 1
  | Eq => if Z.even f then f else f + 1
  end.

(** A schedule record; [end_] is the key ["end"]. *)
Record entry : Type := {
  task : nat;
  job : Z;
  task_idx : Z;
  machine : Z;
  start : Z;
  duration : Z;
  end_ : Z
}.

#[global] Instance entry_eq_dec : EqDecision entry.
Proof. solve_decision. Defined.

Definition extract_schedule_from_result (result : list Q) (var_index : gmap (nat * nat) nat)
    (task_map : task_dict) (num_tasks T_max : nat) : res (list entry) :=
  schedule ← for_each (range num_tasks) (fun k schedule =>
    for_each (range T_max) (fun t schedule =>
      idx ← subscript var_index (k, t);
      x ← index result idx;
      if py_round x =? 1 then
        '(job_id, op, m, d) ← dict_subscript task_map k;
        Ok (schedule ++ [{| task := k; job := job_id; task_idx := op; machine := m;
                            start := Z.of_nat t; duration := d;
                            end_ := Z.of_nat t + d |}])
      else Ok schedule) schedule) [];
  Ok (sorted_by start schedule).

(** [max] over a sequence; the empty sequence raises [ValueError]. *)
Definition py_max (l : list Z) : res Z :=
  match l with
  | [] => Raise ValueError
  | x :: l' => Ok (fold_left Z.max l' x)
  end.

Definition compute_makespan (schedule : list entry) : res Z :=
  py_max (map end_ schedule).

(** The scan over adjacent positions shared by the two validators below. *)
Definition flag_adjacent (tasks : list entry) (found : list (entry * entry))
  : res (list (entry * entry)) :=
  for_each (range (length tasks - 1)) (fun i found =>
    a ← index tasks i;
    b ← index tasks (i + 1);
    if end_ a >? start b then Ok (found ++ [(a, b)]) else Ok found) found.

Definition check_machine_conflicts (schedule : list entry) : res (list (entry * entry)) :=
  for_each [0; 1] (fun machine_id conflicts =>
    let machine_tasks :=
      sorted_by start (filter (fun t => machine t = machine_id) schedule) in
    flag_adjacent machine_tasks conflicts) [].

Definition check_precedence_violations (schedule : list entry) : res (list (entry * entry)) :=
  let by_job := fold_left (fun by_job t => group_append by_job (job t) t) schedule [] in
  for_each (map snd by_job) (fun job_tasks violations =>
    let sorted_tasks := sorted_by task_idx job_tasks in
    flag_adjacent sorted_tasks violations) [].

(** [Counter] of the task ids, then one pass over the expected ids. *)
Definition check_unique_start_constraint (schedule : list entry) (num_tasks : nat)
  : list (nat * nat) :=
  fold_left (fun violations task_id =>
    let count := length (filter (fun t => task t = task_id) schedule) in
    if negb (Nat.eqb count 1) then violations ++ [(task_id, count)] else violations)
    (range num_tasks) [].

(** ** Vocabulary of the statements *)

(** An [n] by [n] array. *)
Definition square (n : nat) (M : matrix) : Prop :=
  length M = n /\ Forall (fun row => length row = n) M.

(** The coefficient at [(i, j)]; [0] outside the array. *)
Definition coef (M : matrix) (i j : nat) : Z := default 0 (mget M i j).

(** [M'] is [M] with [f i j] added to every coefficient. *)
Definition adds_to (n : nat) (M M' : matrix) (f : nat -> nat -> Z) : Prop :=
  square n M' /\
  forall i j, (i < n)%nat -> (j < n)%nat -> coef M' i j = coef M i j + f i j.

(** A pass that returns on every [n] by [n] array, adding [f]. *)
Definition contributes (n : nat) (b : matrix -> res matrix) (f : nat -> nat -> Z) : Prop :=
  forall M, square n M -> exists M', b M = Ok M' /\ adds_to n M M' f.

(** A pass whose outcome on [n] by [n] arrays does not depend on their
    contents: it always raises the same exception, or it always returns
    and adds the same contribution. *)
Definition additive (n : nat) (b : matrix -> res matrix) : Prop :=
  (exists e, forall M, square n M -> b M = Raise e) \/
  (exists f, contributes n b f).

Fixpoint sumZ {A} (f : A -> Z) (l : list A) : Z :=
  match l with
  | [] => 0
  | x :: l' => f x + sumZ f l'
  end.

(** The contribution of a single [Q[a, b] += v]. *)
Definition unit_at (a b : nat) (v : Z) (i j : nat) : Z :=
  if decide (i = a /\ j = b) then v else 0.

(** Well-formedness of the variable index: every candidate (task, time)
    of the given tasks has an index, every stored index is a row of the
    array, and no two keys share an index. *)
Definition index_total (var_index : gmap (nat * nat) nat) (tasks : list nat) (T_max : nat) : Prop :=
  Forall (fun k => Forall (fun t => is_Some (var_index !! (k, t))) (range T_max)) tasks.

Definition index_in_range (n : nat) (var_index : gmap (nat * nat) nat) : Prop :=
  map_Forall (fun _ idx => (idx < n)%nat) var_index.

Definition index_injective (var_index : gmap (nat * nat) nat) : Prop :=
  NoDup (map snd (map_to_list var_index)).

#[global] Instance square_dec n M : Decision (square n M).
Proof. unfold square. apply _. Defined.

#[global] Instance index_total_dec var_index tasks T_max :
  Decision (index_total var_index tasks T_max).
Proof. unfold index_total. apply _. Defined.

#[global] Instance index_in_range_dec n var_index : Decision (index_in_range n var_index).
Proof. unfold index_in_range. apply _. Defined.

#[global] Instance index_injective_dec var_index : Decision (index_injective var_index).
Proof. unfold index_injective. apply _. Defined.

(** The index of a candidate, for use where it is known to exist. *)
Definition idx_of (var_index : gmap (nat * nat) nat) (k t : nat) : nat :=
  default 0%nat (var_index !! (k, t)).

(** Contribution of the unique-start pass, loop by loop. *)
Section UniqueStartContribution.
Context (var_index : gmap (nat * nat) nat) (num_tasks T_max : nat) (penalty : Z).

Definition unique_start_slot (k t1 i j : nat) : Z :=
  unit_at (idx_of var_index k t1) (idx_of var_index k t1) (- penalty) i j +
  sumZ (fun t2 => unit_at (idx_of var_index k t1) (idx_of var_index k t2) penalty i j)
       (range_from (t1 + 1) T_max).

Definition unique_start_task (k i j : nat) : Z :=
  sumZ (fun t1 => unique_start_slot k t1 i j) (range T_max).

Definition unique_start_contribution (i j : nat) : Z :=
  sumZ (fun k => unique_start_task k i j) (range num_tasks).
End UniqueStartContribution.

(** Every expected task id is a key of [task_map]. *)
Definition tasks_defined (task_map : task_dict) (num_tasks : nat) : Prop :=
  Forall (fun k => is_Some (dict_lookup task_map k)) (range num_tasks).

#[global] Instance tasks_defined_dec task_map num_tasks :
  Decision (tasks_defined task_map num_tasks).
Proof. unfold tasks_defined. apply _. Defined.

(** The duration recorded for a task, for use where the task is known. *)
Definition duration_of (task_map : task_dict) (k : nat) : Z :=
  match dict_lookup task_map k with
  | Some (_, _, _, d) => d
  | None => 0
  end.

(** Contribution of the makespan pass. *)
Definition makespan_contribution (var_index : gmap (nat * nat) nat) (task_map : task_dict)
    (num_tasks T_max : nat) (weight : Z) (i j : nat) : Z :=
  sumZ (fun k =>
    sumZ (fun t =>
      unit_at (idx_of var_index k t) (idx_of var_index k t)
              (weight * (Z.of_nat t + duration_of task_map k)) i j)
      (range T_max))
    (range num_tasks).

(** Contribution of the machine-conflict pass, loop by loop. *)
Section MachineConflictContribution.
Context (var_index : gmap (nat * nat) nat) (task_map : task_dict) (T_max : nat) (penalty : Z).

Definition machine_conflict_slots (k1 : nat) (d1 : Z) (k2 : nat) (i j : nat) : Z :=
  sumZ (fun t1 =>
    sumZ (fun t2 =>
      if (0 <? Z.of_nat t2 - Z.of_nat t1) && (Z.of_nat t2 - Z.of_nat t1 <? d1)
      then unit_at (idx_of var_index k1 t1) (idx_of var_index k2 t2) penalty i j
      else 0)
      (range T_max))
    (range T_max).

Definition machine_conflict_pair (x1 x2 : nat * task_info) (i j : nat) : Z :=
  let '(k1, (_, _, m1, d1)) := x1 in
  let '(k2, (_, _, m2, _)) := x2 in
  if Nat.eqb k1 k2 then 0
  else if negb (m1 =? m2) then 0
  else machine_conflict_slots k1 d1 k2 i j.

Definition machine_conflict_contribution (i j : nat) : Z :=
  sumZ (fun x1 => sumZ (fun x2 => machine_conflict_pair x1 x2 i j) task_map) task_map.
End MachineConflictContribution.

(** The pairs of neighbours of a list, in order. *)
Definition adjacent {A} (l : list A) : list (A * A) := zip l (tail l).

(** The dictionary built by repeated [group_append]. *)
Definition group_by {A V} (key : A -> Z) (val : A -> V) (l : list A) (g0 : list (Z * list V))
  : list (Z * list V) :=
  fold_left (fun g x => group_append g (key x) (val x)) l g0.

(** The keys of a sequence in the order in which they first occur: the key
    order of a dictionary filled by one pass over the sequence. *)
Definition first_seen (keys : list Z) : list Z :=
  fold_left (fun seen j => if decide (j ∈ seen) then seen else seen ++ [j]) keys [].

(** The job of an item of [task_map], and of a task id. *)
Definition task_job (x : nat * task_info) : Z :=
  let '(_, (job, _, _, _)) := x in job.

Definition job_of (task_map : task_dict) (k : nat) : option Z :=
  match dict_lookup task_map k with
  | Some (job, _, _, _) => Some job
  | None => None
  end.

(** The (current task, next task) pairs visited by the precedence pass. *)
Definition consecutive_pairs (task_map : task_dict) : list (nat * nat) :=
  flat_map (fun g => adjacent (sort_with Nat.leb (snd g))) (build_job_tasks task_map).

(** [k1] and [k2] are tasks of one job, [k2] being the next task id of that
    job after [k1]. *)
Definition consecutive (task_map : task_dict) (k1 k2 : nat) : Prop :=
  exists job_id,
    job_of task_map k1 = Some job_id /\ job_of task_map k2 = Some job_id /\
    (k1 < k2)%nat /\
    forall k, job_of task_map k = Some job_id -> ~ (k1 < k < k2)%nat.

(** Contribution of the precedence pass. *)
Section PrecedenceContribution.
Context (var_index : gmap (nat * nat) nat) (task_map : task_dict) (T_max : nat) (penalty : Z).

Definition precedence_slots (k1 : nat) (d1 : Z) (k2 : nat) (i j : nat) : Z :=
  sumZ (fun t1 =>
    sumZ (fun t2 =>
      if Z.of_nat t2 <? Z.of_nat t1 + d1 then
        match get var_index (k1, t1), get var_index (k2, t2) with
        | Some idx_1, Some idx_2 => unit_at idx_1 idx_2 penalty i j
        | _, _ => 0
        end
      else 0)
      (range T_max))
    (range T_max).

Definition precedence_pair (p : nat * nat) (i j : nat) : Z :=
  precedence_slots (fst p) (duration_of task_map (fst p)) (snd p) i j.

Definition precedence_contribution (i j : nat) : Z :=
  sumZ (fun p => precedence_pair p i j) (consecutive_pairs task_map).
End PrecedenceContribution.

(** What the groups hold once the items [l] have been appended: one
    group per key that occurs, holding the values of that key in order. *)
Definition grouped {A V} (key : A -> Z) (val : A -> V) (l : list A) (g : list (Z * list V))
  : Prop :=
  NoDup (map fst g) /\
  (forall x, x ∈ l -> key x ∈ map fst g) /\
  (forall j vs, (j, vs) ∈ g ->
     vs <> [] /\ vs = map val (filter (fun x => key x = j) l)).

(** A schedule entry of the given task, job, operation index, machine,
    start and duration. *)
Definition mk_entry (k : nat) (job_id op m : Z) (t d : Z) : entry :=
  {| task := k; job := job_id; task_idx := op; machine := m;
     start := t; duration := d; end_ := t + d |}.

(** The assignment selects start time [t] for task [k]. *)
Definition selected (result : list Q) (var_index : gmap (nat * nat) nat) (k t : nat) : bool :=
  match var_index !! (k, t) with
  | Some idx =>
      match result !! idx with
      | Some x => py_round x =? 1
      | None => false
      end
  | None => false
  end.

(** The record of task [k] started at [t]. *)
Definition record_of (task_map : task_dict) (k t : nat) : entry :=
  match dict_lookup task_map k with
  | Some (job_id, op, m, d) => mk_entry k job_id op m (Z.of_nat t) d
  | None => mk_entry k 0 0 0 (Z.of_nat t) 0
  end.

(** The records in the order in which the extractor appends them. *)
Definition scanned (result : list Q) (var_index : gmap (nat * nat) nat)
    (task_map : task_dict) (num_tasks T_max : nat) : list entry :=
  flat_map (fun k =>
    flat_map (fun t =>
      if selected result var_index k t then [record_of task_map k t] else [])
      (range T_max))
    (range num_tasks).

(** The neighbours of a list of entries of which the first ends after the
    second starts. *)
Definition flagged (tasks : list entry) : list (entry * entry) :=
  filter (fun p => start (snd p) < end_ (fst p)) (adjacent tasks).

(** The half-open intervals of two entries intersect. *)
Definition overlap (a b : entry) : Prop := start a < end_ b /\ start b < end_ a.

(** [R] holds, both ways round, of every two elements at distinct
    positions. *)
Fixpoint pairwise {A} (R : A -> A -> Prop) (l : list A) : Prop :=
  match l with
  | [] => True
  | x :: l' => Forall (fun y => R x y /\ R y x) l' /\ pairwise R l'
  end.

#[global] Instance overlap_dec a b : Decision (overlap a b).
Proof. unfold overlap. apply _. Defined.

#[global] Instance pairwise_dec {A} (R : A -> A -> Prop)
    `{!forall a b, Decision (R a b)} (l : list A) : Decision (pairwise R l).
Proof. induction l as [|x l IH]; simpl; apply _. Defined.

(** ** Outcomes of a pass

    [Inv] is what the pass may assume of the state it is given, and keeps. *)

(** The pass returns. *)
Definition returns {St} (Inv : St -> Prop) (b : St -> res St) : Prop :=
  forall s, Inv s -> exists s', b s = Ok s' /\ Inv s'.

(** The pass returns or raises [e], nothing else. *)
Definition raises_at_most {St} (e : exn) (Inv : St -> Prop) (b : St -> res St) : Prop :=
  forall s, Inv s -> b s = Raise e \/ exists s', b s = Ok s' /\ Inv s'.

(** The pass raises [e]. *)
Definition always_raises {St} (e : exn) (Inv : St -> Prop) (b : St -> res St) : Prop :=
  forall s, Inv s -> b s = Raise e.

(** The lookups that the machine-conflict pass performs all succeed. *)
Definition machine_conflict_reads (var_index : gmap (nat * nat) nat) (task_map : task_dict)
    (T_max : nat) : Prop :=
  forall k1 j1 o1 m1 d1 k2 j2 o2 m2 d2 t1 t2,
    (k1, (j1, o1, m1, d1)) ∈ task_map -> (k2, (j2, o2, m2, d2)) ∈ task_map ->
    k1 <> k2 -> m1 = m2 -> (t1 < T_max)%nat -> (t2 < T_max)%nat ->
    0 < Z.of_nat t2 - Z.of_nat t1 < d1 ->
    is_Some (var_index !! (k1, t1)) /\ is_Some (var_index !! (k2, t2)).

(** How often a task occurs in a schedule, and the start times that an
    assignment selects for a task. *)
Definition occurrences (schedule : list entry) (k : nat) : nat :=
  length (filter (fun t => task t = k) schedule).

Definition selected_starts (result : list Q) (var_index : gmap (nat * nat) nat)
    (T_max k : nat) : list nat :=
  filter (fun t => selected result var_index k t = true) (range T_max).

(** The contribution of each pass of the assembly. *)
Definition builder_contribution (cfg : penalty_config) (var_index : gmap (nat * nat) nat)
    (task_map : task_dict) (num_tasks T_max : nat) (b : builder) : nat -> nat -> Z :=
  match b with
  | UniqueStart => unique_start_contribution var_index num_tasks T_max (one_hot cfg)
  | MachineConflict =>
      machine_conflict_contribution var_index task_map T_max (machine_penalty cfg)
  | Precedence => precedence_contribution var_index task_map T_max (precedence cfg)
  | Makespan => makespan_contribution var_index task_map num_tasks T_max (makespan cfg)
  end.

(** The task map holds the tasks [0 .. num_tasks - 1], each once. *)
Definition tasks_numbered (task_map : task_dict) (num_tasks : nat) : Prop :=
  map fst task_map ≡ₚ range num_tasks.

#[global] Instance tasks_numbered_dec task_map num_tasks :
  Decision (tasks_numbered task_map num_tasks).
Proof. unfold tasks_numbered. apply _. Defined.

(** The index pairs above the diagonal, in the order of the comprehension. *)
Definition upper_pairs (n : nat) : list (nat * nat) :=
  flat_map (fun i => map (pair i) (range_from (i + 1) n)) (range n).

(** A loop that sets dictionary entries, as a fold. *)
Definition set_entries {A K V} `{Countable K} (kf : A -> K) (vf : A -> option V)
    (l : list A) (d : gmap K V) : gmap K V :=
  fold_left (fun d x => match vf x with Some v => <[kf x := v]> d | None => d end) l d.

(** ** A running example

    Two tasks of job 0 on machine 0, of durations 2 and 1, and two time
    slots; the four candidates are numbered row by row. *)
Definition example_index : gmap (nat * nat) nat :=
  list_to_map [((0, 0), 0); ((0, 1), 1); ((1, 0), 2); ((1, 1), 3)]%nat.

Definition example_tasks : task_dict :=
  [(0%nat, (0, 0, 0, 2)); (1%nat, (0, 1, 0, 1))].

(** Three tasks ending at 4, 7 and 5. *)
Definition example_schedule : list entry :=
  [mk_entry 0 0 0 0 0 4; mk_entry 1 0 1 1 4 3; mk_entry 2 1 0 1 2 3].

(** An assignment that selects both start times of task 0 and none of
    task 1. *)
Definition example_assignment : list Q := [1 # 1; 1 # 1; 0 # 1; 0 # 1]%Q.

(** Two tasks of durations 3 and 2 on machine 0, started at 0 and 1. *)
Definition example_conflict : list entry :=
  [mk_entry 0 0 0 0 0 3; mk_entry 1 1 0 0 1 2].

(** Operation 0 of job 0 runs over [2, 4) after operation 1 ran over
    [0, 1): out of order, but the intervals are disjoint. *)
Definition example_out_of_order : list entry :=
  [mk_entry 0 0 0 0 2 2; mk_entry 1 0 1 1 0 1].

(** A long task on machine 0 that covers two later, disjoint ones. *)
Definition example_nested : list entry :=
  [mk_entry 0 0 0 0 0 10; mk_entry 1 1 0 0 1 1; mk_entry 2 2 0 0 3 1].

(** A task over [1, 3) and a task of duration 0 at time 1, on machine 0. *)
Definition example_zero_duration : list entry :=
  [mk_entry 0 0 0 0 1 2; mk_entry 1 1 0 0 1 0].

(** Two overlapping tasks on machine 2. *)
Definition example_other_machine : list entry :=
  [mk_entry 0 0 0 2 0 3; mk_entry 1 1 0 2 1 2].

(** Two tasks of different jobs on machine 0, both of duration 2. *)
Definition example_long_tasks : task_dict :=
  [(0%nat, (0, 0, 0, 2)); (1%nat, (1, 0, 0, 2))].

(** The index of the running example without the candidate (1, 1). *)
Definition example_partial_index : gmap (nat * nat) nat :=
  list_to_map [((0, 0), 0); ((0, 1), 1); ((1, 0), 2)]%nat.

(** The same two tasks with durations 1 and 2, on different machines. *)
Definition example_short_tasks : task_dict :=
  [(0%nat, (0, 0, 0, 1)); (1%nat, (0, 1, 1, 2))].

Definition example_config : penalty_config :=
  {| one_hot := 10; machine_penalty := 7; precedence := 5; makespan := 1 |}.

(* ================================================================== *)
(** * Properties *)

(** ** Arrays *)

Lemma square_zeros n : square n (zeros n).
Proof.
  split; [apply length_replicate|].
  apply Forall_replicate, length_replicate.
Qed.

Lemma square_lookup n M i :
  square n M -> (i < n)%nat -> exists row, M !! i = Some row /\ length row = n.
Proof.
  intros [Hlen Hrows] Hi.
  destruct (lookup_lt_is_Some_2 M i) as [row Hrow]; [lia|].
  exists row; split; [done|].
  by eapply Forall_lookup_1 in Hrows.
Qed.

Lemma mget_square n M i j :
  square n M -> (i < n)%nat -> (j < n)%nat -> is_Some (mget M i j).
Proof.
  intros HM Hi Hj. unfold mget.
  destruct (square_lookup n M i HM Hi) as (row & -> & Hrow).
  apply lookup_lt_is_Some_2. lia.
Qed.

Lemma mget_in_range n M i j x :
  square n M -> mget M i j = Some x -> (i < n)%nat /\ (j < n)%nat.
Proof.
  intros [Hlen Hrows] Hget. unfold mget in Hget.
  destruct (M !! i) as [row|] eqn:Hrow; [|done].
  apply lookup_lt_Some in Hrow as Hi.
  eapply Forall_lookup_1 in Hrows; [|done].
  apply lookup_lt_Some in Hget. lia.
Qed.

Lemma coef_outside n M i j :
  square n M -> ~ ((i < n)%nat /\ (j < n)%nat) -> coef M i j = 0.
Proof.
  intros HM Hout. unfold coef.
  destruct (mget M i j) as [x|] eqn:E; [|done].
  exfalso. apply Hout. by eapply mget_in_range.
Qed.

Lemma add_at_ok n M i j v :
  square n M -> (i < n)%nat -> (j < n)%nat ->
  exists M', add_at M i j v = Ok M' /\ adds_to n M M' (unit_at i j v).
Proof.
  intros HM Hi Hj.
  destruct (square_lookup n M i HM Hi) as (row & Hrow & Hlen).
  destruct (lookup_lt_is_Some_2 row j) as [x Hx]; [lia|].
  unfold add_at. rewrite Hrow, Hx. eexists; split; [done|].
  destruct HM as [HlenM Hrows]. split.
  - split; [by rewrite length_insert|].
    apply Forall_insert; [done|]. by rewrite length_insert.
  - intros a b Ha Hb. unfold coef, mget, unit_at.
    destruct (decide (a = i)) as [->|Hne].
    + rewrite list_lookup_insert_eq by lia. rewrite Hrow.
      destruct (decide (b = j)) as [->|Hnej].
      * rewrite list_lookup_insert_eq by lia. rewrite Hx.
        rewrite decide_True by done. done.
      * rewrite list_lookup_insert_ne by done.
        rewrite decide_False by tauto. simpl. lia.
    + rewrite list_lookup_insert_ne by done.
      rewrite decide_False by tauto. lia.
Qed.

Lemma add_at_out_of_range n M i j v :
  square n M -> ~ ((i < n)%nat /\ (j < n)%nat) -> add_at M i j v = Raise IndexError.
Proof.
  intros HM Hout. unfold add_at.
  destruct (M !! i) as [row|] eqn:Hrow; [|done].
  destruct (row !! j) as [x|] eqn:Hx; [|done].
  exfalso. apply Hout.
  apply lookup_lt_Some in Hrow as Hi. destruct HM as [HlenM Hrows].
  eapply Forall_lookup_1 in Hrows; [|done].
  apply lookup_lt_Some in Hx. lia.
Qed.

Lemma square_ext n M1 M2 :
  square n M1 -> square n M2 ->
  (forall i j, (i < n)%nat -> (j < n)%nat -> coef M1 i j = coef M2 i j) ->
  M1 = M2.
Proof.
  intros H1 H2 Heq. apply list_eq; intros i.
  destruct (decide (i < n)%nat) as [Hi|Hi].
  - destruct (square_lookup n M1 i H1 Hi) as (r1 & Hr1 & Hl1).
    destruct (square_lookup n M2 i H2 Hi) as (r2 & Hr2 & Hl2).
    rewrite Hr1, Hr2. f_equal. apply list_eq; intros j.
    destruct (decide (j < n)%nat) as [Hj|Hj].
    + specialize (Heq i j Hi Hj). unfold coef, mget in Heq.
      rewrite Hr1, Hr2 in Heq.
      destruct (lookup_lt_is_Some_2 r1 j) as [x1 Hx1]; [lia|].
      destruct (lookup_lt_is_Some_2 r2 j) as [x2 Hx2]; [lia|].
      rewrite Hx1, Hx2 in *. simpl in Heq. by subst.
    + rewrite !lookup_ge_None_2 by lia. done.
  - destruct H1 as [H1 _], H2 as [H2 _].
    rewrite !lookup_ge_None_2 by lia. done.
Qed.

Lemma adds_to_square n M M' f : adds_to n M M' f -> square n M'.
Proof. by intros [? _]. Qed.

Lemma adds_to_refl n M : square n M -> adds_to n M M (fun _ _ => 0).
Proof. intros HM; split; [done|]. intros; lia. Qed.

Lemma adds_to_trans n M1 M2 M3 f g :
  adds_to n M1 M2 f -> adds_to n M2 M3 g ->
  adds_to n M1 M3 (fun i j => f i j + g i j).
Proof.
  intros [_ Hf] [HM3 Hg]; split; [done|].
  intros i j Hi Hj. rewrite Hg, Hf by done. lia.
Qed.

Lemma adds_to_ext n M M' f g :
  (forall i j, (i < n)%nat -> (j < n)%nat -> f i j = g i j) ->
  adds_to n M M' f -> adds_to n M M' g.
Proof.
  intros Hfg [HM Hf]; split; [done|].
  intros i j Hi Hj. rewrite Hf, Hfg by done. done.
Qed.

(** ** Sums *)

Lemma sumZ_zero {A} (f : A -> Z) l : (forall x, x ∈ l -> f x = 0) -> sumZ f l = 0.
Proof.
  induction l as [|x l IH]; intros Hz; simpl; [done|].
  rewrite Hz, IH; [done| |]; [intros y Hy; apply Hz|]; set_solver.
Qed.

Lemma sumZ_ext {A} (f g : A -> Z) l :
  (forall x, x ∈ l -> f x = g x) -> sumZ f l = sumZ g l.
Proof.
  induction l as [|x l IH]; intros Hfg; simpl; [done|].
  rewrite Hfg, IH; [done| |]; [intros y Hy; apply Hfg|]; set_solver.
Qed.

Lemma sumZ_single {A} (f : A -> Z) l x0 :
  NoDup l -> x0 ∈ l -> (forall x, x ∈ l -> x <> x0 -> f x = 0) -> sumZ f l = f x0.
Proof.
  induction l as [|x l IH]; intros Hnd Hin Hz; [by apply elem_of_nil in Hin|].
  apply NoDup_cons in Hnd as [Hx Hnd]. simpl.
  apply elem_of_cons in Hin as [->|Hin].
  - rewrite sumZ_zero; [lia|]. intros y Hy. apply Hz; [set_solver|].
    intros ->. done.
  - rewrite IH; [|done|done|]. 
    + rewrite Hz; [lia|set_solver|]. intros ->. done.
    + intros y Hy Hne. apply Hz; [set_solver|done].
Qed.

Lemma sumZ_plus {A} (f g : A -> Z) l :
  sumZ (fun x => f x + g x) l = sumZ f l + sumZ g l.
Proof. induction l as [|x l IH]; simpl; lia. Qed.

Lemma sumZ_app {A} (f : A -> Z) l1 l2 : sumZ f (l1 ++ l2) = sumZ f l1 + sumZ f l2.
Proof. induction l1 as [|x l1 IH]; simpl; lia. Qed.

Lemma NoDup_range n : NoDup (range n).
Proof. apply NoDup_seq. Qed.

Lemma elem_of_range n i : i ∈ range n <-> (i < n)%nat.
Proof. unfold range. rewrite elem_of_seq. lia. Qed.

Lemma elem_of_range_from a b i : i ∈ range_from a b <-> (a <= i < b)%nat.
Proof. unfold range_from. rewrite elem_of_seq. lia. Qed.

Lemma unit_at_hit a b v : unit_at a b v a b = v.
Proof. unfold unit_at. by rewrite decide_True. Qed.

Lemma unit_at_miss a b v i j : (i, j) <> (a, b) -> unit_at a b v i j = 0.
Proof.
  intros Hne. unfold unit_at. rewrite decide_False; [done|].
  intros [-> ->]. done.
Qed.

(** ** Passes with a known contribution *)

Lemma contributes_ret n : contributes n Ok (fun _ _ => 0).
Proof. intros M HM. exists M. split; [done|]. by apply adds_to_refl. Qed.

Lemma contributes_ext n b f g :
  (forall i j, (i < n)%nat -> (j < n)%nat -> f i j = g i j) ->
  contributes n b f -> contributes n b g.
Proof.
  intros Hfg Hb M HM. destruct (Hb M HM) as (M' & HM' & Hadd).
  exists M'. split; [done|]. by eapply adds_to_ext.
Qed.

Lemma contributes_add_at n i j v :
  (i < n)%nat -> (j < n)%nat -> contributes n (fun M => add_at M i j v) (unit_at i j v).
Proof. intros Hi Hj M HM. by apply add_at_ok. Qed.

Lemma contributes_bind n b1 b2 f g :
  contributes n b1 f -> contributes n b2 g ->
  contributes n (fun M => M' ← b1 M; b2 M') (fun i j => f i j + g i j).
Proof.
  intros H1 H2 M HM.
  destruct (H1 M HM) as (M1 & -> & Hadd1).
  destruct (H2 M1 (adds_to_square _ _ _ _ Hadd1)) as (M2 & HM2 & Hadd2).
  exists M2. split; [done|]. by eapply adds_to_trans.
Qed.

Lemma contributes_for_each {A} n (l : list A) body f :
  (forall x, x ∈ l -> contributes n (body x) (f x)) ->
  contributes n (for_each l body) (fun i j => sumZ (fun x => f x i j) l).
Proof.
  induction l as [|x l IH]; intros Hbody.
  - apply contributes_ret.
  - simpl. apply (contributes_bind n (body x) (for_each l body)).
    + apply Hbody. set_solver.
    + apply IH. intros y Hy. apply Hbody. set_solver.
Qed.

(** ** Passes whose outcome ignores the contents of the array *)

Lemma additive_contributes n b f : contributes n b f -> additive n b.
Proof. intros Hb. right. by exists f. Qed.

Lemma additive_ret n : additive n Ok.
Proof. eapply additive_contributes, contributes_ret. Qed.

Lemma additive_raise n e : additive n (fun _ => Raise e).
Proof. left. by exists e. Qed.

Lemma additive_add_at n i j v : additive n (fun M => add_at M i j v).
Proof.
  destruct (decide ((i < n)%nat /\ (j < n)%nat)) as [[Hi Hj]|Hout].
  - eapply additive_contributes. by apply contributes_add_at.
  - left. exists IndexError. intros M HM. by eapply add_at_out_of_range.
Qed.

Lemma additive_bind n b1 b2 :
  additive n b1 -> additive n b2 -> additive n (fun M => M' ← b1 M; b2 M').
Proof.
  intros [[e1 H1]|[f H1]] H2.
  - left. exists e1. intros M HM. by rewrite H1.
  - destruct H2 as [[e2 H2]|[g H2]].
    + left. exists e2. intros M HM.
      destruct (H1 M HM) as (M1 & -> & Hadd1). simpl.
      apply H2. by eapply adds_to_square.
    + eapply additive_contributes. by apply contributes_bind.
Qed.

Lemma additive_for_each {A} n (l : list A) body :
  (forall x, additive n (body x)) -> additive n (for_each l body).
Proof.
  intros Hbody. induction l as [|x l IH].
  - apply additive_ret.
  - simpl. by apply (additive_bind n (body x) (for_each l body)).
Qed.

Lemma additive_subscript n var_index key (b : nat -> matrix -> res matrix) :
  (forall idx, additive n (b idx)) ->
  additive n (fun M => idx ← subscript var_index key; b idx M).
Proof.
  intros Hb. unfold subscript. destruct (var_index !! key) as [idx|]; simpl.
  - apply Hb.
  - apply additive_raise.
Qed.

Lemma additive_index {A} n (l : list A) i (b : A -> matrix -> res matrix) :
  (forall x, additive n (b x)) ->
  additive n (fun M => x ← index l i; b x M).
Proof.
  intros Hb. unfold index. destruct (l !! i) as [x|]; simpl.
  - apply Hb.
  - apply additive_raise.
Qed.

Lemma additive_dict_subscript {V} n (d : list (nat * V)) k (b : V -> matrix -> res matrix) :
  (forall v, additive n (b v)) ->
  additive n (fun M => v ← dict_subscript d k; b v M).
Proof.
  intros Hb. unfold dict_subscript. destruct (dict_lookup d k) as [v|]; simpl.
  - apply Hb.
  - apply additive_raise.
Qed.

(** ** The four builders are additive *)

Section BuildersAdditive.
Context (n : nat) (var_index : gmap (nat * nat) nat) (task_map : task_dict)
        (num_tasks T_max : nat).

Lemma additive_unique_start penalty :
  additive n (fun M => apply_unique_start_constraint M var_index num_tasks T_max penalty).
Proof.
  unfold apply_unique_start_constraint.
  apply additive_for_each; intros k.
  apply additive_for_each; intros t1.
  apply additive_subscript; intros idx_1.
  apply (additive_bind n (fun M => add_at M idx_1 idx_1 (- penalty))).
  { apply additive_add_at. }
  apply additive_for_each; intros t2.
  destruct (negb (t1 =? t2)%nat); [|apply additive_ret].
  apply additive_subscript; intros idx_2.
  apply additive_add_at.
Qed.

Lemma additive_machine_conflict penalty :
  additive n (fun M => apply_machine_conflict_constraint M var_index task_map T_max penalty).
Proof.
  unfold apply_machine_conflict_constraint.
  apply additive_for_each; intros [k1 [[[j1 o1] m1] d1]].
  apply additive_for_each; intros [k2 [[[j2 o2] m2] d2]].
  destruct (k1 =? k2)%nat; [apply additive_ret|].
  destruct (negb (m1 =? m2)); [apply additive_ret|].
  apply additive_for_each; intros t1.
  apply additive_for_each; intros t2.
  destruct (_ && _); [|apply additive_ret].
  apply additive_subscript; intros idx_1.
  apply additive_subscript; intros idx_2.
  apply additive_add_at.
Qed.

Lemma additive_precedence penalty :
  additive n (fun M => apply_precedence_constraint M var_index task_map T_max penalty).
Proof.
  unfold apply_precedence_constraint.
  apply additive_for_each; intros [job_id ks].
  apply additive_for_each; intros operation_idx.
  apply additive_index; intros k1.
  apply additive_index; intros k2.
  apply additive_dict_subscript; intros [[[j1 o1] m1] duration_1].
  apply additive_for_each; intros t1.
  apply additive_for_each; intros t2.
  destruct (_ <? _); [|apply additive_ret].
  destruct (get var_index (k1, t1)) as [idx_1|]; [|apply additive_ret].
  destruct (get var_index (k2, t2)) as [idx_2|]; [|apply additive_ret].
  apply additive_add_at.
Qed.

Lemma additive_makespan weight :
  additive n (fun M => apply_makespan_objective M var_index task_map num_tasks T_max weight).
Proof.
  unfold apply_makespan_objective.
  apply additive_for_each; intros k.
  apply additive_dict_subscript; intros [[[j1 o1] m1] d].
  apply additive_for_each; intros t.
  apply additive_subscript; intros idx.
  apply additive_add_at.
Qed.

Lemma additive_apply_builder cfg b :
  additive n (apply_builder cfg var_index task_map num_tasks T_max b).
Proof.
  destruct b; simpl.
  - apply additive_unique_start.
  - apply additive_machine_conflict.
  - apply additive_precedence.
  - apply additive_makespan.
Qed.
End BuildersAdditive.

(** Two additive passes commute, up to the kind of exception raised. *)
Lemma additive_swap n b1 b2 M :
  additive n b1 -> additive n b2 -> square n M ->
  returned (M' ← b1 M; b2 M') = returned (M' ← b2 M; b1 M').
Proof.
  intros [[e1 H1]|[f H1]] [[e2 H2]|[g H2]] HM.
  - by rewrite H1, H2.
  - rewrite H1 by done. destruct (H2 M HM) as (M2 & -> & Hadd). simpl.
    rewrite H1; [done|]. by eapply adds_to_square.
  - rewrite H2 by done. destruct (H1 M HM) as (M1 & -> & Hadd). simpl.
    rewrite H2; [done|]. by eapply adds_to_square.
  - destruct (H1 M HM) as (M1 & -> & Hadd1).
    destruct (H2 M HM) as (M2 & -> & Hadd2). simpl.
    destruct (H2 M1 (adds_to_square _ _ _ _ Hadd1)) as (M12 & -> & Hadd12).
    destruct (H1 M2 (adds_to_square _ _ _ _ Hadd2)) as (M21 & -> & Hadd21).
    simpl. f_equal.
    apply (square_ext n); [by eapply adds_to_square..|].
    intros i j Hi Hj.
    destruct Hadd1 as [_ E1], Hadd2 as [_ E2], Hadd12 as [_ E12], Hadd21 as [_ E21].
    rewrite E12, E21, E1, E2 by done. lia.
Qed.

Lemma for_each_permutation {A} n (l l' : list A) (body : A -> matrix -> res matrix) :
  (forall x, additive n (body x)) -> Permutation l l' ->
  forall M, square n M -> returned (for_each l body M) = returned (for_each l' body M).
Proof.
  intros Hadd Hperm. induction Hperm as [|x l l' Hperm IH|x y l|l l' l'' _ IH1 _ IH2];
    intros M HM.
  - done.
  - simpl. destruct (Hadd x) as [[e He]|[f Hf]].
    + by rewrite He.
    + destruct (Hf M HM) as (M1 & -> & Hadd1). simpl.
      apply IH. by eapply adds_to_square.
  - simpl.
    pose proof (additive_swap n (body y) (body x) M (Hadd y) (Hadd x) HM) as Hswap.
    destruct (body y M) as [My|ey] eqn:Ey; destruct (body x M) as [Mx|ex] eqn:Ex; simpl in *.
    + destruct (body x My) as [Myx|] eqn:Eyx; destruct (body y Mx) as [Mxy|] eqn:Exy;
        simpl in *; try done.
      by simplify_eq.
    + destruct (body x My); simpl in *; done.
    + destruct (body y Mx); simpl in *; done.
    + done.
  - rewrite IH1 by done. by apply IH2.
Qed.

(** ** The variable index *)

Lemma index_total_lookup var_index tasks T_max k t :
  index_total var_index tasks T_max -> k ∈ tasks -> (t < T_max)%nat ->
  exists idx, var_index !! (k, t) = Some idx /\ idx_of var_index k t = idx.
Proof.
  intros Htot Hk Ht. unfold index_total in Htot.
  rewrite Forall_forall in Htot. specialize (Htot k Hk).
  rewrite Forall_forall in Htot.
  destruct (Htot t) as [idx Hidx]; [by apply elem_of_range|].
  exists idx. split; [done|]. unfold idx_of. by rewrite Hidx.
Qed.

Lemma subscript_lookup var_index key idx :
  var_index !! key = Some idx -> subscript var_index key = Ok idx.
Proof. intros H. unfold subscript. by rewrite H. Qed.

Lemma subscript_missing var_index key :
  var_index !! key = None -> subscript var_index key = Raise KeyError.
Proof. intros H. unfold subscript. by rewrite H. Qed.

Lemma index_in_range_lookup n var_index key idx :
  index_in_range n var_index -> var_index !! key = Some idx -> (idx < n)%nat.
Proof. intros Hr Hl. by apply (Hr key idx). Qed.

Lemma index_injective_lookup var_index key key' idx :
  index_injective var_index ->
  var_index !! key = Some idx -> var_index !! key' = Some idx -> key = key'.
Proof.
  intros Hinj H1 H2. unfold index_injective in Hinj.
  apply elem_of_map_to_list in H1, H2.
  apply list_elem_of_lookup in H1 as [a Ha], H2 as [b Hb].
  assert (a = b) as ->.
  { eapply NoDup_lookup; [exact Hinj| |].
    - rewrite list_lookup_fmap, Ha. done.
    - rewrite list_lookup_fmap, Hb. done. }
  congruence.
Qed.

(** ** The unique-start pass *)

Section UniqueStart.
Context (n : nat) (var_index : gmap (nat * nat) nat) (num_tasks T_max : nat) (penalty : Z).
Hypothesis Htotal : index_total var_index (range num_tasks) T_max.
Hypothesis Hrange : index_in_range n var_index.

Lemma contributes_unique_start :
  contributes n
    (fun M => apply_unique_start_constraint M var_index num_tasks T_max penalty)
    (unique_start_contribution var_index num_tasks T_max penalty).
Proof.
  unfold apply_unique_start_constraint.
  apply (contributes_for_each n (range num_tasks) _
           (unique_start_task var_index T_max penalty)).
  intros k Hk.
  apply (contributes_for_each n (range T_max) _
           (unique_start_slot var_index T_max penalty k)).
  intros t1 Ht1. apply elem_of_range in Ht1.
  destruct (index_total_lookup _ _ _ k t1 Htotal Hk Ht1) as (i1 & Hi1 & Ei1).
  pose proof (index_in_range_lookup _ _ _ _ Hrange Hi1) as Hlt1.
  cbv beta. rewrite (subscript_lookup _ _ _ Hi1). simpl.
  unfold unique_start_slot. rewrite Ei1.
  apply (contributes_bind n (fun M => add_at M i1 i1 (- penalty))).
  { by apply contributes_add_at. }
  apply (contributes_for_each n _ _
           (fun t2 => unit_at i1 (idx_of var_index k t2) penalty)).
  intros t2 Ht2. apply elem_of_range_from in Ht2.
  destruct (index_total_lookup _ _ _ k t2 Htotal Hk ltac:(lia)) as (i2 & Hi2 & Ei2).
  pose proof (index_in_range_lookup _ _ _ _ Hrange Hi2) as Hlt2.
  cbv beta.
  replace (t1 =? t2)%nat with false by (symmetry; apply Nat.eqb_neq; lia).
  simpl. rewrite (subscript_lookup _ _ _ Hi2), Ei2. simpl.
  by apply contributes_add_at.
Qed.

Hypothesis Hinj : index_injective var_index.

Lemma unique_start_lookup k t :
  (k < num_tasks)%nat -> (t < T_max)%nat ->
  var_index !! (k, t) = Some (idx_of var_index k t).
Proof.
  intros Hk Ht.
  destruct (index_total_lookup _ _ _ k t Htotal) as (i & Hi & Ei);
    [by apply elem_of_range|done|].
  by rewrite Ei.
Qed.

Lemma unique_start_idx_inj k t k' t' :
  (k < num_tasks)%nat -> (t < T_max)%nat -> (k' < num_tasks)%nat -> (t' < T_max)%nat ->
  idx_of var_index k t = idx_of var_index k' t' -> k = k' /\ t = t'.
Proof.
  intros Hk Ht Hk' Ht' Heq.
  pose proof (unique_start_lookup k t Hk Ht) as H1.
  pose proof (unique_start_lookup k' t' Hk' Ht') as H2.
  rewrite Heq in H1.
  pose proof (index_injective_lookup _ _ _ _ Hinj H1 H2) as E.
  by simplify_eq.
Qed.

(** Entries whose row and column are two slots of one task. *)
Lemma unique_start_contribution_same_task k ta tb :
  (k < num_tasks)%nat -> (ta < T_max)%nat -> (tb < T_max)%nat ->
  unique_start_contribution var_index num_tasks T_max penalty
    (idx_of var_index k ta) (idx_of var_index k tb) =
  if decide (ta = tb) then - penalty
  else if decide (ta < tb)%nat then penalty else 0.
Proof.
  intros Hk Hta Htb. unfold unique_start_contribution.
  rewrite (sumZ_single _ _ k); [|apply NoDup_range|by apply elem_of_range|].
  2:{ intros k' Hk' Hne. apply elem_of_range in Hk'.
      unfold unique_start_task. apply sumZ_zero. intros t1 Ht1.
      apply elem_of_range in Ht1. unfold unique_start_slot.
      rewrite unit_at_miss, sumZ_zero; [done| |].
      - intros t2 Ht2. apply unit_at_miss. intros E. simplify_eq.
        destruct (unique_start_idx_inj k ta k' t1) as [? ?]; done.
      - intros E. simplify_eq.
        destruct (unique_start_idx_inj k ta k' t1) as [? ?]; done. }
  unfold unique_start_task.
  rewrite (sumZ_single _ _ ta); [|apply NoDup_range|by apply elem_of_range|].
  2:{ intros t1 Ht1 Hne. apply elem_of_range in Ht1. unfold unique_start_slot.
      rewrite unit_at_miss, sumZ_zero; [done| |].
      - intros t2 Ht2. apply unit_at_miss. intros E. simplify_eq.
        destruct (unique_start_idx_inj k ta k t1) as [? ?]; done.
      - intros E. simplify_eq.
        destruct (unique_start_idx_inj k ta k t1) as [? ?]; done. }
  unfold unique_start_slot.
  destruct (decide (ta = tb)) as [->|Hne].
  - rewrite unit_at_hit, sumZ_zero; [lia|].
    intros t2 Ht2. apply elem_of_range_from in Ht2.
    apply unit_at_miss. intros E. simplify_eq.
    destruct (unique_start_idx_inj k tb k t2) as [? ?]; first [done|lia].
  - rewrite unit_at_miss.
    2:{ intros E. simplify_eq.
        destruct (unique_start_idx_inj k tb k ta) as [? ?]; done. }
    destruct (decide (ta < tb)%nat) as [Hlt|Hge].
    + rewrite (sumZ_single _ _ tb).
      * by rewrite unit_at_hit.
      * apply NoDup_seq.
      * apply elem_of_range_from. lia.
      * intros t2 Ht2 Hne2. apply elem_of_range_from in Ht2.
        apply unit_at_miss. intros E. simplify_eq.
        destruct (unique_start_idx_inj k tb k t2) as [? ?]; first [done|lia].
    + rewrite sumZ_zero; [done|].
      intros t2 Ht2. apply elem_of_range_from in Ht2.
      apply unit_at_miss. intros E. simplify_eq.
      destruct (unique_start_idx_inj k tb k t2) as [? ?]; first [done|lia].
Qed.

(** Entries that are not an (earlier slot, later slot) position of a task. *)
Lemma unique_start_contribution_elsewhere i j :
  (forall k t1 t2, (k < num_tasks)%nat -> (t1 <= t2 < T_max)%nat ->
     (i, j) <> (idx_of var_index k t1, idx_of var_index k t2)) ->
  unique_start_contribution var_index num_tasks T_max penalty i j = 0.
Proof.
  intros Hmiss. unfold unique_start_contribution.
  apply sumZ_zero. intros k Hk. apply elem_of_range in Hk.
  apply sumZ_zero. intros t1 Ht1. apply elem_of_range in Ht1.
  unfold unique_start_slot.
  rewrite unit_at_miss, sumZ_zero; [done| |].
  - intros t2 Ht2. apply elem_of_range_from in Ht2.
    apply unit_at_miss, Hmiss; [done|lia].
  - apply Hmiss; [done|lia].
Qed.
End UniqueStart.

(** C3.  On a square array and a total, in-range, injective variable index,
    [apply_unique_start_constraint] returns; it subtracts [penalty] from the
    diagonal entry of every candidate (task, slot); it adds [penalty] to the
    entry at (earlier slot, later slot) of every pair of distinct slots of
    one task and leaves the mirrored entry alone; every other entry is
    unchanged. *)
Theorem unique_start_entries n var_index num_tasks T_max penalty M :
  square n M ->
  index_total var_index (range num_tasks) T_max ->
  index_in_range n var_index ->
  index_injective var_index ->
  exists M',
    apply_unique_start_constraint M var_index num_tasks T_max penalty = Ok M' /\
    square n M' /\
    (forall k t i, (k < num_tasks)%nat -> (t < T_max)%nat ->
       var_index !! (k, t) = Some i ->
       coef M' i i = coef M i i - penalty) /\
    (forall k t1 t2 i1 i2, (k < num_tasks)%nat -> (t1 < t2)%nat -> (t2 < T_max)%nat ->
       var_index !! (k, t1) = Some i1 -> var_index !! (k, t2) = Some i2 ->
       coef M' i1 i2 = coef M i1 i2 + penalty /\ coef M' i2 i1 = coef M i2 i1) /\
    (forall i j, (i < n)%nat -> (j < n)%nat ->
       (forall k t1 t2, (k < num_tasks)%nat -> (t1 <= t2 < T_max)%nat ->
          ~ (var_index !! (k, t1) = Some i /\ var_index !! (k, t2) = Some j)) ->
       coef M' i j = coef M i j).
Proof.
  intros HM Htot Hrange Hinj.
  destruct (contributes_unique_start n var_index num_tasks T_max penalty Htot Hrange M HM)
    as (M' & HM' & Hsq & Hadd).
  exists M'. split; [done|]. split; [done|].
  assert (Hlook : forall k t i, (k < num_tasks)%nat -> (t < T_max)%nat ->
            var_index !! (k, t) = Some i -> i = idx_of var_index k t /\ (i < n)%nat).
  { intros k t i Hk Ht Hi. split; [unfold idx_of; by rewrite Hi|].
    by eapply index_in_range_lookup. }
  split; [|split].
  - intros k t i Hk Ht Hi. destruct (Hlook k t i Hk Ht Hi) as [-> Hlt].
    rewrite Hadd by done.
    rewrite unique_start_contribution_same_task by done.
    rewrite decide_True by done. lia.
  - intros k t1 t2 i1 i2 Hk Hlt Ht2 Hi1 Hi2.
    destruct (Hlook k t1 i1 Hk ltac:(lia) Hi1) as [-> Hlt1].
    destruct (Hlook k t2 i2 Hk Ht2 Hi2) as [-> Hlt2].
    rewrite !Hadd by done.
    rewrite !unique_start_contribution_same_task by first [done|lia].
    rewrite (decide_False (P := t1 = t2)) by lia.
    rewrite (decide_True (P := (t1 < t2)%nat)) by lia.
    rewrite (decide_False (P := t2 = t1)) by lia.
    rewrite (decide_False (P := (t2 < t1)%nat)) by lia.
    lia.
  - intros i j Hi Hj Hmiss. rewrite Hadd by done.
    rewrite unique_start_contribution_elsewhere; [lia|].
    intros k t1 t2 Hk Ht E. simplify_eq.
    apply (Hmiss k t1 t2 Hk Ht).
    split; apply (unique_start_lookup _ num_tasks T_max Htot); first [done|lia].
Qed.

Lemma unique_start_entries_witness :
  exists M',
    apply_unique_start_constraint (zeros 4) example_index 2 2 10 = Ok M' /\
    coef M' 0 0 = - 10 /\ coef M' 0 1 = 10 /\ coef M' 1 0 = 0 /\ coef M' 0 2 = 0.
Proof.
  destruct (unique_start_entries 4 example_index 2 2 10 (zeros 4))
    as (M' & HM' & _ & Hdiag & Hpair & Helse); [compute_done..|].
  exists M'. split; [exact HM'|].
  split; [|split; [|split]].
  - apply (Hdiag 0%nat 0%nat 0%nat); [lia|lia|reflexivity].
  - apply (Hpair 0%nat 0%nat 1%nat 0%nat 1%nat); [lia|lia|lia|reflexivity|reflexivity].
  - apply (Hpair 0%nat 0%nat 1%nat 0%nat 1%nat); [lia|lia|lia|reflexivity|reflexivity].
  - apply (Helse 0%nat 2%nat); [lia|lia|].
    intros k t1 t2 Hk Ht [H1 H2].
    assert (k = 0 \/ k = 1)%nat as [-> | ->] by lia;
      assert (t1 = 0 \/ t1 = 1)%nat as [-> | ->] by lia;
      assert (t2 = 0 \/ t2 = 1)%nat as [-> | ->] by lia;
      vm_compute in H1, H2; discriminate.
Defined.

(** C9.  On a variable index that gives distinct candidates distinct
    variables, and a task map whose keys are distinct (as the keys of a
    dictionary are), applying the four builders to the zero matrix in any
    order gives the same outcome as the order of the source: the same final
    matrix when it returns, and an exception exactly when the source order
    raises one.  The variable index has to be injective because NumPy
    accumulates in float64, where addition is commutative but not
    associative: on such an index a diagonal entry is written by the
    unique-start and the makespan pass only, once each, an entry of two
    slots of one task by the unique-start pass only, once, and an entry of
    two tasks by the machine-conflict and the precedence pass only, once
    each; two increments from zero commute. *)
Theorem build_qubo_order_irrelevant cfg num_vars var_index task_map num_tasks T_max order :
  index_injective var_index ->
  NoDup (map fst task_map) ->
  Permutation order source_order ->
  returned (build_qubo cfg num_vars var_index task_map num_tasks T_max order) =
  returned (build_qubo cfg num_vars var_index task_map num_tasks T_max source_order).
Proof.
  intros _ _ Hperm. unfold build_qubo.
  apply (for_each_permutation num_vars); [|done|apply square_zeros].
  intros b. apply additive_apply_builder.
Qed.

Lemma build_qubo_order_irrelevant_witness :
  index_injective example_index /\
  NoDup (map fst example_tasks) /\
  returned (build_qubo example_config 4 example_index example_tasks 2 2
              [Makespan; Precedence; MachineConflict; UniqueStart]) =
  Some [[-8; 10; 5; 12]; [0; -7; 5; 5]; [0; 0; -9; 10]; [0; 0; 0; -8]].
Proof.
  split; [compute_done|]. split; [compute_done|].
  rewrite (build_qubo_order_irrelevant example_config 4 example_index example_tasks 2 2
             [Makespan; Precedence; MachineConflict; UniqueStart]).
  - reflexivity.
  - compute_done.
  - compute_done.
  - compute_done.
Defined.

(** ** The makespan pass *)

Section MakespanObjective.
Context (n : nat) (var_index : gmap (nat * nat) nat) (task_map : task_dict)
        (num_tasks T_max : nat) (weight : Z).
Hypothesis Htotal : index_total var_index (range num_tasks) T_max.
Hypothesis Hrange : index_in_range n var_index.
Hypothesis Htasks : tasks_defined task_map num_tasks.

Lemma contributes_makespan :
  contributes n
    (fun M => apply_makespan_objective M var_index task_map num_tasks T_max weight)
    (makespan_contribution var_index task_map num_tasks T_max weight).
Proof.
  unfold apply_makespan_objective, makespan_contribution.
  apply (contributes_for_each n (range num_tasks) _
           (fun k i j => sumZ (fun t =>
              unit_at (idx_of var_index k t) (idx_of var_index k t)
                (weight * (Z.of_nat t + duration_of task_map k)) i j) (range T_max))).
  intros k Hk. cbv beta.
  unfold tasks_defined in Htasks. rewrite Forall_forall in Htasks.
  destruct (Htasks k Hk) as [[[[j1 o1] m1] d] Hd].
  unfold dict_subscript, duration_of. rewrite Hd. simpl.
  apply (contributes_for_each n (range T_max) _
           (fun t => unit_at (idx_of var_index k t) (idx_of var_index k t)
                       (weight * (Z.of_nat t + d)))).
  intros t Ht. apply elem_of_range in Ht. cbv beta.
  destruct (index_total_lookup _ _ _ k t Htotal Hk Ht) as (i & Hi & Ei).
  rewrite (subscript_lookup _ _ _ Hi), Ei. simpl.
  apply contributes_add_at; by eapply index_in_range_lookup.
Qed.

Lemma makespan_contribution_off_diagonal i j :
  i <> j -> makespan_contribution var_index task_map num_tasks T_max weight i j = 0.
Proof.
  intros Hne. unfold makespan_contribution.
  apply sumZ_zero; intros k _. apply sumZ_zero; intros t _.
  apply unit_at_miss. congruence.
Qed.

Lemma makespan_contribution_elsewhere i :
  (forall k t, (k < num_tasks)%nat -> (t < T_max)%nat -> i <> idx_of var_index k t) ->
  makespan_contribution var_index task_map num_tasks T_max weight i i = 0.
Proof.
  intros Hmiss. unfold makespan_contribution.
  apply sumZ_zero; intros k Hk. apply sumZ_zero; intros t Ht.
  apply elem_of_range in Hk, Ht.
  apply unit_at_miss. intros E. simplify_eq. by eapply Hmiss.
Qed.

Hypothesis Hinj : index_injective var_index.

Lemma makespan_contribution_diagonal k t :
  (k < num_tasks)%nat -> (t < T_max)%nat ->
  makespan_contribution var_index task_map num_tasks T_max weight
    (idx_of var_index k t) (idx_of var_index k t) =
  weight * (Z.of_nat t + duration_of task_map k).
Proof.
  intros Hk Ht. unfold makespan_contribution.
  rewrite (sumZ_single _ _ k); [|apply NoDup_range|by apply elem_of_range|].
  - rewrite (sumZ_single _ _ t); [|apply NoDup_range|by apply elem_of_range|].
    + apply unit_at_hit.
    + intros t' Ht' Hne. apply elem_of_range in Ht'.
      apply unit_at_miss. intros E. simplify_eq.
      destruct (unique_start_idx_inj var_index num_tasks T_max Htotal Hinj k t k t');
        done.
  - intros k' Hk' Hne. apply elem_of_range in Hk'.
    apply sumZ_zero. intros t' Ht'. apply elem_of_range in Ht'.
    apply unit_at_miss. intros E. simplify_eq.
    destruct (unique_start_idx_inj var_index num_tasks T_max Htotal Hinj k t k' t');
      done.
Qed.
End MakespanObjective.

(** C6.  On a square array, a total, in-range, injective variable index and
    a task map holding every task, [apply_makespan_objective] returns; it
    adds [weight * (t + duration)] to the diagonal entry of every candidate
    (task, start time), and changes no off-diagonal entry and no other
    diagonal entry. *)
Theorem makespan_entries n var_index task_map num_tasks T_max weight M :
  square n M ->
  index_total var_index (range num_tasks) T_max ->
  index_in_range n var_index ->
  index_injective var_index ->
  tasks_defined task_map num_tasks ->
  exists M',
    apply_makespan_objective M var_index task_map num_tasks T_max weight = Ok M' /\
    square n M' /\
    (forall k t i job_id op m d, (k < num_tasks)%nat -> (t < T_max)%nat ->
       var_index !! (k, t) = Some i ->
       dict_lookup task_map k = Some (job_id, op, m, d) ->
       coef M' i i = coef M i i + weight * (Z.of_nat t + d)) /\
    (forall i j, i <> j -> coef M' i j = coef M i j) /\
    (forall i, (forall k t, (k < num_tasks)%nat -> (t < T_max)%nat ->
                  var_index !! (k, t) <> Some i) ->
       coef M' i i = coef M i i).
Proof.
  intros HM Htot Hrange Hinj Htasks.
  destruct (contributes_makespan n var_index task_map num_tasks T_max weight
              Htot Hrange Htasks M HM) as (M' & HM' & Hsq & Hadd).
  assert (Hout : forall i j, ~ ((i < n)%nat /\ (j < n)%nat) -> coef M' i j = coef M i j).
  { intros i j Hout. unfold coef.
    destruct (mget M' i j) as [x|] eqn:E'; destruct (mget M i j) as [y|] eqn:E; simpl.
    - exfalso. apply Hout. apply (mget_in_range n M i j y HM E).
    - exfalso. apply Hout. apply (mget_in_range n M' i j x Hsq E').
    - exfalso. apply Hout. apply (mget_in_range n M i j y HM E).
    - done. }
  exists M'. split; [done|]. split; [done|]. split; [|split].
  - intros k t i job_id op m d Hk Ht Hi Hd.
    assert (i = idx_of var_index k t) as -> by (unfold idx_of; by rewrite Hi).
    pose proof (index_in_range_lookup _ _ _ _ Hrange Hi) as Hlt.
    rewrite Hadd by done.
    rewrite makespan_contribution_diagonal by done.
    unfold duration_of. by rewrite Hd.
  - intros i j Hne.
    destruct (decide ((i < n)%nat /\ (j < n)%nat)) as [[Hi Hj]|Hout'].
    + rewrite Hadd by done. rewrite makespan_contribution_off_diagonal by done. lia.
    + by apply Hout.
  - intros i Hmiss.
    destruct (decide (i < n)%nat) as [Hi|Hi]; [|apply Hout; lia].
    rewrite Hadd by done. rewrite makespan_contribution_elsewhere; [lia|].
    intros k t Hk Ht ->. apply (Hmiss k t Hk Ht).
    by apply (unique_start_lookup _ num_tasks T_max Htot).
Qed.

Lemma makespan_entries_witness :
  exists M',
    apply_makespan_objective (zeros 4) example_index example_tasks 2 2 3 = Ok M' /\
    coef M' 1 1 = 9 /\ coef M' 2 2 = 3 /\ coef M' 1 2 = 0.
Proof.
  destruct (makespan_entries 4 example_index example_tasks 2 2 3 (zeros 4))
    as (M' & HM' & _ & Hdiag & Hoff & _); [compute_done..|].
  exists M'. split; [exact HM'|]. split; [|split].
  - apply (Hdiag 0%nat 1%nat 1%nat 0 0 0 2); [lia|lia|reflexivity|reflexivity].
  - apply (Hdiag 1%nat 0%nat 2%nat 0 1 0 1); [lia|lia|reflexivity|reflexivity].
  - apply (Hoff 1%nat 2%nat). lia.
Defined.

(** ** The machine-conflict pass *)

Lemma idx_of_lookup var_index k t :
  is_Some (var_index !! (k, t)) -> var_index !! (k, t) = Some (idx_of var_index k t).
Proof. intros [i Hi]. unfold idx_of. by rewrite Hi. Qed.

Lemma idx_of_inj var_index k t k' t' :
  index_injective var_index ->
  is_Some (var_index !! (k, t)) -> is_Some (var_index !! (k', t')) ->
  idx_of var_index k t = idx_of var_index k' t' -> k = k' /\ t = t'.
Proof.
  intros Hinj H1 H2 Heq.
  apply idx_of_lookup in H1, H2. rewrite Heq in H1.
  pose proof (index_injective_lookup _ _ _ _ Hinj H1 H2). by simplify_eq.
Qed.

Lemma index_total_is_Some var_index tasks T_max k t :
  index_total var_index tasks T_max -> k ∈ tasks -> (t < T_max)%nat ->
  is_Some (var_index !! (k, t)).
Proof.
  intros Htot Hk Ht.
  destruct (index_total_lookup _ _ _ k t Htot Hk Ht) as (i & Hi & _). by exists i.
Qed.

Lemma NoDup_keys_eq {V} (d : list (nat * V)) k v v' :
  NoDup (map fst d) -> (k, v) ∈ d -> (k, v') ∈ d -> v = v'.
Proof.
  intros Hnd H1 H2.
  apply list_elem_of_lookup in H1 as [a Ha], H2 as [b Hb].
  assert (a = b) as ->.
  { eapply NoDup_lookup; [exact Hnd| |].
    - rewrite list_lookup_fmap, Ha. done.
    - rewrite list_lookup_fmap, Hb. done. }
  congruence.
Qed.

Lemma NoDup_keys_NoDup {V} (d : list (nat * V)) : NoDup (map fst d) -> NoDup d.
Proof. apply NoDup_fmap_1. Qed.

Section MachineConflict.
Context (n : nat) (var_index : gmap (nat * nat) nat) (task_map : task_dict)
        (T_max : nat) (penalty : Z).
Hypothesis Htotal : index_total var_index (map fst task_map) T_max.
Hypothesis Hrange : index_in_range n var_index.

Lemma machine_conflict_key k info : (k, info) ∈ task_map -> k ∈ map fst task_map.
Proof. intros Hin. apply list_elem_of_fmap. by exists (k, info). Qed.

Lemma contributes_machine_conflict :
  contributes n
    (fun M => apply_machine_conflict_constraint M var_index task_map T_max penalty)
    (machine_conflict_contribution var_index task_map T_max penalty).
Proof.
  unfold apply_machine_conflict_constraint.
  apply (contributes_for_each n task_map _
           (fun x1 i j => sumZ (fun x2 =>
              machine_conflict_pair var_index T_max penalty x1 x2 i j) task_map)).
  intros [k1 [[[j1 o1] m1] d1]] Hx1.
  apply (contributes_for_each n task_map _
           (machine_conflict_pair var_index T_max penalty (k1, (j1, o1, m1, d1)))).
  intros [k2 [[[j2 o2] m2] d2]] Hx2. unfold machine_conflict_pair. cbv beta iota.
  destruct (k1 =? k2)%nat; [apply contributes_ret|].
  destruct (negb (m1 =? m2)); [apply contributes_ret|].
  apply machine_conflict_key in Hx1, Hx2. unfold machine_conflict_slots.
  apply (contributes_for_each n (range T_max) _
           (fun t1 i j => sumZ (fun t2 =>
              if (0 <? Z.of_nat t2 - Z.of_nat t1) && (Z.of_nat t2 - Z.of_nat t1 <? d1)
              then unit_at (idx_of var_index k1 t1) (idx_of var_index k2 t2) penalty i j
              else 0) (range T_max))).
  intros t1 Ht1. apply elem_of_range in Ht1.
  apply (contributes_for_each n (range T_max) _
           (fun t2 i j =>
              if (0 <? Z.of_nat t2 - Z.of_nat t1) && (Z.of_nat t2 - Z.of_nat t1 <? d1)
              then unit_at (idx_of var_index k1 t1) (idx_of var_index k2 t2) penalty i j
              else 0)).
  intros t2 Ht2. apply elem_of_range in Ht2. cbv beta.
  destruct (_ && _); [|apply contributes_ret].
  destruct (index_total_lookup _ _ _ k1 t1 Htotal Hx1 Ht1) as (i1 & Hi1 & Ei1).
  destruct (index_total_lookup _ _ _ k2 t2 Htotal Hx2 Ht2) as (i2 & Hi2 & Ei2).
  rewrite (subscript_lookup _ _ _ Hi1), (subscript_lookup _ _ _ Hi2), Ei1, Ei2. simpl.
  apply contributes_add_at; by eapply index_in_range_lookup.
Qed.

Lemma machine_conflict_contribution_elsewhere i j :
  (forall k1 k2 t1 t2, k1 ∈ map fst task_map -> k2 ∈ map fst task_map ->
     (t1 < T_max)%nat -> (t2 < T_max)%nat ->
     (i, j) <> (idx_of var_index k1 t1, idx_of var_index k2 t2)) ->
  machine_conflict_contribution var_index task_map T_max penalty i j = 0.
Proof.
  intros Hmiss. unfold machine_conflict_contribution.
  apply sumZ_zero. intros [k1 [[[j1 o1] m1] d1]] Hx1.
  apply sumZ_zero. intros [k2 [[[j2 o2] m2] d2]] Hx2. simpl.
  destruct (k1 =? k2)%nat; [done|]. destruct (negb (m1 =? m2)); [done|].
  apply machine_conflict_key in Hx1, Hx2.
  apply sumZ_zero. intros t1 Ht1. apply sumZ_zero. intros t2 Ht2.
  apply elem_of_range in Ht1, Ht2.
  destruct (_ && _); [|done]. by apply unit_at_miss, Hmiss.
Qed.

Hypothesis Hinj : index_injective var_index.
Hypothesis Hkeys : NoDup (map fst task_map).

Lemma machine_conflict_slots_value k1 d1 k2 ka ta kb tb :
  k1 ∈ map fst task_map -> k2 ∈ map fst task_map ->
  ka ∈ map fst task_map -> kb ∈ map fst task_map ->
  (ta < T_max)%nat -> (tb < T_max)%nat ->
  machine_conflict_slots var_index T_max penalty k1 d1 k2
    (idx_of var_index ka ta) (idx_of var_index kb tb) =
  if decide (k1 = ka /\ k2 = kb /\ 0 < Z.of_nat tb - Z.of_nat ta < d1)
  then penalty else 0.
Proof.
  intros H1 H2 Ha Hb Hta Htb. unfold machine_conflict_slots.
  assert (Hmiss : forall t1 t2, (t1 < T_max)%nat -> (t2 < T_max)%nat ->
            ~ (k1 = ka /\ t1 = ta /\ k2 = kb /\ t2 = tb) ->
            unit_at (idx_of var_index k1 t1) (idx_of var_index k2 t2) penalty
              (idx_of var_index ka ta) (idx_of var_index kb tb) = 0).
  { intros t1 t2 Ht1 Ht2 Hne. apply unit_at_miss. intros E. simplify_eq.
    apply Hne.
    destruct (idx_of_inj var_index ka ta k1 t1) as [? ?];
      [done|by eapply index_total_is_Some..|done|].
    destruct (idx_of_inj var_index kb tb k2 t2) as [? ?];
      [done|by eapply index_total_is_Some..|done|].
    done. }
  destruct (decide (k1 = ka /\ k2 = kb)) as [[-> ->]|Hk].
  - rewrite (sumZ_single _ _ ta); [|apply NoDup_range|by apply elem_of_range|].
    + rewrite (sumZ_single _ _ tb); [|apply NoDup_range|by apply elem_of_range|].
      * rewrite unit_at_hit.
        destruct (decide _) as [Hc|Hc];
          destruct (0 <? _) eqn:E1; destruct (_ <? d1) eqn:E2; simpl; try done; lia.
      * intros t2 Ht2 Hne. apply elem_of_range in Ht2.
        destruct (_ && _); [|done]. apply Hmiss; [done..|]. tauto.
    + intros t1 Ht1 Hne. apply elem_of_range in Ht1.
      apply sumZ_zero. intros t2 Ht2. apply elem_of_range in Ht2.
      destruct (_ && _); [|done]. apply Hmiss; [done..|]. tauto.
  - rewrite decide_False by tauto.
    apply sumZ_zero. intros t1 Ht1. apply sumZ_zero. intros t2 Ht2.
    apply elem_of_range in Ht1, Ht2.
    destruct (_ && _); [|done]. apply Hmiss; [done..|]. tauto.
Qed.

Lemma machine_conflict_contribution_value ka ja oa ma da kb jb ob mb db ta tb :
  (ka, (ja, oa, ma, da)) ∈ task_map -> (kb, (jb, ob, mb, db)) ∈ task_map ->
  (ta < T_max)%nat -> (tb < T_max)%nat ->
  machine_conflict_contribution var_index task_map T_max penalty
    (idx_of var_index ka ta) (idx_of var_index kb tb) =
  if decide (ka <> kb /\ ma = mb /\ 0 < Z.of_nat tb - Z.of_nat ta < da)
  then penalty else 0.
Proof.
  intros Ha Hb Hta Htb. unfold machine_conflict_contribution.
  pose proof (machine_conflict_key _ _ Ha) as Hka.
  pose proof (machine_conflict_key _ _ Hb) as Hkb.
  assert (Hother : forall k1 j1 o1 m1 d1 k2 j2 o2 m2 d2,
            (k1, (j1, o1, m1, d1)) ∈ task_map -> (k2, (j2, o2, m2, d2)) ∈ task_map ->
            ~ (k1 = ka /\ k2 = kb) ->
            machine_conflict_pair var_index T_max penalty
              (k1, (j1, o1, m1, d1)) (k2, (j2, o2, m2, d2))
              (idx_of var_index ka ta) (idx_of var_index kb tb) = 0).
  { intros k1 j1 o1 m1 d1 k2 j2 o2 m2 d2 H1 H2 Hne. simpl.
    destruct (k1 =? k2)%nat; [done|]. destruct (negb (m1 =? m2)); [done|].
    rewrite machine_conflict_slots_value;
      [|by eapply machine_conflict_key..|done|done|done|done].
    rewrite decide_False; [done|tauto]. }
  rewrite (sumZ_single _ _ (ka, (ja, oa, ma, da)));
    [|by apply NoDup_keys_NoDup|done|].
  - rewrite (sumZ_single _ _ (kb, (jb, ob, mb, db)));
      [|by apply NoDup_keys_NoDup|done|].
    + simpl. destruct (ka =? kb)%nat eqn:Ek.
      { apply Nat.eqb_eq in Ek. rewrite decide_False; [done|tauto]. }
      apply Nat.eqb_neq in Ek.
      destruct (ma =? mb) eqn:Em; simpl.
      * apply Z.eqb_eq in Em.
        rewrite machine_conflict_slots_value by done.
        destruct (decide (ka = ka /\ _)) as [Hc|Hc];
          destruct (decide (ka <> kb /\ _)) as [Hc'|Hc']; try done; tauto.
      * apply Z.eqb_neq in Em. rewrite decide_False; [done|tauto].
    + intros [k2 [[[j2 o2] m2] d2]] H2 Hne.
      apply Hother; [done..|]. intros [_ ->]. apply Hne. f_equal.
      by eapply NoDup_keys_eq.
  - intros [k1 [[[j1 o1] m1] d1]] H1 Hne.
    apply sumZ_zero. intros [k2 [[[j2 o2] m2] d2]] H2.
    apply Hother; [done..|]. intros [-> _]. apply Hne. f_equal.
    by eapply NoDup_keys_eq.
Qed.
End MachineConflict.

(** C4.  On a square array, a task map with distinct keys and a variable
    index that is total on its tasks, in range and injective,
    [apply_machine_conflict_constraint] returns.  For tasks [k1] (of
    duration [d1]) and [k2] and start times [t1], [t2], the entry at
    (variable of (k1, t1), variable of (k2, t2)) gains exactly [penalty] when
    the tasks are distinct, on the same machine and [0 < t2 - t1 < d1], and
    gains nothing otherwise; entries that are not such a pair are unchanged. *)
Theorem machine_conflict_entries n var_index task_map T_max penalty M :
  square n M ->
  index_total var_index (map fst task_map) T_max ->
  index_in_range n var_index ->
  index_injective var_index ->
  NoDup (map fst task_map) ->
  exists M',
    apply_machine_conflict_constraint M var_index task_map T_max penalty = Ok M' /\
    square n M' /\
    (forall k1 j1 o1 m1 d1 k2 j2 o2 m2 d2 t1 t2 i1 i2,
       (k1, (j1, o1, m1, d1)) ∈ task_map -> (k2, (j2, o2, m2, d2)) ∈ task_map ->
       (t1 < T_max)%nat -> (t2 < T_max)%nat ->
       var_index !! (k1, t1) = Some i1 -> var_index !! (k2, t2) = Some i2 ->
       coef M' i1 i2 =
       coef M i1 i2 +
       if decide (k1 <> k2 /\ m1 = m2 /\ 0 < Z.of_nat t2 - Z.of_nat t1 < d1)
       then penalty else 0) /\
    (forall i j,
       (forall k1 k2 t1 t2, k1 ∈ map fst task_map -> k2 ∈ map fst task_map ->
          (t1 < T_max)%nat -> (t2 < T_max)%nat ->
          ~ (var_index !! (k1, t1) = Some i /\ var_index !! (k2, t2) = Some j)) ->
       coef M' i j = coef M i j).
Proof.
  intros HM Htot Hrange Hinj Hkeys.
  destruct (contributes_machine_conflict n var_index task_map T_max penalty
              Htot Hrange M HM) as (M' & HM' & Hsq & Hadd).
  exists M'. split; [done|]. split; [done|]. split.
  - intros k1 j1 o1 m1 d1 k2 j2 o2 m2 d2 t1 t2 i1 i2 H1 H2 Ht1 Ht2 Hi1 Hi2.
    assert (i1 = idx_of var_index k1 t1) as -> by (unfold idx_of; by rewrite Hi1).
    assert (i2 = idx_of var_index k2 t2) as -> by (unfold idx_of; by rewrite Hi2).
    rewrite Hadd by (by eapply index_in_range_lookup).
    by rewrite (machine_conflict_contribution_value var_index task_map T_max penalty
                  Htot Hinj Hkeys k1 j1 o1 m1 d1 k2 j2 o2 m2 d2).
  - intros i j Hmiss.
    destruct (decide ((i < n)%nat /\ (j < n)%nat)) as [[Hi Hj]|Hout].
    + rewrite Hadd by done.
      rewrite machine_conflict_contribution_elsewhere; [lia|].
      intros k1 k2 t1 t2 Hk1 Hk2 Ht1 Ht2 E. simplify_eq.
      apply (Hmiss k1 k2 t1 t2); [done..|].
      split; apply idx_of_lookup; by eapply index_total_is_Some.
    + by rewrite !(coef_outside n).
Qed.

Lemma machine_conflict_entries_witness :
  exists M',
    apply_machine_conflict_constraint (zeros 4) example_index example_tasks 2 7 = Ok M' /\
    coef M' 0 3 = 7 /\ coef M' 3 0 = 0 /\ coef M' 0 1 = 0.
Proof.
  destruct (machine_conflict_entries 4 example_index example_tasks 2 7 (zeros 4))
    as (M' & HM' & _ & Hpair & _); [compute_done..|].
  exists M'. split; [exact HM'|]. split; [|split].
  - apply (Hpair 0%nat 0 0 0 2 1%nat 0 1 0 1 0%nat 1%nat 0%nat 3%nat);
      first [compute_done | lia].
  - apply (Hpair 1%nat 0 1 0 1 0%nat 0 0 0 2 1%nat 0%nat 3%nat 0%nat);
      first [compute_done | lia].
  - apply (Hpair 0%nat 0 0 0 2 0%nat 0 0 0 2 0%nat 1%nat 0%nat 1%nat);
      first [compute_done | lia].
Defined.

(** ** Grouping *)

Section Grouping.
Context {A V : Type} (key : A -> Z) (val : A -> V).

Lemma group_append_keys (g : list (Z * list V)) k v :
  map fst (group_append g k v) =
  if decide (k ∈ map fst g) then map fst g else map fst g ++ [k].
Proof.
  induction g as [|[j vs] g IH].
  - simpl. by destruct (decide (k ∈ [])) as [?%elem_of_nil|].
  - cbn [group_append]. destruct (j =? k) eqn:E.
    + apply Z.eqb_eq in E as ->. rewrite decide_True; [done|]. set_solver.
    + apply Z.eqb_neq in E. cbn [map fst]. rewrite IH.
      destruct (decide (k ∈ map fst g)).
      * rewrite decide_True; [done|]. set_solver.
      * rewrite decide_False; [done|]. set_solver.
Qed.

Lemma group_append_NoDup (g : list (Z * list V)) k v :
  NoDup (map fst g) -> NoDup (map fst (group_append g k v)).
Proof.
  intros Hnd. rewrite group_append_keys. destruct (decide _); [done|].
  apply NoDup_app. split; [done|]. split; [|apply NoDup_singleton].
  intros x Hx ->%list_elem_of_singleton. done.
Qed.

Lemma group_append_concat (g : list (Z * list V)) k v :
  concat (map snd (group_append g k v)) ≡ₚ v :: concat (map snd g).
Proof.
  induction g as [|[j vs] g IH]; simpl; [done|].
  destruct (j =? k); simpl.
  - rewrite <- app_assoc. simpl. symmetry. apply Permutation_middle.
  - rewrite IH. symmetry. apply Permutation_middle.
Qed.

Lemma group_append_elem (g : list (Z * list V)) k v j vs :
  NoDup (map fst g) -> (j, vs) ∈ group_append g k v ->
  (j <> k /\ (j, vs) ∈ g) \/
  (j = k /\ ((exists vs0, (k, vs0) ∈ g /\ vs = vs0 ++ [v]) \/
             ((k ∉ map fst g) /\ vs = [v]))).
Proof.
  induction g as [|[j0 vs0] g IH]; simpl; intros Hnd Hin.
  - apply list_elem_of_singleton in Hin. simplify_eq.
    right. split; [done|]. right. split; [|done]. by intros ?%elem_of_nil.
  - apply NoDup_cons in Hnd as [Hj0 Hnd].
    destruct (j0 =? k) eqn:E.
    + apply Z.eqb_eq in E as ->.
      apply elem_of_cons in Hin as [Hin|Hin].
      * simplify_eq. right. split; [done|]. left. exists vs0. set_solver.
      * left. split; [|set_solver]. intros ->. apply Hj0.
        apply list_elem_of_fmap. by exists (k, vs).
    + apply Z.eqb_neq in E.
      apply elem_of_cons in Hin as [Hin|Hin].
      * simplify_eq. left. set_solver.
      * destruct (IH Hnd Hin) as [[Hne Hg]|[-> [(vs1 & Hg & ->)|[Hk ->]]]].
        -- left. set_solver.
        -- right. split; [done|]. left. exists vs1. set_solver.
        -- right. split; [done|]. right. split; [|done]. set_solver.
Qed.

Lemma group_append_has_key (g : list (Z * list V)) k v :
  k ∈ map fst (group_append g k v).
Proof. rewrite group_append_keys. destruct (decide _); set_solver. Qed.

Lemma group_append_keeps_keys (g : list (Z * list V)) k v j :
  j ∈ map fst g -> j ∈ map fst (group_append g k v).
Proof. rewrite group_append_keys. destruct (decide _); set_solver. Qed.

Lemma grouped_nil : grouped key val [] [].
Proof.
  split; [constructor|]. split; [by intros x ?%elem_of_nil|].
  by intros j vs ?%elem_of_nil.
Qed.

Lemma grouped_step l g x :
  grouped key val l g -> grouped key val (l ++ [x]) (group_append g (key x) (val x)).
Proof.
  intros (Hnd & Hall & Hgroups). split; [by apply group_append_NoDup|]. split.
  - intros y [Hy|Hy]%elem_of_app.
    + by apply group_append_keeps_keys, Hall.
    + apply list_elem_of_singleton in Hy as ->. apply group_append_has_key.
  - intros j vs Hin. rewrite filter_app, map_app.
    destruct (group_append_elem g _ _ j vs Hnd Hin)
      as [[Hne Hg]|[-> [(vs0 & Hg & ->)|[Hk ->]]]].
    + destruct (Hgroups j vs Hg) as [Hnil ->]. split; [done|].
      rewrite (filter_cons_False _ x) by done. simpl. by rewrite app_nil_r.
    + destruct (Hgroups _ vs0 Hg) as [Hnil ->]. split; [by intros [_ ?]%app_eq_nil|].
      by rewrite (filter_cons_True _ x).
    + split; [done|]. rewrite (filter_cons_True _ x) by done. simpl.
      assert (filter (fun y => key y = key x) l = []) as ->; [|done].
      apply elem_of_nil_inv. intros y [Hy Hyl]%list_elem_of_filter.
      apply Hk. rewrite <- Hy. by apply Hall.
Qed.

Lemma grouped_fold l pre g :
  grouped key val pre g -> grouped key val (pre ++ l) (group_by key val l g).
Proof.
  revert pre g. induction l as [|x l IH]; intros pre g Hg; simpl.
  - by rewrite app_nil_r.
  - replace (pre ++ x :: l) with ((pre ++ [x]) ++ l) by (by rewrite <- app_assoc).
    apply IH. by apply grouped_step.
Qed.

Lemma group_by_grouped l : grouped key val l (group_by key val l []).
Proof. apply (grouped_fold l [] []), grouped_nil. Qed.

Lemma group_by_concat l g :
  concat (map snd (group_by key val l g)) ≡ₚ concat (map snd g) ++ map val l.
Proof.
  revert g. induction l as [|x l IH]; intros g; simpl.
  - by rewrite app_nil_r.
  - change (group_by key val (x :: l) g)
      with (group_by key val l (group_append g (key x) (val x))).
    rewrite IH, group_append_concat. simpl. apply Permutation_middle.
Qed.
End Grouping.

(** ** Sorting *)

Section SortingFacts.
Context {A : Type} (leb : A -> A -> bool).

Lemma insert_sorted_perm x l : insert_sorted leb x l ≡ₚ x :: l.
Proof.
  induction l as [|y l IH]; simpl; [done|].
  destruct (leb x y); [done|]. rewrite IH. apply perm_swap.
Qed.

Lemma sort_with_perm l : sort_with leb l ≡ₚ l.
Proof.
  induction l as [|x l IH]; simpl; [done|].
  by rewrite insert_sorted_perm, IH.
Qed.

Lemma sort_with_length l : length (sort_with leb l) = length l.
Proof. by rewrite sort_with_perm. Qed.

Hypothesis leb_total : forall a b, leb a b = true \/ leb b a = true.

Lemma insert_sorted_Sorted x l :
  Sorted (fun a b => leb a b = true) l ->
  Sorted (fun a b => leb a b = true) (insert_sorted leb x l).
Proof.
  induction l as [|y l IH]; simpl; intros Hs.
  - by repeat constructor.
  - destruct (leb x y) eqn:E.
    + constructor; [done|]. by constructor.
    + apply Sorted_inv in Hs as [Hs Hhd]. constructor; [by apply IH|].
      destruct l as [|z l]; simpl.
      * constructor. destruct (leb_total x y); congruence.
      * destruct (leb x z).
        -- constructor. destruct (leb_total x y); congruence.
        -- constructor. by apply HdRel_inv in Hhd.
Qed.

Lemma sort_with_Sorted l : Sorted (fun a b => leb a b = true) (sort_with leb l).
Proof.
  induction l as [|x l IH]; simpl; [constructor|].
  by apply insert_sorted_Sorted.
Qed.
End SortingFacts.

Lemma Sorted_weaken {A} (R R' : A -> A -> Prop) l :
  (forall a b, R a b -> R' a b) -> Sorted R l -> Sorted R' l.
Proof.
  intros HR Hs. induction Hs as [|a l Hs IH Hhd]; constructor; [done|].
  destruct Hhd; constructor. by apply HR.
Qed.

Lemma sorted_by_perm {A} (key : A -> Z) l : sorted_by key l ≡ₚ l.
Proof. apply sort_with_perm. Qed.

Lemma sorted_by_sorted {A} (key : A -> Z) l :
  StronglySorted (fun a b => key a <= key b) (sorted_by key l).
Proof.
  apply Sorted.Sorted_StronglySorted.
  { intros a b c. lia. }
  apply (Sorted_weaken (fun a b => (key a <=? key b) = true)).
  { intros a b. apply Z.leb_le. }
  apply (sort_with_Sorted (fun a b => key a <=? key b)).
  intros a b. destruct (Z.leb_spec (key a) (key b)); [by left|right].
  apply Z.leb_le. lia.
Qed.

Lemma sort_nat_sorted (l : list nat) :
  NoDup l -> StronglySorted lt (sort_with Nat.leb l).
Proof.
  intros Hnd.
  assert (Hle : StronglySorted le (sort_with Nat.leb l)).
  { apply Sorted.Sorted_StronglySorted.
    { intros a b c. lia. }
    apply (Sorted_weaken (fun a b => Nat.leb a b = true)).
    { intros a b. apply Nat.leb_le. }
    apply (sort_with_Sorted Nat.leb).
    intros a b. destruct (Nat.leb_spec a b); [by left|right].
    apply Nat.leb_le. lia. }
  assert (Hnd' : NoDup (sort_with Nat.leb l)) by (by rewrite sort_with_perm).
  induction Hle as [|a l' Hl' IH Hall]; [constructor|].
  apply NoDup_cons in Hnd' as [Ha Hnd']. constructor; [by apply IH|].
  rewrite Forall_forall in Hall. apply Forall_forall. intros b Hb.
  specialize (Hall b Hb). assert (a <> b) by (intros ->; done). lia.
Qed.

(** ** Neighbours *)

Lemma adjacent_cons {A} (x y : A) l : adjacent (x :: y :: l) = (x, y) :: adjacent (y :: l).
Proof. done. Qed.

Lemma adjacent_length {A} (l : list A) : length (adjacent l) = (length l - 1)%nat.
Proof.
  induction l as [|x [|y l] IH]; [done..|].
  rewrite adjacent_cons. simpl in *. lia.
Qed.

Lemma adjacent_lookup {A} (l : list A) i a b :
  adjacent l !! i = Some (a, b) <-> l !! i = Some a /\ l !! (i + 1)%nat = Some b.
Proof.
  revert i. induction l as [|x [|y l] IH]; intros i.
  - simpl. rewrite !lookup_nil. naive_solver.
  - destruct i; simpl; [naive_solver|]. rewrite !lookup_nil. naive_solver.
  - rewrite adjacent_cons. destruct i as [|i].
    + simpl. naive_solver.
    + change ((x :: y :: l) !! S i) with ((y :: l) !! i).
      change ((x :: y :: l) !! (S i + 1)%nat) with ((y :: l) !! (i + 1)%nat).
      apply IH.
Qed.

Lemma adjacent_elem_of {A} (l : list A) a b :
  (a, b) ∈ adjacent l <-> exists l1 l2, l = l1 ++ a :: b :: l2.
Proof.
  split.
  - intros [i Hi]%list_elem_of_lookup. apply adjacent_lookup in Hi as [Ha Hb].
    apply list_elem_of_split_length in Ha as (l1 & l' & -> & ->).
    exists l1. rewrite lookup_app_r in Hb by lia.
    replace (length l1 + 1 - length l1)%nat with 1%nat in Hb by lia.
    destruct l' as [|b' l2]; simplify_eq/=. by exists l2.
  - intros (l1 & l2 & ->). apply list_elem_of_lookup. exists (length l1).
    apply adjacent_lookup. split.
    + by rewrite list_lookup_middle.
    + rewrite lookup_app_r by lia.
      by replace (length l1 + 1 - length l1)%nat with 1%nat by lia.
Qed.

Lemma adjacent_fst_sublist {A} (l : list A) : map fst (adjacent l) `sublist_of` l.
Proof.
  induction l as [|x [|y l] IH]; [done| |].
  - simpl. by apply sublist_cons.
  - rewrite adjacent_cons. simpl. by apply sublist_skip.
Qed.

(** In a strictly increasing list the neighbours are the pairs with
    nothing in between. *)
Lemma adjacent_increasing (l : list nat) a b :
  StronglySorted lt l ->
  (a, b) ∈ adjacent l <->
  a ∈ l /\ b ∈ l /\ (a < b)%nat /\ forall c, c ∈ l -> ~ (a < c < b)%nat.
Proof.
  intros Hs. rewrite adjacent_elem_of. split.
  - intros (l1 & l2 & ->).
    apply StronglySorted_app in Hs as (H12 & H1 & H2).
    apply StronglySorted_cons in H2 as (Ha & H2).
    apply StronglySorted_cons in H2 as (Hb & H2).
    rewrite Forall_forall in Ha, Hb.
    split; [set_solver|]. split; [set_solver|].
    split; [apply Ha; set_solver|].
    intros c Hc Hbetween.
    apply elem_of_app in Hc as [Hc|Hc].
    + assert (c < a)%nat by (apply H12; set_solver). lia.
    + apply elem_of_cons in Hc as [->|Hc]; [lia|].
      apply elem_of_cons in Hc as [->|Hc]; [lia|].
      specialize (Hb c Hc). lia.
  - intros (Ha & Hb & Hlt & Hnone).
    apply list_elem_of_split in Ha as (l1 & l' & ->).
    apply StronglySorted_app in Hs as (H12 & H1 & H2).
    apply StronglySorted_cons in H2 as (Hal & H2).
    rewrite Forall_forall in Hal.
    assert (Hb' : b ∈ l').
    { apply elem_of_app in Hb as [Hb|Hb].
      - assert (b < a)%nat by (apply H12; set_solver). lia.
      - apply elem_of_cons in Hb as [->|Hb]; [lia|done]. }
    destruct l' as [|c l2]; [by apply elem_of_nil in Hb'|].
    exists l1, l2. do 3 f_equal.
    apply elem_of_cons in Hb' as [->|Hb']; [done|].
    apply StronglySorted_cons in H2 as (Hc & H2).
    rewrite Forall_forall in Hc.
    exfalso. apply (Hnone c); [set_solver|].
    split; [apply Hal; set_solver|by apply Hc].
Qed.

(** A loop over positions that reads two neighbours is a loop over the
    pairs of neighbours. *)
Lemma for_each_indexed {A St} (P : list A) (g : nat -> St -> res St) (h : A -> St -> res St)
    start s :
  (forall i x s', P !! i = Some x -> g (start + i)%nat s' = h x s') ->
  for_each (seq start (length P)) g s = for_each P h s.
Proof.
  revert start s. induction P as [|x P IH]; intros start s Hg; simpl; [done|].
  rewrite <- (Hg 0%nat x s) by done. rewrite Nat.add_0_r.
  destruct (g start s) as [s'|e]; simpl; [|done].
  apply IH. intros i y s'' Hy. rewrite <- (Hg (S i) y s'') by done.
  f_equal. lia.
Qed.

Lemma for_each_adjacent {A St} (l : list A) (body : A -> A -> St -> res St) s :
  for_each (range (length l - 1))
    (fun i s => a ← index l i; b ← index l (i + 1); body a b s) s =
  for_each (adjacent l) (fun '(a, b) => body a b) s.
Proof.
  unfold range. rewrite <- adjacent_length.
  apply for_each_indexed. intros i [a b] s' Hi. simpl.
  apply adjacent_lookup in Hi as [Ha Hb]. unfold index. by rewrite Ha, Hb.
Qed.

(** ** Loops *)

Lemma for_each_ext {A St} (l : list A) (f g : A -> St -> res St) s :
  (forall x s', x ∈ l -> f x s' = g x s') -> for_each l f s = for_each l g s.
Proof.
  revert s. induction l as [|x l IH]; intros s Hfg; simpl; [done|].
  rewrite Hfg by set_solver. destruct (g x s); simpl; [|done].
  apply IH. intros y s' Hy. apply Hfg. set_solver.
Qed.

Lemma for_each_app {A St} (l1 l2 : list A) (f : A -> St -> res St) s :
  for_each (l1 ++ l2) f s = s' ← for_each l1 f s; for_each l2 f s'.
Proof.
  revert s. induction l1 as [|x l1 IH]; intros s; simpl; [done|].
  destruct (f x s); simpl; [apply IH|done].
Qed.

Lemma for_each_flat_map {A B St} (h : A -> list B) (l : list A) (f : B -> St -> res St) s :
  for_each (flat_map h l) f s = for_each l (fun x s => for_each (h x) f s) s.
Proof.
  revert s. induction l as [|x l IH]; intros s; simpl; [done|].
  rewrite for_each_app. destruct (for_each (h x) f s); simpl; [apply IH|done].
Qed.

(** ** Dictionaries *)

Lemma dict_lookup_elem_of {V} (d : list (nat * V)) k v :
  dict_lookup d k = Some v -> (k, v) ∈ d.
Proof.
  induction d as [|[k' v'] d IH]; simpl; [done|].
  destruct (k' =? k)%nat eqn:E.
  - apply Nat.eqb_eq in E as ->. intros [= ->]. set_solver.
  - intros H. set_solver.
Qed.

Lemma dict_lookup_is_Some {V} (d : list (nat * V)) k :
  k ∈ map fst d -> is_Some (dict_lookup d k).
Proof.
  induction d as [|[k' v'] d IH]; simpl; [by intros ?%elem_of_nil|].
  intros Hin. destruct (k' =? k)%nat eqn:E; [by eexists|].
  apply Nat.eqb_neq in E. apply IH. set_solver.
Qed.

Lemma dict_lookup_NoDup {V} (d : list (nat * V)) k v :
  NoDup (map fst d) -> (k, v) ∈ d -> dict_lookup d k = Some v.
Proof.
  intros Hnd Hin.
  destruct (dict_lookup_is_Some d k) as [v' Hv'].
  { apply list_elem_of_fmap. by exists (k, v). }
  rewrite Hv'. f_equal. apply dict_lookup_elem_of in Hv'.
  by eapply NoDup_keys_eq.
Qed.

(** ** The precedence pass *)

Lemma build_job_tasks_group_by task_map :
  build_job_tasks task_map = group_by task_job fst task_map [].
Proof.
  unfold build_job_tasks, group_by. generalize (@nil (Z * list nat)).
  induction task_map as [|[k [[[job_id o] m] d]] task_map IH]; intros g; simpl; [done|].
  apply IH.
Qed.

Lemma build_job_tasks_grouped task_map :
  grouped task_job fst task_map (build_job_tasks task_map).
Proof. rewrite build_job_tasks_group_by. apply group_by_grouped. Qed.

(** The precedence pass as one loop over the consecutive pairs. *)
Lemma apply_precedence_constraint_pairs M var_index task_map T_max penalty :
  apply_precedence_constraint M var_index task_map T_max penalty =
  for_each (consecutive_pairs task_map) (fun '(k1, k2) M =>
    '(_, _, _, duration_1) ← dict_subscript task_map k1;
    for_each (range T_max) (fun t1 M =>
      for_each (range T_max) (fun t2 M =>
        if Z.of_nat t2 <? Z.of_nat t1 + duration_1 then
          match get var_index (k1, t1), get var_index (k2, t2) with
          | Some idx_1, Some idx_2 => add_at M idx_1 idx_2 penalty
          | _, _ => Ok M
          end
        else Ok M) M) M) M.
Proof.
  unfold apply_precedence_constraint, consecutive_pairs.
  rewrite for_each_flat_map. apply for_each_ext.
  intros [job_id ks] M' _. cbv zeta. simpl snd.
  by rewrite (for_each_adjacent (sort_with Nat.leb ks)).
Qed.

Lemma flat_map_sublist {A B} (f g : A -> list B) l :
  (forall x, f x `sublist_of` g x) -> flat_map f l `sublist_of` flat_map g l.
Proof.
  intros Hfg. induction l as [|x l IH]; simpl; [done|]. by apply sublist_app.
Qed.

Lemma flat_map_perm {A B} (f g : A -> list B) l :
  (forall x, f x ≡ₚ g x) -> flat_map f l ≡ₚ flat_map g l.
Proof.
  intros Hfg. induction l as [|x l IH]; simpl; [done|]. by rewrite Hfg, IH.
Qed.

Lemma map_flat_map {A B C} (h : B -> C) (f : A -> list B) l :
  map h (flat_map f l) = flat_map (fun x => map h (f x)) l.
Proof.
  induction l as [|x l IH]; simpl; [done|]. by rewrite map_app, IH.
Qed.

Lemma elem_of_flat_map {A B} (f : A -> list B) l y :
  y ∈ flat_map f l <-> exists x, x ∈ l /\ y ∈ f x.
Proof.
  rewrite list_elem_of_In, in_flat_map. split.
  - intros (x & Hx & Hy). exists x. by rewrite !list_elem_of_In.
  - intros (x & Hx & Hy). exists x. by rewrite <- !list_elem_of_In.
Qed.

Section ConsecutivePairs.
Context (task_map : task_dict).
Hypothesis Hkeys : NoDup (map fst task_map).

Lemma job_of_elem_of k job_id :
  job_of task_map k = Some job_id <->
  exists x, x ∈ task_map /\ fst x = k /\ task_job x = job_id.
Proof.
  unfold job_of. split.
  - destruct (dict_lookup task_map k) as [[[[j o] m] d]|] eqn:E; [|done].
    intros [= ->]. apply dict_lookup_elem_of in E. by exists (k, (job_id, o, m, d)).
  - intros ([k' [[[j o] m] d]] & Hx & Hk & Hj). simpl in *. subst.
    by rewrite (dict_lookup_NoDup task_map k (job_id, o, m, d)).
Qed.

Lemma group_members job_id ks k :
  (job_id, ks) ∈ build_job_tasks task_map ->
  k ∈ ks <-> job_of task_map k = Some job_id.
Proof.
  intros Hg. destruct (build_job_tasks_grouped task_map) as (_ & _ & Hgroups).
  destruct (Hgroups job_id ks Hg) as [_ ->].
  rewrite job_of_elem_of, list_elem_of_fmap. split.
  - intros (x & -> & [Hj Hx]%list_elem_of_filter). by exists x.
  - intros (x & Hx & Hk & Hj). exists x. split; [done|].
    by apply list_elem_of_filter.
Qed.

Lemma group_exists k job_id :
  job_of task_map k = Some job_id ->
  exists ks, (job_id, ks) ∈ build_job_tasks task_map.
Proof.
  intros (x & Hx & _ & Hj)%job_of_elem_of.
  destruct (build_job_tasks_grouped task_map) as (_ & Hall & _).
  specialize (Hall x Hx). rewrite Hj in Hall.
  apply list_elem_of_fmap in Hall as ([j ks] & -> & Hg). by exists ks.
Qed.

Lemma groups_partition :
  flat_map snd (build_job_tasks task_map) ≡ₚ map fst task_map.
Proof.
  rewrite flat_map_concat_map, build_job_tasks_group_by.
  by rewrite group_by_concat.
Qed.

Lemma group_NoDup job_id ks :
  (job_id, ks) ∈ build_job_tasks task_map -> NoDup ks.
Proof.
  intros Hg. pose proof Hkeys as Hnd. rewrite <- groups_partition in Hnd.
  apply list_elem_of_split in Hg as (g1 & g2 & Hsplit). rewrite Hsplit in Hnd.
  rewrite flat_map_app in Hnd. simpl in Hnd.
  apply NoDup_app in Hnd as (_ & _ & Hnd). by apply NoDup_app in Hnd as (Hnd & _).
Qed.

Lemma consecutive_pairs_elem k1 k2 :
  (k1, k2) ∈ consecutive_pairs task_map <->
  exists job_id ks, (job_id, ks) ∈ build_job_tasks task_map /\
                    (k1, k2) ∈ adjacent (sort_with Nat.leb ks).
Proof.
  unfold consecutive_pairs. rewrite elem_of_flat_map. split.
  - intros ([job_id ks] & Hg & Hadj). by exists job_id, ks.
  - intros (job_id & ks & Hg & Hadj). by exists (job_id, ks).
Qed.

(** The pairs visited are the pairs of consecutive task ids of a job. *)
Lemma consecutive_pairs_spec k1 k2 :
  (k1, k2) ∈ consecutive_pairs task_map <-> consecutive task_map k1 k2.
Proof.
  rewrite consecutive_pairs_elem. unfold consecutive. split.
  - intros (job_id & ks & Hg & Hadj). exists job_id.
    apply adjacent_increasing in Hadj as (H1 & H2 & Hlt & Hnone);
      [|by eapply sort_nat_sorted, group_NoDup].
    rewrite sort_with_perm in H1, H2.
    split; [by eapply group_members|]. split; [by eapply group_members|].
    split; [done|]. intros k Hk. apply Hnone.
    rewrite sort_with_perm. by eapply group_members.
  - intros (job_id & H1 & H2 & Hlt & Hnone).
    destruct (group_exists k1 job_id H1) as [ks Hg]. exists job_id, ks.
    split; [done|].
    apply adjacent_increasing; [by eapply sort_nat_sorted, group_NoDup|].
    rewrite !sort_with_perm.
    split; [by eapply group_members|]. split; [by eapply group_members|].
    split; [done|]. intros k Hk. apply Hnone.
    rewrite sort_with_perm in Hk. by eapply group_members.
Qed.

Lemma consecutive_pairs_NoDup : NoDup (consecutive_pairs task_map).
Proof.
  apply (NoDup_fmap_1 fst). unfold consecutive_pairs.
  change (fst <$> ?l) with (map fst l). rewrite map_flat_map.
  apply (sublist_NoDup _
           (flat_map (fun g => sort_with Nat.leb (snd g)) (build_job_tasks task_map))).
  - rewrite (flat_map_perm _ snd) by (intros g; apply sort_with_perm).
    by rewrite groups_partition.
  - apply flat_map_sublist. intros g. apply adjacent_fst_sublist.
Qed.

Lemma consecutive_pairs_keys k1 k2 :
  (k1, k2) ∈ consecutive_pairs task_map ->
  k1 ∈ map fst task_map /\ k2 ∈ map fst task_map.
Proof.
  intros (job_id & H1 & H2 & _)%consecutive_pairs_spec.
  apply job_of_elem_of in H1 as (x1 & Hx1 & <- & _).
  apply job_of_elem_of in H2 as (x2 & Hx2 & <- & _).
  split; apply list_elem_of_fmap; eauto.
Qed.
End ConsecutivePairs.

Section PrecedencePass.
Context (n : nat) (var_index : gmap (nat * nat) nat) (task_map : task_dict)
        (T_max : nat) (penalty : Z).
Hypothesis Hrange : index_in_range n var_index.
Hypothesis Hkeys : NoDup (map fst task_map).

Lemma contributes_precedence :
  contributes n
    (fun M => apply_precedence_constraint M var_index task_map T_max penalty)
    (precedence_contribution var_index task_map T_max penalty).
Proof.
  intros M HM. rewrite apply_precedence_constraint_pairs. revert M HM.
  apply (contributes_for_each n (consecutive_pairs task_map) _
           (precedence_pair var_index task_map T_max penalty)).
  intros [k1 k2] Hp. unfold precedence_pair. simpl fst. simpl snd.
  apply (consecutive_pairs_keys task_map Hkeys) in Hp as [Hk1 _].
  destruct (dict_lookup_is_Some task_map k1 Hk1) as [[[[j1 o1] m1] d1] Hd].
  unfold dict_subscript, duration_of. rewrite Hd. simpl.
  apply (contributes_for_each n (range T_max) _
           (fun t1 i j => sumZ (fun t2 =>
              if Z.of_nat t2 <? Z.of_nat t1 + d1 then
                match get var_index (k1, t1), get var_index (k2, t2) with
                | Some idx_1, Some idx_2 => unit_at idx_1 idx_2 penalty i j
                | _, _ => 0
                end
              else 0) (range T_max))).
  intros t1 _.
  apply (contributes_for_each n (range T_max) _
           (fun t2 i j =>
              if Z.of_nat t2 <? Z.of_nat t1 + d1 then
                match get var_index (k1, t1), get var_index (k2, t2) with
                | Some idx_1, Some idx_2 => unit_at idx_1 idx_2 penalty i j
                | _, _ => 0
                end
              else 0)).
  intros t2 _. cbv beta.
  destruct (_ <? _); [|apply contributes_ret].
  unfold get.
  destruct (var_index !! (k1, t1)) as [i1|] eqn:E1; [|apply contributes_ret].
  destruct (var_index !! (k2, t2)) as [i2|] eqn:E2; [|apply contributes_ret].
  apply contributes_add_at; by eapply index_in_range_lookup.
Qed.

Hypothesis Hinj : index_injective var_index.

Lemma precedence_slots_value k1 d1 k2 ka ta kb tb i1 i2 :
  var_index !! (ka, ta) = Some i1 -> var_index !! (kb, tb) = Some i2 ->
  (ta < T_max)%nat -> (tb < T_max)%nat ->
  precedence_slots var_index T_max penalty k1 d1 k2 i1 i2 =
  if decide (k1 = ka /\ k2 = kb /\ Z.of_nat tb < Z.of_nat ta + d1)
  then penalty else 0.
Proof.
  intros Hi1 Hi2 Hta Htb. unfold precedence_slots, get.
  assert (Hmiss : forall t1 t2 a b,
            var_index !! (k1, t1) = Some a -> var_index !! (k2, t2) = Some b ->
            ~ (k1 = ka /\ t1 = ta /\ k2 = kb /\ t2 = tb) ->
            unit_at a b penalty i1 i2 = 0).
  { intros t1 t2 a b Ha Hb Hne. apply unit_at_miss. intros E. simplify_eq.
    apply Hne.
    pose proof (index_injective_lookup _ _ _ _ Hinj Ha Hi1).
    pose proof (index_injective_lookup _ _ _ _ Hinj Hb Hi2).
    by simplify_eq. }
  assert (Hzero : forall t1 t2,
            ~ (k1 = ka /\ t1 = ta /\ k2 = kb /\ t2 = tb) ->
            (if Z.of_nat t2 <? Z.of_nat t1 + d1 then
               match var_index !! (k1, t1), var_index !! (k2, t2) with
               | Some idx_1, Some idx_2 => unit_at idx_1 idx_2 penalty i1 i2
               | _, _ => 0
               end
             else 0) = 0).
  { intros t1 t2 Hne. destruct (_ <? _); [|done].
    destruct (var_index !! (k1, t1)) as [a|] eqn:Ea; [|done].
    destruct (var_index !! (k2, t2)) as [b|] eqn:Eb; [|done].
    by eapply Hmiss. }
  destruct (decide (k1 = ka /\ k2 = kb)) as [[-> ->]|Hk].
  - rewrite (sumZ_single _ _ ta); [|apply NoDup_range|by apply elem_of_range|].
    + rewrite (sumZ_single _ _ tb); [|apply NoDup_range|by apply elem_of_range|].
      * rewrite Hi1, Hi2, unit_at_hit.
        destruct (decide _) as [Hc|Hc]; destruct (Z.ltb_spec (Z.of_nat tb) (Z.of_nat ta + d1));
          try done; lia.
      * intros t2 _ Hne. apply Hzero. tauto.
    + intros t1 _ Hne. apply sumZ_zero. intros t2 _. apply Hzero. tauto.
  - rewrite decide_False by tauto.
    apply sumZ_zero. intros t1 _. apply sumZ_zero. intros t2 _. apply Hzero. tauto.
Qed.

Lemma precedence_contribution_value ka ta kb tb i1 i2 :
  var_index !! (ka, ta) = Some i1 -> var_index !! (kb, tb) = Some i2 ->
  (ta < T_max)%nat -> (tb < T_max)%nat ->
  precedence_contribution var_index task_map T_max penalty i1 i2 =
  if decide ((ka, kb) ∈ consecutive_pairs task_map /\
             Z.of_nat tb < Z.of_nat ta + duration_of task_map ka)
  then penalty else 0.
Proof.
  intros Hi1 Hi2 Hta Htb. unfold precedence_contribution.
  destruct (decide ((ka, kb) ∈ consecutive_pairs task_map)) as [Hin|Hnin].
  - rewrite (sumZ_single _ _ (ka, kb)); [|by apply consecutive_pairs_NoDup|done|].
    + unfold precedence_pair. simpl.
      rewrite (precedence_slots_value _ _ _ ka ta kb tb) by done.
      destruct (decide (ka = ka /\ _)); destruct (decide (_ /\ _)); try done; tauto.
    + intros [k1 k2] _ Hne. unfold precedence_pair. simpl.
      rewrite (precedence_slots_value _ _ _ ka ta kb tb) by done.
      rewrite decide_False; [done|]. intros (-> & -> & _). done.
  - rewrite decide_False by tauto. apply sumZ_zero.
    intros [k1 k2] Hp. unfold precedence_pair. simpl.
    rewrite (precedence_slots_value _ _ _ ka ta kb tb) by done.
    rewrite decide_False; [done|]. intros (-> & -> & _). done.
Qed.

Lemma precedence_contribution_elsewhere i j :
  (forall k1 k2 t1 t2, (k1, k2) ∈ consecutive_pairs task_map ->
     (t1 < T_max)%nat -> (t2 < T_max)%nat ->
     ~ (var_index !! (k1, t1) = Some i /\ var_index !! (k2, t2) = Some j)) ->
  precedence_contribution var_index task_map T_max penalty i j = 0.
Proof.
  intros Hmiss. unfold precedence_contribution.
  apply sumZ_zero. intros [k1 k2] Hp. unfold precedence_pair, precedence_slots. simpl.
  apply sumZ_zero. intros t1 Ht1. apply sumZ_zero. intros t2 Ht2.
  apply elem_of_range in Ht1, Ht2.
  destruct (_ <? _); [|done]. unfold get.
  destruct (var_index !! (k1, t1)) as [a|] eqn:Ea; [|done].
  destruct (var_index !! (k2, t2)) as [b|] eqn:Eb; [|done].
  apply unit_at_miss. intros E. simplify_eq.
  by apply (Hmiss k1 k2 t1 t2).
Qed.
End PrecedencePass.

(** C5.  On a square array, a task map with distinct keys and an in-range,
    injective variable index (entries may be missing),
    [apply_precedence_constraint] returns.  The pairs it visits are the
    pairs of consecutive task ids of a job.  For such a pair [k1], [k2],
    [d1] being the duration of [k1], and times [t1], [t2] whose variables
    both exist, the entry at (variable of (k1, t1), variable of (k2, t2))
    gains [penalty] exactly once when [t2 < t1 + d1] and nothing otherwise;
    entries that are not such a pair of variables are unchanged. *)
Theorem precedence_entries n var_index task_map T_max penalty M :
  square n M ->
  index_in_range n var_index ->
  index_injective var_index ->
  NoDup (map fst task_map) ->
  exists M',
    apply_precedence_constraint M var_index task_map T_max penalty = Ok M' /\
    square n M' /\
    (forall k1 k2, (k1, k2) ∈ consecutive_pairs task_map <-> consecutive task_map k1 k2) /\
    (forall k1 k2 job_id op m d1 t1 t2 i1 i2,
       consecutive task_map k1 k2 ->
       dict_lookup task_map k1 = Some (job_id, op, m, d1) ->
       (t1 < T_max)%nat -> (t2 < T_max)%nat ->
       var_index !! (k1, t1) = Some i1 -> var_index !! (k2, t2) = Some i2 ->
       coef M' i1 i2 =
       coef M i1 i2 + if decide (Z.of_nat t2 < Z.of_nat t1 + d1) then penalty else 0) /\
    (forall i j,
       (forall k1 k2 t1 t2, consecutive task_map k1 k2 ->
          (t1 < T_max)%nat -> (t2 < T_max)%nat ->
          ~ (var_index !! (k1, t1) = Some i /\ var_index !! (k2, t2) = Some j)) ->
       coef M' i j = coef M i j).
Proof.
  intros HM Hrange Hinj Hkeys.
  destruct (contributes_precedence n var_index task_map T_max penalty Hrange Hkeys M HM)
    as (M' & HM' & Hsq & Hadd).
  exists M'. split; [done|]. split; [done|].
  split; [intros k1 k2; by apply consecutive_pairs_spec|]. split.
  - intros k1 k2 job_id op m d1 t1 t2 i1 i2 Hcons Hd Ht1 Ht2 Hi1 Hi2.
    rewrite Hadd by (by eapply index_in_range_lookup).
    rewrite (precedence_contribution_value var_index task_map T_max penalty Hkeys Hinj
               k1 t1 k2 t2) by done.
    apply consecutive_pairs_spec in Hcons; [|done].
    unfold duration_of. rewrite Hd.
    destruct (decide (_ /\ _)); destruct (decide (_ < _)); try done; tauto.
  - intros i j Hmiss.
    destruct (decide ((i < n)%nat /\ (j < n)%nat)) as [[Hi Hj]|Hout].
    + rewrite Hadd by done. rewrite precedence_contribution_elsewhere; [lia|].
      intros k1 k2 t1 t2 Hp. apply Hmiss. by apply consecutive_pairs_spec.
    + by rewrite !(coef_outside n).
Qed.

Lemma precedence_entries_witness :
  exists M',
    apply_precedence_constraint (zeros 4) example_index example_short_tasks 2 5 = Ok M' /\
    coef M' 0 2 = 5 /\ coef M' 0 3 = 0 /\ coef M' 1 2 = 5.
Proof.
  destruct (precedence_entries 4 example_index example_short_tasks 2 5 (zeros 4))
    as (M' & HM' & _ & Hspec & Hpair & _); [compute_done..|].
  assert (Hcons : consecutive example_short_tasks 0 1) by (apply Hspec; compute_done).
  exists M'. split; [exact HM'|]. split; [|split].
  - apply (Hpair 0%nat 1%nat 0 0 0 1 0%nat 0%nat 0%nat 2%nat Hcons);
      first [reflexivity | lia].
  - apply (Hpair 0%nat 1%nat 0 0 0 1 0%nat 1%nat 0%nat 3%nat Hcons);
      first [reflexivity | lia].
  - apply (Hpair 0%nat 1%nat 0 0 0 1 1%nat 0%nat 1%nat 2%nat Hcons);
      first [reflexivity | lia].
Defined.

(** C2.  On a variable index from which the candidate (1, 1) is absent,
    [apply_machine_conflict_constraint] does not skip the pair: subscripting
    raises [KeyError] before the guard is reached, while
    [apply_precedence_constraint], which uses [get], returns on the same
    index. *)
Theorem machine_conflict_missing_index_raises :
  apply_machine_conflict_constraint (zeros 3) example_partial_index example_tasks 2 7
  = Raise KeyError /\
  apply_precedence_constraint (zeros 3) example_partial_index example_tasks 2 5
  = Ok [[0; 0; 5]; [0; 0; 5]; [0; 0; 0]].
Proof. split; reflexivity. Qed.

(** ** Makespan *)

Lemma fold_left_max_ge (l : list Z) x : x <= fold_left Z.max l x.
Proof.
  revert x. induction l as [|y l IH]; intros x; simpl; [lia|].
  specialize (IH (Z.max x y)). lia.
Qed.

Lemma fold_left_max_bound (l : list Z) x y : y ∈ l -> y <= fold_left Z.max l x.
Proof.
  revert x. induction l as [|z l IH]; intros x Hy; simpl; [by apply elem_of_nil in Hy|].
  apply elem_of_cons in Hy as [->|Hy]; [|by apply IH].
  pose proof (fold_left_max_ge l (Z.max x z)). lia.
Qed.

Lemma fold_left_max_elem (l : list Z) x :
  fold_left Z.max l x = x \/ fold_left Z.max l x ∈ l.
Proof.
  revert x. induction l as [|z l IH]; intros x; simpl; [by left|].
  destruct (IH (Z.max x z)) as [E|E].
  - rewrite E. destruct (Z.max_spec x z) as [[_ ->]|[_ ->]]; [right; set_solver|by left].
  - right. set_solver.
Qed.

(** C7.  [compute_makespan] raises on the empty schedule, and on a
    non-empty schedule returns an end time of the schedule that no other
    end time exceeds. *)
Theorem compute_makespan_spec schedule :
  (schedule = [] -> compute_makespan schedule = Raise ValueError) /\
  (schedule <> [] ->
   exists m, compute_makespan schedule = Ok m /\
             (exists r, r ∈ schedule /\ end_ r = m) /\
             (forall r, r ∈ schedule -> end_ r <= m)).
Proof.
  split; [by intros ->|]. intros Hne.
  destruct schedule as [|r0 schedule]; [done|].
  unfold compute_makespan. simpl. eexists. split; [done|]. split.
  - destruct (fold_left_max_elem (map end_ schedule) (end_ r0)) as [E|E].
    + exists r0. split; [set_solver|done].
    + apply list_elem_of_fmap in E as (r & E & Hr). exists r. split; [set_solver|done].
  - intros r [->|Hr]%elem_of_cons.
    + apply fold_left_max_ge.
    + apply fold_left_max_bound. apply list_elem_of_fmap. by exists r.
Qed.

Lemma compute_makespan_spec_witness : compute_makespan example_schedule = Ok 7.
Proof.
  destruct (compute_makespan_spec example_schedule) as [_ Hmax].
  destruct Hmax as (m & Hm & (r & Hr & Hend) & Hbound); [discriminate|].
  rewrite Hm. f_equal.
  assert (7 <= m) by (apply (Hbound (mk_entry 1 0 1 1 4 3)); set_solver).
  assert (end_ r <= 7); [|lia].
  unfold example_schedule in Hr.
  repeat (apply elem_of_cons in Hr as [->|Hr]; [simpl; lia|]).
  by apply elem_of_nil in Hr.
Defined.

(** ** The validators as lists of flagged neighbours *)

Lemma for_each_fmap {A B St} (h : A -> B) (l : list A) (f : B -> St -> res St) s :
  for_each (map h l) f s = for_each l (fun x => f (h x)) s.
Proof.
  revert s. induction l as [|x l IH]; intros s; simpl; [done|].
  destruct (f (h x) s); simpl; [apply IH|done].
Qed.

Lemma for_each_collect {A B} (l : list A) (body : A -> list B -> res (list B))
    (f : A -> list B) acc :
  (forall x acc', x ∈ l -> body x acc' = Ok (acc' ++ f x)) ->
  for_each l body acc = Ok (acc ++ flat_map f l).
Proof.
  revert acc. induction l as [|x l IH]; intros acc Hbody; simpl.
  - by rewrite app_nil_r.
  - rewrite Hbody by set_solver. simpl. rewrite IH.
    + by rewrite app_assoc.
    + intros y acc' Hy. apply Hbody. set_solver.
Qed.

Lemma flag_adjacent_eq tasks found :
  flag_adjacent tasks found = Ok (found ++ flagged tasks).
Proof.
  unfold flag_adjacent, flagged.
  rewrite (for_each_adjacent tasks
             (fun a b found => if end_ a >? start b then Ok (found ++ [(a, b)]) else Ok found)).
  generalize (adjacent tasks). intros pairs. revert found.
  induction pairs as [|[a b] pairs IH]; intros found; simpl.
  - by rewrite app_nil_r.
  - destruct (Z.gtb_spec (end_ a) (start b)) as [Hgt|Hle]; simpl.
    + rewrite IH, filter_cons_True by (simpl; lia). by rewrite <- app_assoc.
    + rewrite IH, filter_cons_False by (simpl; lia). done.
Qed.

Lemma check_machine_conflicts_eq schedule :
  check_machine_conflicts schedule =
  Ok (flagged (sorted_by start (filter (fun t => machine t = 0) schedule)) ++
      flagged (sorted_by start (filter (fun t => machine t = 1) schedule))).
Proof.
  unfold check_machine_conflicts. simpl.
  rewrite flag_adjacent_eq. simpl. by rewrite flag_adjacent_eq.
Qed.

Lemma check_precedence_violations_eq schedule :
  check_precedence_violations schedule =
  Ok (flat_map (fun g => flagged (sorted_by task_idx (snd g)))
        (group_by job id schedule [])).
Proof.
  unfold check_precedence_violations. cbv zeta.
  change (fold_left _ schedule []) with (group_by job id schedule []).
  rewrite for_each_fmap.
  rewrite (for_each_collect _ _ (fun g => flagged (sorted_by task_idx (snd g)))); [done|].
  intros g acc _. apply flag_adjacent_eq.
Qed.

Lemma flagged_elem_of tasks a b :
  (a, b) ∈ flagged tasks <-> (a, b) ∈ adjacent tasks /\ start b < end_ a.
Proof. unfold flagged. rewrite list_elem_of_filter. simpl. tauto. Qed.

Lemma filter_none {A} (P : A -> Prop) `{!forall x, Decision (P x)} (l : list A) :
  (forall x, x ∈ l -> ~ P x) -> filter P l = [].
Proof.
  intros Hnone. apply elem_of_nil_inv. intros x [HP Hx]%list_elem_of_filter.
  by apply (Hnone x).
Qed.

Lemma adjacent_members {A} (l : list A) a b : (a, b) ∈ adjacent l -> a ∈ l /\ b ∈ l.
Proof. intros (l1 & l2 & ->)%adjacent_elem_of. set_solver. Qed.

(** C10.  [check_machine_conflicts] returns, every pair it reports is a pair
    of tasks of machine 0 or of machine 1, and the entries of any other
    machine have no influence on the result: it is the result on the
    schedule restricted to machines 0 and 1, and it is empty when no entry is
    on machine 0 or 1. *)
Theorem check_machine_conflicts_two_machines schedule :
  exists conflicts,
    check_machine_conflicts schedule = Ok conflicts /\
    (forall a b, (a, b) ∈ conflicts ->
       (machine a = 0 \/ machine a = 1) /\ machine b = machine a) /\
    check_machine_conflicts
      (filter (fun t => machine t = 0 \/ machine t = 1) schedule) = Ok conflicts /\
    (Forall (fun t => machine t <> 0 /\ machine t <> 1) schedule -> conflicts = []).
Proof.
  eexists. split; [apply check_machine_conflicts_eq|]. split; [|split].
  - intros a b [Hin|Hin]%elem_of_app;
      apply flagged_elem_of in Hin as [Hadj _];
      apply adjacent_members in Hadj as [Ha Hb];
      rewrite sorted_by_perm in Ha, Hb;
      apply list_elem_of_filter in Ha as [Ha _], Hb as [Hb _];
      rewrite Ha, Hb; tauto.
  - rewrite check_machine_conflicts_eq. rewrite !list_filter_filter.
    do 3 f_equal; (f_equal; apply list_filter_iff; intros t; lia).
  - intros Hnone. rewrite Forall_forall in Hnone.
    rewrite !filter_none; [done|..]; intros t Ht; specialize (Hnone t Ht); tauto.
Qed.

Lemma check_machine_conflicts_two_machines_witness :
  check_machine_conflicts example_other_machine = Ok [].
Proof.
  destruct (check_machine_conflicts_two_machines example_other_machine)
    as (conflicts & Hc & _ & _ & Hnone).
  rewrite Hc. f_equal. apply Hnone. compute_done.
Defined.

(** ** The extractor *)

Lemma NoDup_flat_map {A B} (f : A -> list B) (l : list A) :
  NoDup l ->
  (forall x, x ∈ l -> NoDup (f x)) ->
  (forall x y z, x ∈ l -> y ∈ l -> z ∈ f x -> z ∈ f y -> x = y) ->
  NoDup (flat_map f l).
Proof.
  induction l as [|x l IH]; intros Hnd Hf Hdisj; simpl; [constructor|].
  apply NoDup_cons in Hnd as [Hx Hnd]. apply NoDup_app. split; [|split].
  - apply Hf. set_solver.
  - intros z Hz (y & Hy & Hzy)%elem_of_flat_map.
    apply Hx. replace x with y; [done|].
    symmetry. apply (Hdisj x y z); set_solver.
  - apply IH; [done| |].
    + intros y Hy. apply Hf. set_solver.
    + intros y1 y2 z H1 H2. apply Hdisj; set_solver.
Qed.

Section Extractor.
Context (result : list Q) (var_index : gmap (nat * nat) nat) (task_map : task_dict)
        (num_tasks T_max : nat).
Hypothesis Htotal : index_total var_index (range num_tasks) T_max.
Hypothesis Hrange : index_in_range (length result) var_index.
Hypothesis Htasks : tasks_defined task_map num_tasks.

Lemma extract_schedule_scanned :
  extract_schedule_from_result result var_index task_map num_tasks T_max =
  Ok (sorted_by start (scanned result var_index task_map num_tasks T_max)).
Proof.
  unfold extract_schedule_from_result, scanned.
  rewrite (for_each_collect (range num_tasks) _
             (fun k => flat_map (fun t =>
                if selected result var_index k t then [record_of task_map k t] else [])
                (range T_max))); [done|].
  intros k acc Hk.
  apply (for_each_collect (range T_max) _
           (fun t => if selected result var_index k t
                     then [record_of task_map k t] else [])).
  intros t acc' Ht. apply elem_of_range in Ht.
  destruct (index_total_lookup _ _ _ k t Htotal Hk Ht) as (idx & Hidx & _).
  pose proof (index_in_range_lookup _ _ _ _ Hrange Hidx) as Hlt.
  destruct (lookup_lt_is_Some_2 result idx Hlt) as [x Hx].
  unfold tasks_defined in Htasks. rewrite Forall_forall in Htasks.
  destruct (Htasks k Hk) as [[[[job_id op] m] d] Hd].
  unfold subscript, index, selected, record_of, dict_subscript.
  rewrite Hidx. simpl. rewrite Hx. simpl.
  destruct (py_round x =? 1); [|by rewrite app_nil_r].
  by rewrite Hd.
Qed.

Lemma scanned_elem_of r :
  r ∈ scanned result var_index task_map num_tasks T_max <->
  exists k t, (k < num_tasks)%nat /\ (t < T_max)%nat /\
              selected result var_index k t = true /\ r = record_of task_map k t.
Proof.
  unfold scanned. rewrite elem_of_flat_map. split.
  - intros (k & Hk & (t & Ht & Hr)%elem_of_flat_map).
    apply elem_of_range in Hk, Ht. exists k, t.
    destruct (selected result var_index k t); [|by apply elem_of_nil in Hr].
    apply list_elem_of_singleton in Hr. done.
  - intros (k & t & Hk & Ht & Hsel & ->). exists k.
    split; [by apply elem_of_range|]. apply elem_of_flat_map. exists t.
    split; [by apply elem_of_range|]. rewrite Hsel. set_solver.
Qed.

Lemma record_of_task k t : task (record_of task_map k t) = k.
Proof. unfold record_of. by destruct (dict_lookup task_map k) as [[[[? ?] ?] ?]|]. Qed.

Lemma record_of_start k t : start (record_of task_map k t) = Z.of_nat t.
Proof. unfold record_of. by destruct (dict_lookup task_map k) as [[[[? ?] ?] ?]|]. Qed.

Lemma scanned_NoDup : NoDup (scanned result var_index task_map num_tasks T_max).
Proof.
  unfold scanned. apply NoDup_flat_map; [apply NoDup_range| |].
  - intros k _. apply NoDup_flat_map; [apply NoDup_range| |].
    + intros t _. destruct (selected _ _ _ _); [apply NoDup_singleton|constructor].
    + intros t1 t2 r _ _ H1 H2.
      destruct (selected result var_index k t1); [|by apply elem_of_nil in H1].
      destruct (selected result var_index k t2); [|by apply elem_of_nil in H2].
      apply list_elem_of_singleton in H1, H2. subst r.
      apply (f_equal start) in H2. rewrite !record_of_start in H2. lia.
  - intros k1 k2 r _ _ (t1 & _ & H1)%elem_of_flat_map (t2 & _ & H2)%elem_of_flat_map.
    destruct (selected result var_index k1 t1); [|by apply elem_of_nil in H1].
    destruct (selected result var_index k2 t2); [|by apply elem_of_nil in H2].
    apply list_elem_of_singleton in H1, H2. subst r.
    apply (f_equal task) in H2. by rewrite !record_of_task in H2.
Qed.
End Extractor.

(** ** Rounding *)

Section Rounding.
Local Open Scope Q_scope.

Lemma Qfloor_near_one x : 1 # 2 < x -> x < 3 # 2 -> Qfloor x = 0%Z \/ Qfloor x = 1%Z.
Proof.
  intros H1 H2.
  pose proof (Qfloor_le x) as Hlo. pose proof (Qlt_floor x) as Hhi.
  rewrite inject_Z_plus in Hhi. change (inject_Z 1) with 1 in Hhi.
  assert (-1 < Qfloor x < 2)%Z as Hf; [|lia].
  rewrite !Zlt_Qlt. change (inject_Z (-1)) with (-1). change (inject_Z 2) with 2.
  split; lra.
Qed.

(** The values that round to 1 are those strictly between 1/2 and 3/2. *)
Lemma py_round_one x : py_round x = 1%Z <-> 1 # 2 < x /\ x < 3 # 2.
Proof.
  unfold py_round.
  pose proof (Qfloor_le x) as Hlo. pose proof (Qlt_floor x) as Hhi.
  rewrite inject_Z_plus in Hhi. change (inject_Z 1) with 1 in Hhi.
  split.
  - destruct (Qcompare_spec (x - inject_Z (Qfloor x)) (1 # 2)) as [E|E|E].
    + destruct (Z.even (Qfloor x)) eqn:Ev.
      * intros Hf. rewrite Hf in Ev. discriminate.
      * intros Hf. assert (Qfloor x = 0)%Z as Hf0 by lia.
        rewrite Hf0 in Ev. discriminate.
    + intros Hf. rewrite Hf in *. change (inject_Z 1) with 1 in *. lra.
    + intros Hf. assert (Qfloor x = 0)%Z as Hf0 by lia. rewrite Hf0 in *.
      change (inject_Z 0) with 0 in *. lra.
  - intros [H1 H2].
    destruct (Qfloor_near_one x H1 H2) as [Hf|Hf]; rewrite Hf in *.
    + change (inject_Z 0) with 0 in *.
      destruct (Qcompare_spec (x - 0) (1 # 2)) as [E|E|E]; [lra|lra|reflexivity].
    + change (inject_Z 1) with 1 in *.
      destruct (Qcompare_spec (x - 1) (1 # 2)) as [E|E|E]; [lra|reflexivity|lra].
Qed.

Lemma selected_spec result var_index k t idx x :
  var_index !! (k, t) = Some idx -> result !! idx = Some x ->
  selected result var_index k t = true <-> 1 # 2 < x /\ x < 3 # 2.
Proof.
  intros Hidx Hx. unfold selected. rewrite Hidx, Hx.
  rewrite Z.eqb_eq. apply py_round_one.
Qed.
End Rounding.

(** C1 as stated fails: a task with two start times whose value rounds to 1
    yields two records, not only the first, and
    [check_unique_start_constraint] exists to report exactly that. *)
Lemma extract_schedule_repeats_task :
  extract_schedule_from_result example_assignment example_index example_tasks 2 2 =
  Ok [mk_entry 0 0 0 0 0 2; mk_entry 0 0 0 0 1 2] /\
  check_unique_start_constraint [mk_entry 0 0 0 0 0 2; mk_entry 0 0 0 0 1 2] 2 =
  [(0%nat, 2%nat); (1%nat, 0%nat)].
Proof. split; reflexivity. Qed.

(** C1, amended.  On a variable index that is total on the candidates and
    points into the assignment vector, and a task map holding every task,
    [extract_schedule_from_result] returns a schedule sorted by start time
    that holds, once each, the record of every (task, start time) whose
    rounded assignment value equals 1, and nothing else: a task selected at
    several start times appears once per such start time. *)
Theorem extract_schedule_spec result var_index task_map num_tasks T_max :
  index_total var_index (range num_tasks) T_max ->
  index_in_range (length result) var_index ->
  tasks_defined task_map num_tasks ->
  exists schedule,
    extract_schedule_from_result result var_index task_map num_tasks T_max = Ok schedule /\
    StronglySorted (fun a b => start a <= start b) schedule /\
    NoDup schedule /\
    (forall r, r ∈ schedule <->
       exists k t, (k < num_tasks)%nat /\ (t < T_max)%nat /\
                   selected result var_index k t = true /\
                   r = record_of task_map k t) /\
    (forall k t, task (record_of task_map k t) = k /\
                 start (record_of task_map k t) = Z.of_nat t) /\
    (forall k t idx x, var_index !! (k, t) = Some idx -> result !! idx = Some x ->
       selected result var_index k t = true <-> (1 # 2 < x /\ x < 3 # 2)%Q).
Proof.
  intros Htot Hrange Htasks. eexists.
  split; [by apply extract_schedule_scanned|].
  split; [apply sorted_by_sorted|].
  split; [rewrite sorted_by_perm; apply scanned_NoDup|].
  split; [|split].
  - intros r. rewrite sorted_by_perm.
    by apply scanned_elem_of.
  - intros k t. split; [apply record_of_task|apply record_of_start].
  - apply selected_spec.
Qed.

Lemma extract_schedule_spec_witness :
  exists schedule,
    extract_schedule_from_result example_assignment example_index example_tasks 2 2
    = Ok schedule /\
    mk_entry 0 0 0 0 0 2 ∈ schedule /\ mk_entry 0 0 0 0 1 2 ∈ schedule.
Proof.
  destruct (extract_schedule_spec example_assignment example_index example_tasks 2 2)
    as (schedule & Hs & _ & _ & Hmem & _); [compute_done..|].
  exists schedule. split; [exact Hs|]. split; apply (proj2 (Hmem _)).
  - exists 0%nat, 0%nat. split; [lia|]. split; [lia|]. split; reflexivity.
  - exists 0%nat, 1%nat. split; [lia|]. split; [lia|]. split; reflexivity.
Defined.

(** ** Pairwise properties *)

Section Pairwise.
Context {A : Type}.
Implicit Types (R : A -> A -> Prop) (l : list A).

Lemma pairwise_impl R R' l :
  (forall a b, R a b -> R' a b) -> pairwise R l -> pairwise R' l.
Proof.
  intros HR. induction l as [|x l IH]; simpl; [done|].
  intros [Hx Hl]. split; [|by apply IH].
  eapply Forall_impl; [exact Hx|]. intros y [? ?]. split; by apply HR.
Qed.

Lemma pairwise_and R R' l :
  pairwise R l -> pairwise R' l -> pairwise (fun a b => R a b /\ R' a b) l.
Proof.
  induction l as [|x l IH]; simpl; [done|].
  intros [Hx Hl] [Hx' Hl']. split; [|by apply IH].
  rewrite Forall_forall in Hx, Hx'. apply Forall_forall. intros y Hy.
  specialize (Hx y Hy). specialize (Hx' y Hy). tauto.
Qed.

Lemma pairwise_perm R l l' : l ≡ₚ l' -> pairwise R l -> pairwise R l'.
Proof.
  intros Hperm. induction Hperm as [|x l l' Hperm IH|x y l|l l' l'' _ IH1 _ IH2]; simpl.
  - done.
  - intros [Hx Hl]. split; [by rewrite <- Hperm|by apply IH].
  - intros [Hy [Hx Hl]]. apply Forall_cons in Hy as [Hyx Hy].
    split; [|done]. apply Forall_cons. tauto.
  - intros Hl. by apply IH2, IH1.
Qed.

Lemma pairwise_filter R (P : A -> Prop) `{!forall x, Decision (P x)} l :
  pairwise R l -> pairwise R (filter P l).
Proof.
  induction l as [|x l IH]; simpl; [done|]. intros [Hx Hl].
  rewrite filter_cons. destruct (decide (P x)); [|by apply IH].
  simpl. split; [|by apply IH].
  rewrite Forall_forall in Hx. apply Forall_forall.
  intros y [_ Hy]%list_elem_of_filter. by apply Hx.
Qed.

Lemma pairwise_neighbours R l a b : pairwise R l -> (a, b) ∈ adjacent l -> R a b.
Proof.
  intros Hl (l1 & l2 & ->)%adjacent_elem_of.
  induction l1 as [|x l1 IH]; simpl in Hl.
  - destruct Hl as [Ha _]. apply Forall_cons in Ha as [[Hab _] _]. done.
  - destruct Hl as [_ Hl]. by apply IH.
Qed.

Lemma StronglySorted_pairwise (Q : A -> A -> Prop) R l :
  (forall a b, Q a b -> R a b /\ R b a) -> StronglySorted Q l -> pairwise R l.
Proof.
  intros HQ Hs. induction Hs as [|x l Hs IH Hx]; simpl; [done|].
  split; [|done]. eapply Forall_impl; [exact Hx|]. intros y Hy. by apply HQ.
Qed.

Lemma StronglySorted_and (Q Q' : A -> A -> Prop) l :
  StronglySorted Q l -> StronglySorted Q' l ->
  StronglySorted (fun a b => Q a b /\ Q' a b) l.
Proof.
  intros Hs. induction Hs as [|x l Hs IH Hx]; intros Hs'; [constructor|].
  apply StronglySorted_inv in Hs' as [Hs' Hx']. constructor; [by apply IH|].
  rewrite Forall_forall in Hx, Hx'. apply Forall_forall. intros y Hy.
  split; [by apply Hx|by apply Hx'].
Qed.

(** A property of the elements that share a key, from the same property
    of every group. *)
Lemma pairwise_by_key (key : A -> Z) (good : Z -> Prop) R l :
  (forall j, good j -> pairwise R (filter (fun x => key x = j) l)) ->
  pairwise (fun a b => good (key a) -> key a = key b -> R a b) l.
Proof.
  induction l as [|x l IH]; intros Hgroups; simpl; [done|]. split.
  - apply Forall_forall. intros y Hy.
    assert (Hxy : good (key x) -> key x = key y -> R x y /\ R y x).
    { intros Hgood Hk. specialize (Hgroups (key x) Hgood).
      rewrite filter_cons_True in Hgroups by done. destruct Hgroups as [Hx _].
      rewrite Forall_forall in Hx. apply Hx. by apply list_elem_of_filter. }
    split.
    + intros Hgood Hk. by apply Hxy.
    + intros Hgood Hk. apply Hxy; [by rewrite <- Hk|done].
  - apply IH. intros j Hj. specialize (Hgroups j Hj).
    rewrite filter_cons in Hgroups. destruct (decide (key x = j)); [|done].
    by destruct Hgroups.
Qed.
End Pairwise.

Lemma flat_map_nil_inv {A B} (f : A -> list B) l x :
  flat_map f l = [] -> x ∈ l -> f x = [].
Proof.
  induction l as [|y l IH]; simpl; [by intros _ ?%elem_of_nil|].
  intros [Hy Hl]%app_eq_nil [->|Hx]%elem_of_cons; [done|by apply IH].
Qed.

(** ** The validators *)

Lemma flagged_none_chain tasks :
  Forall (fun r => start r < end_ r) tasks ->
  flagged tasks = [] ->
  StronglySorted (fun a b => end_ a <= start b) tasks.
Proof.
  intros Hwf. induction tasks as [|x [|z tasks] IH]; intros Hnone.
  - constructor.
  - by repeat constructor.
  - unfold flagged in Hnone. rewrite adjacent_cons, filter_cons in Hnone.
    destruct (decide _) as [|Hxz]; [done|]. simpl in Hxz.
    apply Forall_cons in Hwf as [Hx Hwf].
    specialize (IH Hwf Hnone).
    constructor; [done|].
    apply StronglySorted_inv in IH as [_ Hz].
    apply Forall_cons in Hwf as [Hzwf _].
    apply Forall_cons. split; [lia|].
    eapply Forall_impl; [exact Hz|]. intros y Hy. simpl in *. lia.
Qed.

Lemma sorted_neighbours {A} (key : A -> Z) l a b :
  (a, b) ∈ adjacent (sorted_by key l) -> key a <= key b.
Proof.
  intros (l1 & l2 & E)%adjacent_elem_of.
  pose proof (sorted_by_sorted key l) as Hs. rewrite E in Hs.
  apply StronglySorted_app in Hs as (_ & _ & Hs).
  apply StronglySorted_cons in Hs as [Ha _].
  by apply Forall_cons in Ha as [Hab _].
Qed.

Lemma precedence_groups schedule j tasks :
  (j, tasks) ∈ group_by job id schedule [] ->
  tasks = filter (fun r => job r = j) schedule.
Proof.
  intros Hg. destruct (group_by_grouped job id schedule) as (_ & _ & Hgroups).
  destruct (Hgroups j tasks Hg) as [_ ->]. apply map_id.
Qed.

Lemma precedence_group_exists schedule r :
  r ∈ schedule -> exists tasks, (job r, tasks) ∈ group_by job id schedule [].
Proof.
  intros Hr. destruct (group_by_grouped job id schedule) as (_ & Hall & _).
  specialize (Hall r Hr).
  apply list_elem_of_fmap in Hall as ([j tasks] & -> & Hg). by exists tasks.
Qed.

(** C8 as stated fails in four ways: a schedule whose intervals within a
    job are disjoint but out of order is reported by
    [check_precedence_violations]; two overlapping tasks on machine 2 are not
    reported by [check_machine_conflicts]; of the overlapping pairs only
    neighbours in start order are reported; and a task of duration 0 is
    reported although its interval is empty. *)
Lemma validators_not_exact :
  (pairwise (fun a b => job a = job b -> ~ overlap a b) example_out_of_order /\
   check_precedence_violations example_out_of_order =
   Ok [(mk_entry 0 0 0 0 2 2, mk_entry 1 0 1 1 0 1)]) /\
  (overlap (mk_entry 0 0 0 2 0 3) (mk_entry 1 1 0 2 1 2) /\
   check_machine_conflicts example_other_machine = Ok []) /\
  (overlap (mk_entry 0 0 0 0 0 10) (mk_entry 2 2 0 0 3 1) /\
   check_machine_conflicts example_nested =
   Ok [(mk_entry 0 0 0 0 0 10, mk_entry 1 1 0 0 1 1)]) /\
  (pairwise (fun a b => machine a = machine b -> ~ overlap a b) example_zero_duration /\
   check_machine_conflicts example_zero_duration =
   Ok [(mk_entry 0 0 0 0 1 2, mk_entry 1 1 0 0 1 0)]).
Proof.
  repeat split; try reflexivity; try compute_done; simpl; lia.
Qed.

Section Validators.
Context (schedule : list entry).
Hypothesis Hwf : Forall (fun r => start r < end_ r) schedule.

Lemma machine_conflicts_members m a b :
  (a, b) ∈ flagged (sorted_by start (filter (fun t => machine t = m) schedule)) ->
  (a, b) ∈ adjacent (sorted_by start (filter (fun t => machine t = m) schedule)) /\
  a ∈ schedule /\ b ∈ schedule /\ machine a = m /\ machine b = m /\
  start a <= start b /\ start b < end_ a.
Proof.
  intros [Hadj Hflag]%flagged_elem_of. split; [done|].
  pose proof (sorted_neighbours _ _ _ _ Hadj) as Hle.
  apply adjacent_members in Hadj as [Ha Hb].
  rewrite sorted_by_perm in Ha, Hb.
  apply list_elem_of_filter in Ha as [Hma Ha], Hb as [Hmb Hb]. done.
Qed.

Lemma precedence_violations_members a b :
  (a, b) ∈ flat_map (fun g => flagged (sorted_by task_idx (snd g)))
             (group_by job id schedule []) ->
  exists j, (a, b) ∈ adjacent (sorted_by task_idx (filter (fun r => job r = j) schedule)) /\
  a ∈ schedule /\ b ∈ schedule /\ job a = j /\ job b = j /\
  task_idx a <= task_idx b /\ start b < end_ a.
Proof.
  intros ([j tasks] & Hg & Hflag)%elem_of_flat_map. simpl in Hflag.
  apply precedence_groups in Hg as ->. exists j.
  apply flagged_elem_of in Hflag as [Hadj Hflag]. split; [done|].
  pose proof (sorted_neighbours _ _ _ _ Hadj) as Hle.
  apply adjacent_members in Hadj as [Ha Hb].
  rewrite sorted_by_perm in Ha, Hb.
  apply list_elem_of_filter in Ha as [Hja Ha], Hb as [Hjb Hb]. done.
Qed.

Lemma wf_elem r : r ∈ schedule -> start r < end_ r.
Proof. intros Hr. rewrite Forall_forall in Hwf. by apply Hwf. Qed.

Lemma wf_sorted_filter {key : entry -> Z} (P : entry -> Prop)
    `{!forall x, Decision (P x)} :
  Forall (fun r => start r < end_ r) (sorted_by key (filter P schedule)).
Proof.
  rewrite sorted_by_perm. apply Forall_forall.
  intros r [_ Hr]%list_elem_of_filter. by apply wf_elem.
Qed.

Lemma machine_clean_no_conflicts :
  pairwise (fun a b => machine a = machine b -> ~ overlap a b) schedule ->
  flagged (sorted_by start (filter (fun t => machine t = 0) schedule)) ++
  flagged (sorted_by start (filter (fun t => machine t = 1) schedule)) = [].
Proof.
  intros Hclean. apply elem_of_nil_inv. intros [a b] Hin.
  apply elem_of_app in Hin as [Hin|Hin];
    apply machine_conflicts_members in Hin as (Hadj & Ha & Hb & Hma & Hmb & Hle & Hlt);
    (eapply pairwise_neighbours in Hadj;
       [|eapply pairwise_perm; [symmetry; apply sorted_by_perm|];
         apply pairwise_filter; exact Hclean]);
    (apply Hadj; [congruence|]); pose proof (wf_elem b Hb); unfold overlap; lia.
Qed.

Lemma precedence_clean_no_violations :
  pairwise (fun a b => job a = job b -> task_idx a <= task_idx b -> end_ a <= start b)
           schedule ->
  flat_map (fun g => flagged (sorted_by task_idx (snd g)))
    (group_by job id schedule []) = [].
Proof.
  intros Hclean. apply elem_of_nil_inv. intros [a b] Hin.
  apply precedence_violations_members in Hin
    as (j & Hadj & Ha & Hb & Hja & Hjb & Hle & Hlt).
  eapply pairwise_neighbours in Hadj;
    [|eapply pairwise_perm; [symmetry; apply sorted_by_perm|];
      apply pairwise_filter; exact Hclean].
  specialize (Hadj ltac:(congruence) Hle). lia.
Qed.

Lemma no_conflicts_machine_clean :
  flagged (sorted_by start (filter (fun t => machine t = 0) schedule)) ++
  flagged (sorted_by start (filter (fun t => machine t = 1) schedule)) = [] ->
  pairwise (fun a b => machine a = 0 \/ machine a = 1 ->
                       machine a = machine b -> ~ overlap a b) schedule.
Proof.
  intros [H0 H1]%app_eq_nil.
  apply (pairwise_by_key machine (fun j => j = 0 \/ j = 1) (fun a b => ~ overlap a b)).
  intros j Hj.
  assert (Hnone : flagged (sorted_by start (filter (fun t => machine t = j) schedule)) = [])
    by (by destruct Hj as [-> | ->]).
  apply (pairwise_perm _ _ _ (sorted_by_perm start _)).
  apply (StronglySorted_pairwise (fun a b => end_ a <= start b)).
  { intros a b Hab. unfold overlap. lia. }
  apply flagged_none_chain; [|done]. apply wf_sorted_filter.
Qed.

Lemma no_violations_precedence_clean :
  flat_map (fun g => flagged (sorted_by task_idx (snd g)))
    (group_by job id schedule []) = [] ->
  pairwise (fun a b => job a = job b -> task_idx a < task_idx b -> end_ a <= start b)
           schedule.
Proof.
  intros Hnone.
  apply (pairwise_impl (fun a b => True -> job a = job b ->
                          task_idx a < task_idx b -> end_ a <= start b)).
  { intros a b H. by apply H. }
  apply (pairwise_by_key job (fun _ => True)
           (fun a b => task_idx a < task_idx b -> end_ a <= start b)).
  intros j _.
  destruct (filter (fun r => job r = j) schedule) as [|r tasks] eqn:E; [done|].
  assert (Hr : r ∈ schedule /\ job r = j).
  { assert (r ∈ filter (fun r => job r = j) schedule) as Hr by (rewrite E; set_solver).
    apply list_elem_of_filter in Hr. tauto. }
  destruct Hr as [Hr <-].
  destruct (precedence_group_exists schedule r Hr) as [tasks' Hg].
  pose proof (flat_map_nil_inv _ _ _ Hnone Hg) as Hflag. simpl in Hflag.
  apply precedence_groups in Hg as ->. rewrite <- E.
  apply (pairwise_perm _ _ _ (sorted_by_perm task_idx _)).
  apply (StronglySorted_pairwise
           (fun a b => end_ a <= start b /\ task_idx a <= task_idx b)).
  { intros a b [Hab Hidx]. split; [done|]. lia. }
  apply StronglySorted_and; [|apply sorted_by_sorted].
  apply flagged_none_chain; [|done]. apply wf_sorted_filter.
Qed.
End Validators.

(** *** The exact results of the validators *)

Lemma flat_map_keys {A B} (f : Z * list A -> list B) (g : Z -> list B)
    (l : list (Z * list A)) :
  (forall x, x ∈ l -> f x = g (fst x)) -> flat_map f l = flat_map g (map fst l).
Proof.
  induction l as [|x l IH]; intros Hfg; simpl; [done|].
  rewrite Hfg by set_solver. f_equal. apply IH. intros y Hy. apply Hfg. set_solver.
Qed.

Lemma group_by_keys {A V} (key : A -> Z) (val : A -> V) l g :
  map fst (group_by key val l g) =
  fold_left (fun seen j => if decide (j ∈ seen) then seen else seen ++ [j])
    (map key l) (map fst g).
Proof.
  revert g. induction l as [|x l IH]; intros g; simpl; [done|].
  unfold group_by in IH. unfold group_by. simpl. by rewrite IH, group_append_keys.
Qed.

(** The jobs of the schedule, each once and in the order of their first
    entry, and what [check_precedence_violations] collects job by job. *)
Lemma precedence_jobs schedule :
  map fst (group_by job id schedule []) = first_seen (map job schedule) /\
  NoDup (first_seen (map job schedule)) /\
  (forall j, j ∈ first_seen (map job schedule) <-> exists r, r ∈ schedule /\ job r = j) /\
  flat_map (fun g => flagged (sorted_by task_idx (snd g))) (group_by job id schedule []) =
  flat_map (fun j => flagged (sorted_by task_idx (filter (fun r => job r = j) schedule)))
    (first_seen (map job schedule)).
Proof.
  assert (Hkeys : map fst (group_by job id schedule []) = first_seen (map job schedule))
    by apply group_by_keys.
  split; [done|]. rewrite <- Hkeys.
  destruct (group_by_grouped job id schedule) as (Hnodup & Hall & Hgroups).
  split; [done|]. split.
  - intros j. split.
    + intros ([j' tasks] & -> & Hg)%list_elem_of_fmap. simpl.
      destruct (Hgroups _ _ Hg) as [Hne ->]. rewrite map_id in Hne.
      destruct (filter (fun x => job x = j') schedule) as [|r tasks'] eqn:E; [done|].
      assert (r ∈ filter (fun x => job x = j') schedule) as Hr by (rewrite E; set_solver).
      apply list_elem_of_filter in Hr as [Hj Hr]. by exists r.
    + intros (r & Hr & <-). by apply Hall.
  - apply flat_map_keys. intros [j tasks] Hg. simpl.
    by rewrite (precedence_groups schedule j tasks Hg).
Qed.

Lemma flagged_neighbours tasks a b :
  (a, b) ∈ flagged tasks <->
  (exists l1 l2, tasks = l1 ++ a :: b :: l2) /\ start b < end_ a.
Proof. by rewrite flagged_elem_of, adjacent_elem_of. Qed.

Lemma machine_conflicts_neighbours schedule a b :
  (a, b) ∈ flagged (sorted_by start (filter (fun t => machine t = 0) schedule)) ++
           flagged (sorted_by start (filter (fun t => machine t = 1) schedule)) <->
  exists m l1 l2, (m = 0 \/ m = 1) /\
    sorted_by start (filter (fun t => machine t = m) schedule) = l1 ++ a :: b :: l2 /\
    start b < end_ a.
Proof.
  rewrite elem_of_app, !flagged_neighbours. split.
  - intros [[(l1 & l2 & E) Hlt]|[(l1 & l2 & E) Hlt]].
    + exists 0, l1, l2. tauto.
    + exists 1, l1, l2. tauto.
  - intros (m & l1 & l2 & [-> | ->] & E & Hlt); [left|right]; eauto.
Qed.

Lemma precedence_violations_neighbours schedule a b :
  (a, b) ∈ flat_map (fun g => flagged (sorted_by task_idx (snd g)))
             (group_by job id schedule []) <->
  exists j l1 l2,
    sorted_by task_idx (filter (fun r => job r = j) schedule) = l1 ++ a :: b :: l2 /\
    start b < end_ a.
Proof.
  destruct (precedence_jobs schedule) as (_ & _ & Hjobs & ->).
  rewrite elem_of_flat_map. split.
  - intros (j & _ & Hin). apply flagged_neighbours in Hin as [(l1 & l2 & E) Hlt].
    by exists j, l1, l2.
  - intros (j & l1 & l2 & E & Hlt). exists j. split.
    + apply Hjobs. exists a.
      assert (a ∈ sorted_by task_idx (filter (fun r => job r = j) schedule)) as Ha
        by (rewrite E; set_solver).
      rewrite sorted_by_perm in Ha. apply list_elem_of_filter in Ha. tauto.
    + apply flagged_neighbours. eauto.
Qed.

Lemma sorted_by_two {A} (key : A -> Z) (a b : A) :
  key a < key b -> sorted_by key [a; b] = [a; b] /\ sorted_by key [b; a] = [a; b].
Proof.
  intros Hlt. unfold sorted_by. simpl.
  destruct (Z.leb_spec (key a) (key b)); [|lia].
  destruct (Z.leb_spec (key b) (key a)); [lia|done].
Qed.

Lemma flagged_two a b : start b < end_ a -> flagged [a; b] = [(a, b)].
Proof. intros Hlt. unfold flagged, adjacent. simpl. by rewrite filter_cons_True. Qed.

(** Two entries of one machine of which the second starts while the first
    runs: reported, as the one pair, exactly when the machine is 0 or 1. *)
Lemma machine_conflicts_two_entries schedule a b :
  schedule = [a; b] \/ schedule = [b; a] ->
  machine a = machine b -> start a < start b -> start b < end_ a ->
  flagged (sorted_by start (filter (fun t => machine t = 0) schedule)) ++
  flagged (sorted_by start (filter (fun t => machine t = 1) schedule)) =
  if decide (machine a = 0 \/ machine a = 1) then [(a, b)] else [].
Proof.
  intros Hs Hm Hab Hba.
  destruct (sorted_by_two start a b Hab) as [Eab Eba].
  assert (Hfilter : forall m,
            sorted_by start (filter (fun t => machine t = m) schedule) =
            if decide (machine a = m) then [a; b] else []).
  { intros m. destruct Hs as [-> | ->]; rewrite !filter_cons, filter_nil, <- Hm;
      destruct (decide (machine a = m)); done. }
  rewrite !Hfilter.
  destruct (decide (machine a = 0)) as [H0|H0], (decide (machine a = 1)) as [H1|H1];
    try lia.
  - rewrite decide_True by tauto. by rewrite flagged_two.
  - rewrite decide_True by tauto. by rewrite flagged_two.
  - rewrite decide_False by tauto. done.
Qed.

(** C8, amended.  Both validators return on every schedule, and their
    results are known exactly.  [check_machine_conflicts] looks at the
    entries of machine 0, then at those of machine 1, each sorted by start
    (stably), and reports every pair of neighbours of which the first ends
    after the second starts, in that order and nothing else.
    [check_precedence_violations] does the same job by job, the jobs in the
    order of their first entry, with the entries sorted by operation index.
    Two entries of one machine of which the second starts while the first
    runs, alone in a schedule, are reported as the one pair when the machine
    is 0 or 1 and not at all on any other machine.

    On a schedule whose entries all have [start < end]:
    [check_machine_conflicts] returns the empty list when no two entries of
    one machine overlap; [check_precedence_violations] returns the empty
    list when, within every job, an entry ends no later than every entry of
    an equal or larger operation index starts; every pair that is reported
    is a pair of entries of the schedule, of one machine (resp. job), that
    truly overlap (resp. in operation order, the second starting before the
    first ends); and a schedule with two overlapping entries on machine 0 or
    on machine 1 (resp. with an entry starting before an entry of a smaller
    operation index of its job ends) never gets the empty list. *)
Theorem validators_spec schedule :
  exists conflicts violations,
    check_machine_conflicts schedule = Ok conflicts /\
    check_precedence_violations schedule = Ok violations /\
    conflicts =
      flagged (sorted_by start (filter (fun t => machine t = 0) schedule)) ++
      flagged (sorted_by start (filter (fun t => machine t = 1) schedule)) /\
    violations =
      flat_map (fun j => flagged (sorted_by task_idx (filter (fun r => job r = j) schedule)))
        (first_seen (map job schedule)) /\
    (forall a b, (a, b) ∈ conflicts <->
       exists m l1 l2, (m = 0 \/ m = 1) /\
         sorted_by start (filter (fun t => machine t = m) schedule) = l1 ++ a :: b :: l2 /\
         start b < end_ a) /\
    (forall a b, (a, b) ∈ violations <->
       exists j l1 l2,
         sorted_by task_idx (filter (fun r => job r = j) schedule) = l1 ++ a :: b :: l2 /\
         start b < end_ a) /\
    (forall a b, schedule = [a; b] \/ schedule = [b; a] ->
       machine a = machine b -> start a < start b -> start b < end_ a ->
       conflicts = if decide (machine a = 0 \/ machine a = 1) then [(a, b)] else []) /\
    (Forall (fun r => start r < end_ r) schedule ->
     (pairwise (fun a b => machine a = machine b -> ~ overlap a b) schedule ->
      conflicts = []) /\
     (pairwise (fun a b => job a = job b -> task_idx a <= task_idx b ->
                           end_ a <= start b) schedule ->
      violations = []) /\
     (forall a b, (a, b) ∈ conflicts ->
        a ∈ schedule /\ b ∈ schedule /\ machine a = machine b /\
        start a <= start b /\ overlap a b) /\
     (forall a b, (a, b) ∈ violations ->
        a ∈ schedule /\ b ∈ schedule /\ job a = job b /\
        task_idx a <= task_idx b /\ start b < end_ a) /\
     (conflicts = [] ->
      pairwise (fun a b => machine a = 0 \/ machine a = 1 ->
                           machine a = machine b -> ~ overlap a b) schedule) /\
     (violations = [] ->
      pairwise (fun a b => job a = job b -> task_idx a < task_idx b ->
                           end_ a <= start b) schedule)).
Proof.
  eexists _, _.
  split; [apply check_machine_conflicts_eq|].
  split; [apply check_precedence_violations_eq|].
  split; [done|].
  split; [apply precedence_jobs|].
  split; [apply machine_conflicts_neighbours|].
  split; [apply precedence_violations_neighbours|].
  split; [apply machine_conflicts_two_entries|].
  intros Hwf.
  split; [by apply machine_clean_no_conflicts|].
  split; [by apply precedence_clean_no_violations|].
  split; [|split; [|split]].
  - intros a b [Hin|Hin]%elem_of_app;
      apply machine_conflicts_members in Hin as (_ & Ha & Hb & Hma & Hmb & Hle & Hlt);
      pose proof (wf_elem schedule Hwf b Hb);
      (repeat split; [done|done|congruence|done|lia|done]).
  - intros a b Hin.
    apply precedence_violations_members in Hin
      as (j & _ & Ha & Hb & Hja & Hjb & Hle & Hlt).
    repeat split; [done|done|congruence|done|done].
  - by apply no_conflicts_machine_clean.
  - by apply no_violations_precedence_clean.
Qed.

(** The scenario of the specification: tasks of durations 3 and 2 on one
    machine, started at 0 and 1, are reported as the one conflict. *)
Example check_machine_conflicts_scenario :
  check_machine_conflicts example_conflict =
  Ok [(mk_entry 0 0 0 0 0 3, mk_entry 1 1 0 0 1 2)].
Proof. reflexivity. Qed.

Lemma validators_spec_witness :
  Forall (fun r => start r < end_ r) example_conflict /\
  exists conflicts,
    check_machine_conflicts example_conflict = Ok conflicts /\
    conflicts = [(mk_entry 0 0 0 0 0 3, mk_entry 1 1 0 0 1 2)] /\
    ~ pairwise (fun a b => machine a = machine b -> ~ overlap a b) example_conflict.
Proof.
  split; [compute_done|].
  destruct (validators_spec example_conflict)
    as (conflicts & violations & Hc & _ & _ & _ & _ & _ & Hpair & Hwf).
  destruct Hwf as (Hclean & _); [compute_done|].
  assert (E : conflicts = [(mk_entry 0 0 0 0 0 3, mk_entry 1 1 0 0 1 2)]).
  { rewrite (Hpair (mk_entry 0 0 0 0 0 3) (mk_entry 1 1 0 0 1 2));
      [reflexivity|by left|reflexivity|simpl; lia|simpl; lia]. }
  exists conflicts. split; [exact Hc|]. split; [exact E|].
  intros Hnone. apply Hclean in Hnone. rewrite E in Hnone. discriminate.
Defined.


(** ** Which exception a loop raises *)

Section Outcomes.
Context {St : Type} (Inv : St -> Prop).
Implicit Types (b : St -> res St).

Lemma returns_ret : returns Inv Ok.
Proof. intros s Hs. by exists s. Qed.

Lemma returns_bind b1 b2 :
  returns Inv b1 -> returns Inv b2 -> returns Inv (fun s => s' ← b1 s; b2 s').
Proof.
  intros H1 H2 s Hs. destruct (H1 s Hs) as (s1 & -> & Hs1). simpl. by apply H2.
Qed.

Lemma returns_for_each {A} (l : list A) (body : A -> St -> res St) :
  (forall x, x ∈ l -> returns Inv (body x)) -> returns Inv (for_each l body).
Proof.
  induction l as [|x l IH]; intros Hbody; [apply returns_ret|].
  simpl. apply (returns_bind (body x) (for_each l body)).
  - apply Hbody. set_solver.
  - apply IH. intros y Hy. apply Hbody. set_solver.
Qed.

Lemma returns_raises_at_most e b : returns Inv b -> raises_at_most e Inv b.
Proof. intros Hb s Hs. right. by apply Hb. Qed.

Lemma always_raises_at_most e b : always_raises e Inv b -> raises_at_most e Inv b.
Proof. intros Hb s Hs. left. by apply Hb. Qed.

Lemma raises_at_most_bind e b1 b2 :
  raises_at_most e Inv b1 -> raises_at_most e Inv b2 ->
  raises_at_most e Inv (fun s => s' ← b1 s; b2 s').
Proof.
  intros H1 H2 s Hs. destruct (H1 s Hs) as [->|(s1 & -> & Hs1)]; [by left|].
  simpl. by apply H2.
Qed.

Lemma raises_at_most_for_each {A} e (l : list A) (body : A -> St -> res St) :
  (forall x, x ∈ l -> raises_at_most e Inv (body x)) ->
  raises_at_most e Inv (for_each l body).
Proof.
  induction l as [|x l IH]; intros Hbody.
  - apply returns_raises_at_most, returns_ret.
  - simpl. apply (raises_at_most_bind e (body x) (for_each l body)).
    + apply Hbody. set_solver.
    + apply IH. intros y Hy. apply Hbody. set_solver.
Qed.

Lemma always_raises_bind_l e b1 b2 :
  always_raises e Inv b1 -> always_raises e Inv (fun s => s' ← b1 s; b2 s').
Proof. intros H1 s Hs. by rewrite H1. Qed.

Lemma always_raises_bind_r e b1 b2 :
  raises_at_most e Inv b1 -> always_raises e Inv b2 ->
  always_raises e Inv (fun s => s' ← b1 s; b2 s').
Proof.
  intros H1 H2 s Hs. destruct (H1 s Hs) as [->|(s1 & -> & Hs1)]; [done|].
  simpl. by apply H2.
Qed.

(** A loop raises [e] as soon as one iteration does and the others can
    raise nothing else. *)
Lemma always_raises_for_each {A} e (l : list A) (body : A -> St -> res St) x0 :
  (forall x, x ∈ l -> raises_at_most e Inv (body x)) ->
  x0 ∈ l -> always_raises e Inv (body x0) ->
  always_raises e Inv (for_each l body).
Proof.
  induction l as [|x l IH]; intros Hbody Hin Hx0; [by apply elem_of_nil in Hin|].
  simpl. apply elem_of_cons in Hin as [<-|Hin].
  - by apply (always_raises_bind_l e (body x0) (for_each l body)).
  - apply (always_raises_bind_r e (body x) (for_each l body)).
    + apply Hbody. set_solver.
    + apply IH; [|done|done]. intros y Hy. apply Hbody. set_solver.
Qed.
End Outcomes.

Lemma returns_add_at n i j v :
  (i < n)%nat -> (j < n)%nat -> returns (square n) (fun M => add_at M i j v).
Proof.
  intros Hi Hj M HM. destruct (add_at_ok n M i j v HM Hi Hj) as (M' & HM' & Hsq & _).
  by exists M'.
Qed.

Lemma always_raises_add_at n i j v :
  ~ ((i < n)%nat /\ (j < n)%nat) ->
  always_raises IndexError (square n) (fun M => add_at M i j v).
Proof. intros Hout M HM. by eapply add_at_out_of_range. Qed.

Lemma raises_at_most_add_at n i j v :
  raises_at_most IndexError (square n) (fun M => add_at M i j v).
Proof.
  destruct (decide ((i < n)%nat /\ (j < n)%nat)) as [[Hi Hj]|Hout].
  - by apply returns_raises_at_most, returns_add_at.
  - by apply always_raises_at_most, always_raises_add_at.
Qed.

(** ** Exceptions of the builders *)

Section BuilderExceptions.
Context (n : nat) (var_index : gmap (nat * nat) nat) (task_map : task_dict)
        (num_tasks T_max : nat).
Hypothesis Hrange : index_in_range n var_index.

Lemma unique_start_task_raises_at_most penalty k :
  raises_at_most KeyError (square n) (fun M =>
    for_each (range T_max) (fun t1 M =>
      idx_1 ← subscript var_index (k, t1);
      M ← add_at M idx_1 idx_1 (- penalty);
      for_each (range_from (t1 + 1) T_max) (fun t2 M =>
        if negb (Nat.eqb t1 t2) then
          idx_2 ← subscript var_index (k, t2);
          add_at M idx_1 idx_2 penalty
        else Ok M) M) M).
Proof.
  apply raises_at_most_for_each; intros t1 _.
  destruct (var_index !! (k, t1)) as [i1|] eqn:E1;
    [rewrite (subscript_lookup _ _ _ E1); simpl
    |rewrite (subscript_missing _ _ E1); apply always_raises_at_most; by intros M HM].
  pose proof (index_in_range_lookup _ _ _ _ Hrange E1) as Hi1.
  apply (raises_at_most_bind (square n) KeyError (fun M => add_at M i1 i1 (- penalty))).
  { by apply returns_raises_at_most, returns_add_at. }
  apply raises_at_most_for_each; intros t2 _.
  destruct (negb (t1 =? t2)%nat); [|apply returns_raises_at_most, returns_ret].
  destruct (var_index !! (k, t2)) as [i2|] eqn:E2;
    [rewrite (subscript_lookup _ _ _ E2); simpl
    |rewrite (subscript_missing _ _ E2); apply always_raises_at_most; by intros M HM].
  pose proof (index_in_range_lookup _ _ _ _ Hrange E2) as Hi2.
  by apply returns_raises_at_most, returns_add_at.
Qed.

Lemma unique_start_missing_key penalty k t :
  (k < num_tasks)%nat -> (t < T_max)%nat -> var_index !! (k, t) = None ->
  always_raises KeyError (square n)
    (fun M => apply_unique_start_constraint M var_index num_tasks T_max penalty).
Proof.
  intros Hk Ht Hmiss. unfold apply_unique_start_constraint.
  apply (always_raises_for_each (square n) KeyError (range num_tasks) _ k);
    [|by apply elem_of_range|].
  - intros k' _. apply unique_start_task_raises_at_most.
  - apply (always_raises_for_each (square n) KeyError (range T_max) _ t);
      [|by apply elem_of_range|].
    + intros t1 _.
      destruct (var_index !! (k, t1)) as [i1|] eqn:E1;
        [rewrite (subscript_lookup _ _ _ E1); simpl
        |rewrite (subscript_missing _ _ E1); apply always_raises_at_most;
         by intros M HM].
      pose proof (index_in_range_lookup _ _ _ _ Hrange E1) as Hi1.
      apply (raises_at_most_bind (square n) KeyError
               (fun M => add_at M i1 i1 (- penalty))).
      { by apply returns_raises_at_most, returns_add_at. }
      apply raises_at_most_for_each; intros t2 _.
      destruct (negb (t1 =? t2)%nat); [|apply returns_raises_at_most, returns_ret].
      destruct (var_index !! (k, t2)) as [i2|] eqn:E2;
        [rewrite (subscript_lookup _ _ _ E2); simpl
        |rewrite (subscript_missing _ _ E2); apply always_raises_at_most;
         by intros M HM].
      pose proof (index_in_range_lookup _ _ _ _ Hrange E2) as Hi2.
      by apply returns_raises_at_most, returns_add_at.
    + intros M HM. by rewrite (subscript_missing _ _ Hmiss).
Qed.

Lemma raises_at_most_subscript key (b : nat -> matrix -> res matrix) :
  (forall idx, var_index !! key = Some idx -> raises_at_most KeyError (square n) (b idx)) ->
  raises_at_most KeyError (square n) (fun M => idx ← subscript var_index key; b idx M).
Proof.
  intros Hb. destruct (var_index !! key) as [idx|] eqn:E.
  - rewrite (subscript_lookup _ _ _ E). simpl. by apply Hb.
  - rewrite (subscript_missing _ _ E). apply always_raises_at_most. by intros M HM.
Qed.

Lemma machine_conflict_slots_raise_at_most penalty k1 d1 k2 :
  raises_at_most KeyError (square n) (fun M =>
    for_each (range T_max) (fun t1 M =>
      for_each (range T_max) (fun t2 M =>
        if (0 <? Z.of_nat t2 - Z.of_nat t1) && (Z.of_nat t2 - Z.of_nat t1 <? d1) then
          idx_1 ← subscript var_index (k1, t1);
          idx_2 ← subscript var_index (k2, t2);
          add_at M idx_1 idx_2 penalty
        else Ok M) M) M).
Proof.
  apply raises_at_most_for_each; intros t1 _.
  apply raises_at_most_for_each; intros t2 _.
  destruct (_ && _); [|apply returns_raises_at_most, returns_ret].
  apply raises_at_most_subscript; intros i1 E1.
  apply raises_at_most_subscript; intros i2 E2.
  apply returns_raises_at_most, returns_add_at; by eapply index_in_range_lookup.
Qed.

Lemma machine_conflict_pair_raises_at_most penalty k1 m1 d1 k2 m2 :
  raises_at_most KeyError (square n) (fun M =>
    if Nat.eqb k1 k2 then Ok M
    else if negb (m1 =? m2) then Ok M
    else
      for_each (range T_max) (fun t1 M =>
        for_each (range T_max) (fun t2 M =>
          if (0 <? Z.of_nat t2 - Z.of_nat t1) && (Z.of_nat t2 - Z.of_nat t1 <? d1) then
            idx_1 ← subscript var_index (k1, t1);
            idx_2 ← subscript var_index (k2, t2);
            add_at M idx_1 idx_2 penalty
          else Ok M) M) M).
Proof.
  destruct (k1 =? k2)%nat; [apply returns_raises_at_most, returns_ret|].
  destruct (negb (m1 =? m2)); [apply returns_raises_at_most, returns_ret|].
  apply machine_conflict_slots_raise_at_most.
Qed.

Lemma machine_conflict_missing_key penalty k1 j1 o1 m1 d1 k2 j2 o2 m2 d2 t1 t2 :
  (k1, (j1, o1, m1, d1)) ∈ task_map -> (k2, (j2, o2, m2, d2)) ∈ task_map ->
  k1 <> k2 -> m1 = m2 -> (t1 < T_max)%nat -> (t2 < T_max)%nat ->
  0 < Z.of_nat t2 - Z.of_nat t1 < d1 ->
  var_index !! (k1, t1) = None \/ var_index !! (k2, t2) = None ->
  always_raises KeyError (square n)
    (fun M => apply_machine_conflict_constraint M var_index task_map T_max penalty).
Proof.
  intros H1 H2 Hk Hm Ht1 Ht2 Hcond Hmiss. unfold apply_machine_conflict_constraint.
  apply (always_raises_for_each (square n) KeyError task_map _ (k1, (j1, o1, m1, d1)));
    [|done|].
  { intros [k1' [[[j1' o1'] m1'] d1']] _.
    apply raises_at_most_for_each. intros [k2' [[[j2' o2'] m2'] d2']] _.
    apply machine_conflict_pair_raises_at_most. }
  apply (always_raises_for_each (square n) KeyError task_map _ (k2, (j2, o2, m2, d2)));
    [|done|].
  { intros [k2' [[[j2' o2'] m2'] d2']] _.
    apply machine_conflict_pair_raises_at_most. }
  replace (k1 =? k2)%nat with false by (symmetry; by apply Nat.eqb_neq).
  replace (m1 =? m2) with true by (symmetry; by apply Z.eqb_eq).
  cbn [negb].
  apply (always_raises_for_each (square n) KeyError (range T_max) _ t1);
    [|by apply elem_of_range|].
  { intros t _. apply raises_at_most_for_each; intros t' _.
    destruct (_ && _); [|apply returns_raises_at_most, returns_ret].
    apply raises_at_most_subscript; intros i1 E1.
    apply raises_at_most_subscript; intros i2 E2.
    apply returns_raises_at_most, returns_add_at; by eapply index_in_range_lookup. }
  apply (always_raises_for_each (square n) KeyError (range T_max) _ t2);
    [|by apply elem_of_range|].
  { intros t' _.
    destruct (_ && _); [|apply returns_raises_at_most, returns_ret].
    apply raises_at_most_subscript; intros i1 E1.
    apply raises_at_most_subscript; intros i2 E2.
    apply returns_raises_at_most, returns_add_at; by eapply index_in_range_lookup. }
  intros M HM.
  replace (0 <? Z.of_nat t2 - Z.of_nat t1) with true by (symmetry; apply Z.ltb_lt; lia).
  replace (Z.of_nat t2 - Z.of_nat t1 <? d1) with true by (symmetry; apply Z.ltb_lt; lia).
  cbn [andb].
  destruct (var_index !! (k1, t1)) as [i1|] eqn:E1.
  - destruct Hmiss as [Hmiss|Hmiss]; [done|].
    by rewrite (subscript_lookup _ _ _ E1), (subscript_missing _ _ Hmiss).
  - by rewrite (subscript_missing _ _ E1).
Qed.

Lemma machine_conflict_returns penalty :
  machine_conflict_reads var_index task_map T_max ->
  returns (square n)
    (fun M => apply_machine_conflict_constraint M var_index task_map T_max penalty).
Proof.
  intros Hreads. unfold apply_machine_conflict_constraint.
  apply returns_for_each; intros [k1 [[[j1 o1] m1] d1]] H1.
  apply returns_for_each; intros [k2 [[[j2 o2] m2] d2]] H2.
  destruct (k1 =? k2)%nat eqn:Ek; [apply returns_ret|]. apply Nat.eqb_neq in Ek.
  destruct (m1 =? m2) eqn:Em; [|apply returns_ret]. apply Z.eqb_eq in Em. cbn [negb].
  apply returns_for_each; intros t1 Ht1. apply returns_for_each; intros t2 Ht2.
  apply elem_of_range in Ht1, Ht2.
  destruct (Z.ltb_spec 0 (Z.of_nat t2 - Z.of_nat t1)); [|apply returns_ret].
  destruct (Z.ltb_spec (Z.of_nat t2 - Z.of_nat t1) d1); [|apply returns_ret].
  cbn [andb].
  destruct (Hreads k1 j1 o1 m1 d1 k2 j2 o2 m2 d2 t1 t2) as [[i1 E1] [i2 E2]];
    [done..|lia|].
  rewrite (subscript_lookup _ _ _ E1), (subscript_lookup _ _ _ E2). simpl.
  apply returns_add_at; by eapply index_in_range_lookup.
Qed.

Lemma makespan_task_raises_at_most weight k :
  raises_at_most KeyError (square n) (fun M =>
    '(_, _, _, duration) ← dict_subscript task_map k;
    for_each (range T_max) (fun t M =>
      idx ← subscript var_index (k, t);
      add_at M idx idx (weight * (Z.of_nat t + duration))) M).
Proof.
  unfold dict_subscript. destruct (dict_lookup task_map k) as [[[[j o] m] d]|]; simpl.
  - apply raises_at_most_for_each; intros t _.
    apply raises_at_most_subscript; intros i E.
    apply returns_raises_at_most, returns_add_at; by eapply index_in_range_lookup.
  - apply always_raises_at_most. by intros M HM.
Qed.

Lemma makespan_missing_task weight k :
  (k < num_tasks)%nat -> dict_lookup task_map k = None ->
  always_raises KeyError (square n)
    (fun M => apply_makespan_objective M var_index task_map num_tasks T_max weight).
Proof.
  intros Hk Hmiss. unfold apply_makespan_objective.
  apply (always_raises_for_each (square n) KeyError (range num_tasks) _ k);
    [|by apply elem_of_range|].
  - intros k' _. apply makespan_task_raises_at_most.
  - intros M HM. unfold dict_subscript. by rewrite Hmiss.
Qed.

Lemma makespan_missing_key weight k t :
  (k < num_tasks)%nat -> (t < T_max)%nat -> var_index !! (k, t) = None ->
  always_raises KeyError (square n)
    (fun M => apply_makespan_objective M var_index task_map num_tasks T_max weight).
Proof.
  intros Hk Ht Hmiss. unfold apply_makespan_objective.
  apply (always_raises_for_each (square n) KeyError (range num_tasks) _ k);
    [|by apply elem_of_range|].
  - intros k' _. apply makespan_task_raises_at_most.
  - unfold dict_subscript.
    destruct (dict_lookup task_map k) as [[[[j o] m] d]|]; simpl; [|by intros M HM].
    apply (always_raises_for_each (square n) KeyError (range T_max) _ t);
      [|by apply elem_of_range|].
    + intros t' _. apply raises_at_most_subscript; intros i E.
      apply returns_raises_at_most, returns_add_at; by eapply index_in_range_lookup.
    + intros M HM. by rewrite (subscript_missing _ _ Hmiss).
Qed.
End BuilderExceptions.

(** X1.  On a square array and an in-range variable index,
    [apply_unique_start_constraint] returns when every candidate (task,
    time) has an index, and raises [KeyError] as soon as one candidate has
    none. *)
Theorem unique_start_returns_or_key_error n var_index num_tasks T_max penalty M :
  square n M ->
  index_in_range n var_index ->
  (index_total var_index (range num_tasks) T_max ->
   exists M', apply_unique_start_constraint M var_index num_tasks T_max penalty = Ok M' /\
              square n M') /\
  (forall k t, (k < num_tasks)%nat -> (t < T_max)%nat -> var_index !! (k, t) = None ->
     apply_unique_start_constraint M var_index num_tasks T_max penalty = Raise KeyError).
Proof.
  intros HM Hrange. split.
  - intros Htot.
    destruct (contributes_unique_start n var_index num_tasks T_max penalty Htot Hrange M HM)
      as (M' & HM' & Hsq & _).
    by exists M'.
  - intros k t Hk Ht Hmiss.
    by apply (unique_start_missing_key n var_index num_tasks T_max Hrange penalty k t).
Qed.

Lemma unique_start_returns_or_key_error_witness :
  apply_unique_start_constraint (zeros 3) example_partial_index 2 2 10 = Raise KeyError.
Proof.
  destruct (unique_start_returns_or_key_error 3 example_partial_index 2 2 10 (zeros 3))
    as [_ Hmiss]; [compute_done..|].
  apply (Hmiss 1%nat 1%nat); [lia|lia|reflexivity].
Defined.

(** X2.  On a square array and an in-range variable index,
    [apply_machine_conflict_constraint] returns when the candidates it
    looks up - those of two distinct tasks of one machine at times with
    [0 < t2 - t1 < d1] - all have an index, and raises [KeyError] as soon
    as one of them has none. *)
Theorem machine_conflict_returns_or_key_error n var_index task_map T_max penalty M :
  square n M ->
  index_in_range n var_index ->
  (machine_conflict_reads var_index task_map T_max ->
   exists M', apply_machine_conflict_constraint M var_index task_map T_max penalty = Ok M' /\
              square n M') /\
  (forall k1 j1 o1 m1 d1 k2 j2 o2 m2 d2 t1 t2,
     (k1, (j1, o1, m1, d1)) ∈ task_map -> (k2, (j2, o2, m2, d2)) ∈ task_map ->
     k1 <> k2 -> m1 = m2 -> (t1 < T_max)%nat -> (t2 < T_max)%nat ->
     0 < Z.of_nat t2 - Z.of_nat t1 < d1 ->
     var_index !! (k1, t1) = None \/ var_index !! (k2, t2) = None ->
     apply_machine_conflict_constraint M var_index task_map T_max penalty = Raise KeyError).
Proof.
  intros HM Hrange. split.
  - intros Hreads.
    by apply (machine_conflict_returns n var_index task_map T_max Hrange penalty Hreads).
  - intros k1 j1 o1 m1 d1 k2 j2 o2 m2 d2 t1 t2 H1 H2 Hk Hm Ht1 Ht2 Hcond Hmiss.
    by apply (machine_conflict_missing_key n var_index task_map T_max Hrange penalty
                k1 j1 o1 m1 d1 k2 j2 o2 m2 d2 t1 t2).
Qed.

Lemma machine_conflict_returns_or_key_error_witness :
  apply_machine_conflict_constraint (zeros 3) example_partial_index example_tasks 2 7
  = Raise KeyError.
Proof.
  destruct (machine_conflict_returns_or_key_error 3 example_partial_index example_tasks 2 7
              (zeros 3)) as [_ Hmiss]; [compute_done..|].
  apply (Hmiss 0%nat 0 0 0 2 1%nat 0 1 0 1 0%nat 1%nat);
    first [compute_done | lia | by right].
Defined.

(** X3.  On a square array and an in-range variable index,
    [apply_makespan_objective] returns when every expected task is in the
    task map and every candidate has an index.  It raises [KeyError] when an
    expected task is missing from the task map - even with an empty horizon,
    since the duration is read before the time loop - or when a candidate
    has no index. *)
Theorem makespan_returns_or_key_error n var_index task_map num_tasks T_max weight M :
  square n M ->
  index_in_range n var_index ->
  (tasks_defined task_map num_tasks -> index_total var_index (range num_tasks) T_max ->
   exists M', apply_makespan_objective M var_index task_map num_tasks T_max weight = Ok M' /\
              square n M') /\
  (forall k, (k < num_tasks)%nat -> dict_lookup task_map k = None ->
     apply_makespan_objective M var_index task_map num_tasks T_max weight = Raise KeyError) /\
  (forall k t, (k < num_tasks)%nat -> (t < T_max)%nat -> var_index !! (k, t) = None ->
     apply_makespan_objective M var_index task_map num_tasks T_max weight = Raise KeyError).
Proof.
  intros HM Hrange. split; [|split].
  - intros Htasks Htot.
    destruct (contributes_makespan n var_index task_map num_tasks T_max weight
                Htot Hrange Htasks M HM) as (M' & HM' & Hsq & _).
    by exists M'.
  - intros k Hk Hmiss.
    by apply (makespan_missing_task n var_index task_map num_tasks T_max Hrange weight k).
  - intros k t Hk Ht Hmiss.
    by apply (makespan_missing_key n var_index task_map num_tasks T_max Hrange weight k t).
Qed.

Lemma makespan_returns_or_key_error_witness :
  apply_makespan_objective (zeros 4) example_index [] 1 0 3 = Raise KeyError.
Proof.
  destruct (makespan_returns_or_key_error 4 example_index [] 1 0 3 (zeros 4))
    as (_ & Hmiss & _); [compute_done..|].
  apply (Hmiss 0%nat); [lia|reflexivity].
Defined.

Section IndexErrors.
Context (n : nat) (var_index : gmap (nat * nat) nat) (num_tasks T_max : nat).
Hypothesis Htotal : index_total var_index (range num_tasks) T_max.

Lemma unique_start_slot_raises_at_most_index penalty k t1 :
  (k < num_tasks)%nat -> (t1 < T_max)%nat ->
  raises_at_most IndexError (square n) (fun M =>
    idx_1 ← subscript var_index (k, t1);
    M ← add_at M idx_1 idx_1 (- penalty);
    for_each (range_from (t1 + 1) T_max) (fun t2 M =>
      if negb (Nat.eqb t1 t2) then
        idx_2 ← subscript var_index (k, t2);
        add_at M idx_1 idx_2 penalty
      else Ok M) M).
Proof.
  intros Hk Ht1.
  destruct (index_total_lookup _ _ _ k t1 Htotal) as (i1 & E1 & _);
    [by apply elem_of_range|done|].
  rewrite (subscript_lookup _ _ _ E1). simpl.
  apply (raises_at_most_bind (square n) IndexError (fun M => add_at M i1 i1 (- penalty))).
  { apply raises_at_most_add_at. }
  apply raises_at_most_for_each; intros t2 Ht2. apply elem_of_range_from in Ht2.
  destruct (negb (t1 =? t2)%nat); [|apply returns_raises_at_most, returns_ret].
  destruct (index_total_lookup _ _ _ k t2 Htotal) as (i2 & E2 & _);
    [by apply elem_of_range|lia|].
  rewrite (subscript_lookup _ _ _ E2). simpl. apply raises_at_most_add_at.
Qed.

Lemma unique_start_index_error penalty k t idx :
  (k < num_tasks)%nat -> (t < T_max)%nat ->
  var_index !! (k, t) = Some idx -> (n <= idx)%nat ->
  always_raises IndexError (square n)
    (fun M => apply_unique_start_constraint M var_index num_tasks T_max penalty).
Proof.
  intros Hk Ht Hidx Hbig. unfold apply_unique_start_constraint.
  apply (always_raises_for_each (square n) IndexError (range num_tasks) _ k);
    [|by apply elem_of_range|].
  - intros k' Hk'. apply elem_of_range in Hk'.
    apply raises_at_most_for_each. intros t1 Ht1. apply elem_of_range in Ht1.
    by apply unique_start_slot_raises_at_most_index.
  - apply (always_raises_for_each (square n) IndexError (range T_max) _ t);
      [|by apply elem_of_range|].
    + intros t1 Ht1. apply elem_of_range in Ht1.
      by apply unique_start_slot_raises_at_most_index.
    + rewrite (subscript_lookup _ _ _ Hidx). simpl.
      apply (always_raises_bind_l (square n) IndexError
               (fun M => add_at M idx idx (- penalty))).
      apply always_raises_add_at. lia.
Qed.
End IndexErrors.

(** X4.  When every candidate has an index but one of these indices is not
    below [num_vars], the matrix assembly of [solve_and_visualize_jssp] raises
    [IndexError]: the first pass already writes outside the array. *)
Theorem build_qubo_index_error cfg num_vars var_index task_map num_tasks T_max k t idx :
  index_total var_index (range num_tasks) T_max ->
  (k < num_tasks)%nat -> (t < T_max)%nat ->
  var_index !! (k, t) = Some idx -> (num_vars <= idx)%nat ->
  build_qubo cfg num_vars var_index task_map num_tasks T_max source_order
  = Raise IndexError.
Proof.
  intros Htot Hk Ht Hidx Hbig. unfold build_qubo, source_order. cbn [for_each apply_builder].
  rewrite (unique_start_index_error num_vars var_index num_tasks T_max Htot
             (one_hot cfg) k t idx Hk Ht Hidx Hbig (zeros num_vars)); [done|].
  apply square_zeros.
Qed.

Lemma build_qubo_index_error_witness :
  build_qubo example_config 3 example_index example_tasks 2 2 source_order
  = Raise IndexError.
Proof.
  apply (build_qubo_index_error example_config 3 example_index example_tasks 2 2
           1%nat 1%nat 3%nat); first [compute_done | lia | reflexivity].
Defined.

(** ** Exceptions of the extractor *)

Section ExtractorExceptions.
Context (result : list Q) (var_index : gmap (nat * nat) nat) (task_map : task_dict)
        (num_tasks T_max : nat).

Lemma extract_scan_body_eq k t idx x :
  var_index !! (k, t) = Some idx -> result !! idx = Some x ->
  forall schedule : list entry,
    (idx ← subscript var_index (k, t);
     x ← index result idx;
     if py_round x =? 1 then
       '(job_id, op, m, d) ← dict_subscript task_map k;
       Ok (schedule ++ [{| task := k; job := job_id; task_idx := op; machine := m;
                           start := Z.of_nat t; duration := d;
                           end_ := Z.of_nat t + d |}])
     else Ok schedule) =
    if selected result var_index k t then
      match dict_lookup task_map k with
      | Some _ => Ok (schedule ++ [record_of task_map k t])
      | None => Raise KeyError
      end
    else Ok schedule.
Proof.
  intros Hidx Hx schedule.
  unfold selected, record_of, dict_subscript, index.
  rewrite (subscript_lookup _ _ _ Hidx), Hidx. simpl. rewrite Hx. simpl.
  destruct (py_round x =? 1); [|done].
  by destruct (dict_lookup task_map k) as [[[[j o] m] d]|].
Qed.

Hypothesis Hrange : index_in_range (length result) var_index.

Lemma extract_scan_raises_at_most k t :
  raises_at_most KeyError (fun _ : list entry => True) (fun schedule =>
    idx ← subscript var_index (k, t);
    x ← index result idx;
    if py_round x =? 1 then
      '(job_id, op, m, d) ← dict_subscript task_map k;
      Ok (schedule ++ [{| task := k; job := job_id; task_idx := op; machine := m;
                          start := Z.of_nat t; duration := d;
                          end_ := Z.of_nat t + d |}])
    else Ok schedule).
Proof.
  intros schedule _.
  destruct (var_index !! (k, t)) as [idx|] eqn:Hidx.
  - pose proof (index_in_range_lookup _ _ _ _ Hrange Hidx) as Hlt.
    destruct (lookup_lt_is_Some_2 result idx Hlt) as [x Hx].
    rewrite (extract_scan_body_eq k t idx x Hidx Hx).
    destruct (selected result var_index k t); [|right; by eexists].
    destruct (dict_lookup task_map k); [right; by eexists|by left].
  - left. by rewrite (subscript_missing _ _ Hidx).
Qed.

Lemma extract_scan_always_raises k t :
  (k < num_tasks)%nat -> (t < T_max)%nat ->
  always_raises KeyError (fun _ : list entry => True) (fun schedule =>
    idx ← subscript var_index (k, t);
    x ← index result idx;
    if py_round x =? 1 then
      '(job_id, op, m, d) ← dict_subscript task_map k;
      Ok (schedule ++ [{| task := k; job := job_id; task_idx := op; machine := m;
                          start := Z.of_nat t; duration := d;
                          end_ := Z.of_nat t + d |}])
    else Ok schedule) ->
  extract_schedule_from_result result var_index task_map num_tasks T_max = Raise KeyError.
Proof.
  intros Hk Ht Hraise. unfold extract_schedule_from_result.
  rewrite (always_raises_for_each (fun _ : list entry => True) KeyError
             (range num_tasks) _ k); [done| |by apply elem_of_range| |done].
  - intros k' _. apply raises_at_most_for_each. intros t' _.
    apply extract_scan_raises_at_most.
  - apply (always_raises_for_each (fun _ : list entry => True) KeyError
             (range T_max) _ t); [|by apply elem_of_range|done].
    intros t' _. apply extract_scan_raises_at_most.
Qed.

Lemma extract_returns_scanned :
  index_total var_index (range num_tasks) T_max ->
  (forall k t, (k < num_tasks)%nat -> (t < T_max)%nat ->
     selected result var_index k t = true -> is_Some (dict_lookup task_map k)) ->
  extract_schedule_from_result result var_index task_map num_tasks T_max =
  Ok (sorted_by start (scanned result var_index task_map num_tasks T_max)).
Proof.
  intros Htot Hsel. unfold extract_schedule_from_result, scanned.
  rewrite (for_each_collect (range num_tasks) _
             (fun k => flat_map (fun t =>
                if selected result var_index k t then [record_of task_map k t] else [])
                (range T_max))); [done|].
  intros k acc Hk.
  apply (for_each_collect (range T_max) _
           (fun t => if selected result var_index k t
                     then [record_of task_map k t] else [])).
  intros t acc' Ht. pose proof Hk as Hk'. apply elem_of_range in Ht, Hk'.
  destruct (index_total_lookup _ _ _ k t Htot Hk Ht) as (idx & Hidx & _).
  pose proof (index_in_range_lookup _ _ _ _ Hrange Hidx) as Hlt.
  destruct (lookup_lt_is_Some_2 result idx Hlt) as [x Hx].
  rewrite (extract_scan_body_eq k t idx x Hidx Hx).
  destruct (selected result var_index k t) eqn:Es; [|by rewrite app_nil_r].
  by destruct (Hsel k t Hk' Ht Es) as [info ->].
Qed.
End ExtractorExceptions.

(** X5.  On a variable index that points into the assignment vector,
    [extract_schedule_from_result] returns when every candidate has an index
    and every selected task is in the task map (a task that is never
    selected may be missing).  It raises [KeyError] when a candidate has no
    index, and when a selected task is missing from the task map. *)
Theorem extract_schedule_returns_or_key_error result var_index task_map num_tasks T_max :
  index_in_range (length result) var_index ->
  (index_total var_index (range num_tasks) T_max ->
   (forall k t, (k < num_tasks)%nat -> (t < T_max)%nat ->
      selected result var_index k t = true -> is_Some (dict_lookup task_map k)) ->
   exists schedule,
     extract_schedule_from_result result var_index task_map num_tasks T_max = Ok schedule) /\
  (forall k t, (k < num_tasks)%nat -> (t < T_max)%nat -> var_index !! (k, t) = None ->
     extract_schedule_from_result result var_index task_map num_tasks T_max
     = Raise KeyError) /\
  (forall k t, (k < num_tasks)%nat -> (t < T_max)%nat ->
     selected result var_index k t = true -> dict_lookup task_map k = None ->
     extract_schedule_from_result result var_index task_map num_tasks T_max
     = Raise KeyError).
Proof.
  intros Hrange. split; [|split].
  - intros Htot Hsel. eexists. by apply extract_returns_scanned.
  - intros k t Hk Ht Hmiss. apply (extract_scan_always_raises _ _ _ _ _ Hrange k t Hk Ht).
    intros schedule _. by rewrite (subscript_missing _ _ Hmiss).
  - intros k t Hk Ht Hsel Hmiss.
    apply (extract_scan_always_raises _ _ _ _ _ Hrange k t Hk Ht).
    intros schedule _.
    assert (exists idx x, var_index !! (k, t) = Some idx /\ result !! idx = Some x)
      as (idx & x & Hidx & Hx).
    { unfold selected in Hsel.
      destruct (var_index !! (k, t)) as [idx|]; [|done].
      destruct (result !! idx) as [x|] eqn:Hx; [|done]. by exists idx, x. }
    rewrite (extract_scan_body_eq _ _ _ k t idx x Hidx Hx), Hsel. by rewrite Hmiss.
Qed.

Lemma extract_schedule_returns_or_key_error_witness :
  extract_schedule_from_result example_assignment example_index [] 2 2 = Raise KeyError.
Proof.
  destruct (extract_schedule_returns_or_key_error example_assignment example_index [] 2 2)
    as (_ & _ & Hmiss); [compute_done|].
  apply (Hmiss 0%nat 0%nat); first [lia | reflexivity].
Defined.

(** X6.  When every candidate has an index and every expected task is in the
    task map, but the index of a candidate is not a position of the
    assignment vector, [extract_schedule_from_result] raises [IndexError]. *)
Theorem extract_schedule_index_error result var_index task_map num_tasks T_max k t idx :
  index_total var_index (range num_tasks) T_max ->
  tasks_defined task_map num_tasks ->
  (k < num_tasks)%nat -> (t < T_max)%nat ->
  var_index !! (k, t) = Some idx -> (length result <= idx)%nat ->
  extract_schedule_from_result result var_index task_map num_tasks T_max
  = Raise IndexError.
Proof.
  intros Htot Htasks Hk Ht Hidx Hbig. unfold extract_schedule_from_result.
  assert (Hbody : forall k' t', k' ∈ range num_tasks -> t' ∈ range T_max ->
            raises_at_most IndexError (fun _ : list entry => True) (fun schedule =>
              idx ← subscript var_index (k', t');
              x ← index result idx;
              if py_round x =? 1 then
                '(job_id, op, m, d) ← dict_subscript task_map k';
                Ok (schedule ++ [{| task := k'; job := job_id; task_idx := op;
                                    machine := m; start := Z.of_nat t'; duration := d;
                                    end_ := Z.of_nat t' + d |}])
              else Ok schedule)).
  { intros k' t' Hk' Ht' schedule _. apply elem_of_range in Ht'.
    destruct (index_total_lookup _ _ _ k' t' Htot Hk' Ht') as (i & Hi & _).
    rewrite (subscript_lookup _ _ _ Hi). simpl. unfold index.
    destruct (result !! i) as [x|]; simpl; [|by left].
    destruct (py_round x =? 1); [|right; by eexists].
    unfold tasks_defined in Htasks. rewrite Forall_forall in Htasks.
    destruct (Htasks k' Hk') as [[[[j o] m] d] Hd].
    unfold dict_subscript. rewrite Hd. right. by eexists. }
  rewrite (always_raises_for_each (fun _ : list entry => True) IndexError
             (range num_tasks) _ k); [done| |by apply elem_of_range| |done].
  - intros k' Hk'. apply raises_at_most_for_each. intros t' Ht'. by apply Hbody.
  - apply (always_raises_for_each (fun _ : list entry => True) IndexError
             (range T_max) _ t); [|by apply elem_of_range|].
    + intros t' Ht'. apply Hbody; [by apply elem_of_range|done].
    + intros schedule _. rewrite (subscript_lookup _ _ _ Hidx). simpl.
      unfold index. by rewrite (lookup_ge_None_2 result idx).
Qed.

Lemma extract_schedule_index_error_witness :
  extract_schedule_from_result [] example_index example_tasks 2 2 = Raise IndexError.
Proof.
  apply (extract_schedule_index_error [] example_index example_tasks 2 2 0%nat 0%nat 0%nat);
    first [compute_done | simpl; lia | reflexivity].
Defined.

(** ** The unique-start validator *)

Lemma check_unique_start_constraint_eq schedule num_tasks :
  check_unique_start_constraint schedule num_tasks =
  flat_map (fun k => if Nat.eqb (occurrences schedule k) 1 then []
                     else [(k, occurrences schedule k)]) (range num_tasks).
Proof.
  unfold check_unique_start_constraint.
  assert (Hgen : forall l acc,
            fold_left (fun violations task_id =>
              let count := length (filter (fun t => task t = task_id) schedule) in
              if negb (Nat.eqb count 1) then violations ++ [(task_id, count)]
              else violations) l acc =
            acc ++ flat_map (fun k => if Nat.eqb (occurrences schedule k) 1 then []
                                      else [(k, occurrences schedule k)]) l).
  { induction l as [|k l IH]; intros acc; simpl; [by rewrite app_nil_r|].
    rewrite IH. unfold occurrences.
    destruct (length (filter (fun t => task t = k) schedule) =? 1)%nat; simpl; [done|].
    by rewrite <- app_assoc. }
  apply (Hgen (range num_tasks) []).
Qed.

Lemma check_unique_start_constraint_elem schedule num_tasks k c :
  (k, c) ∈ check_unique_start_constraint schedule num_tasks <->
  (k < num_tasks)%nat /\ c = occurrences schedule k /\ c <> 1%nat.
Proof.
  rewrite check_unique_start_constraint_eq, elem_of_flat_map. split.
  - intros (k' & Hk' & Hin). apply elem_of_range in Hk'.
    destruct (Nat.eqb_spec (occurrences schedule k') 1); [by apply elem_of_nil in Hin|].
    apply list_elem_of_singleton in Hin. by simplify_eq.
  - intros (Hk & -> & Hne). exists k. split; [by apply elem_of_range|].
    destruct (Nat.eqb_spec (occurrences schedule k) 1); [done|set_solver].
Qed.

Lemma check_unique_start_constraint_nil schedule num_tasks :
  check_unique_start_constraint schedule num_tasks = [] <->
  forall k, (k < num_tasks)%nat -> occurrences schedule k = 1%nat.
Proof.
  split.
  - intros Hnil k Hk.
    destruct (decide (occurrences schedule k = 1%nat)) as [|Hne]; [done|].
    assert ((k, occurrences schedule k) ∈ @nil (nat * nat)) as Hin;
      [|by apply elem_of_nil in Hin].
    rewrite <- Hnil. by apply check_unique_start_constraint_elem.
  - intros Hall. apply elem_of_nil_inv.
    intros [k c] (Hk & -> & Hne)%check_unique_start_constraint_elem.
    by apply Hne, Hall.
Qed.

(** X7.  [check_unique_start_constraint] reports, in increasing order of task
    id, exactly the expected task ids that do not occur exactly once in the
    schedule, each with its number of occurrences; entries of other task ids
    are ignored, and the result is empty exactly when every expected task
    occurs once. *)
Theorem check_unique_start_constraint_spec schedule num_tasks :
  (forall k c, (k, c) ∈ check_unique_start_constraint schedule num_tasks <->
     (k < num_tasks)%nat /\ c = occurrences schedule k /\ c <> 1%nat) /\
  StronglySorted (fun a b => (fst a < fst b)%nat)
    (check_unique_start_constraint schedule num_tasks) /\
  (check_unique_start_constraint schedule num_tasks = [] <->
   forall k, (k < num_tasks)%nat -> occurrences schedule k = 1%nat).
Proof.
  split; [intros k c; apply check_unique_start_constraint_elem|].
  split; [|apply check_unique_start_constraint_nil].
  rewrite check_unique_start_constraint_eq. unfold range.
  assert (Hgen : forall m a,
            StronglySorted (fun a b : nat * nat => (fst a < fst b)%nat)
              (flat_map (fun k => if Nat.eqb (occurrences schedule k) 1 then []
                                  else [(k, occurrences schedule k)]) (seq a m)));
    [|apply Hgen].
  induction m as [|m IH]; intros a; simpl.
  - constructor.
  - apply StronglySorted_app_2.
    + intros [k1 c1] [k2 c2] H1 (k' & Hk' & H2)%elem_of_flat_map.
      apply elem_of_seq in Hk'.
      destruct (occurrences schedule a =? 1)%nat; [by apply elem_of_nil in H1|].
      destruct (occurrences schedule k' =? 1)%nat; [by apply elem_of_nil in H2|].
      apply list_elem_of_singleton in H1, H2. simplify_eq. simpl. lia.
    + destruct (occurrences schedule a =? 1)%nat; repeat constructor.
    + apply IH.
Qed.

(** ** The extractor followed by the unique-start validator *)

Lemma flat_map_all_nil {A B} (g : A -> list B) l :
  (forall x, x ∈ l -> g x = []) -> flat_map g l = [].
Proof.
  induction l as [|x l IH]; intros Hg; simpl; [done|].
  rewrite Hg, IH; [done| |]; [intros y Hy; apply Hg|]; set_solver.
Qed.

Lemma flat_map_single {A B} (g : A -> list B) l k :
  k ∈ l -> (forall x, x ∈ l -> x <> k -> g x = []) ->
  NoDup l -> flat_map g l = g k.
Proof.
  intros (l1 & l2 & ->)%list_elem_of_split Hg Hnd.
  apply NoDup_app in Hnd as (_ & Hdisj & Hnd). apply NoDup_cons in Hnd as [Hk _].
  rewrite flat_map_app. simpl.
  rewrite (flat_map_all_nil g l1), (flat_map_all_nil g l2).
  - by rewrite app_nil_r.
  - intros x Hx. apply Hg; [set_solver|]. intros ->. done.
  - intros x Hx. apply Hg; [set_solver|]. intros ->. apply (Hdisj k Hx). set_solver.
Qed.

Lemma filter_flat_map {A B} (P : B -> Prop) `{!forall y, Decision (P y)}
    (f : A -> list B) l :
  filter P (flat_map f l) = flat_map (fun x => filter P (f x)) l.
Proof.
  induction l as [|x l IH]; simpl; [done|]. by rewrite filter_app, IH.
Qed.

Section ExtractThenCheck.
Context (result : list Q) (var_index : gmap (nat * nat) nat) (task_map : task_dict)
        (num_tasks T_max : nat).

Lemma scanned_task_occurrences k (l : list nat) :
  length (filter (fun r => task r = k)
            (flat_map (fun t => if selected result var_index k t
                                then [record_of task_map k t] else []) l)) =
  length (filter (fun t => selected result var_index k t = true) l).
Proof.
  induction l as [|t l IH]; simpl; [done|].
  rewrite filter_app, length_app, IH, filter_cons.
  destruct (selected result var_index k t) eqn:E.
  - rewrite decide_True by done.
    rewrite filter_cons_True by apply record_of_task. done.
  - by rewrite decide_False by done.
Qed.

Lemma scanned_occurrences k :
  (k < num_tasks)%nat ->
  occurrences (scanned result var_index task_map num_tasks T_max) k =
  length (selected_starts result var_index T_max k).
Proof.
  intros Hk. unfold occurrences, scanned, selected_starts.
  rewrite filter_flat_map.
  rewrite (flat_map_single _ _ k); [|by apply elem_of_range| |apply NoDup_range].
  - apply scanned_task_occurrences.
  - intros k' _ Hne. apply filter_none.
    intros r (t & _ & Hr)%elem_of_flat_map Htask.
    destruct (selected result var_index k' t); [|by apply elem_of_nil in Hr].
    apply list_elem_of_singleton in Hr. subst r.
    rewrite record_of_task in Htask. done.
Qed.

Lemma scanned_records r :
  tasks_defined task_map num_tasks ->
  r ∈ scanned result var_index task_map num_tasks T_max ->
  (task r < num_tasks)%nat /\ 0 <= start r < Z.of_nat T_max /\
  end_ r = start r + duration r /\
  dict_lookup task_map (task r) = Some (job r, task_idx r, machine r, duration r).
Proof.
  intros Htasks (k & Hk & (t & Ht & Hr)%elem_of_flat_map)%elem_of_flat_map.
  destruct (selected result var_index k t); [|by apply elem_of_nil in Hr].
  apply list_elem_of_singleton in Hr. subst r.
  unfold tasks_defined in Htasks. rewrite Forall_forall in Htasks.
  destruct (Htasks k Hk) as [[[[j o] m] d] Hd].
  apply elem_of_range in Hk, Ht.
  unfold record_of. rewrite Hd. simpl. rewrite Hd. repeat split; first [done|lia].
Qed.
End ExtractThenCheck.

(** X8.  On well-formed inputs the schedule that
    [extract_schedule_from_result] returns holds every expected task as often
    as the assignment selects a start time for it, so that
    [check_unique_start_constraint] accepts the extracted schedule exactly
    when the assignment selects one start time for every task. *)
Theorem extract_then_check_unique_start result var_index task_map num_tasks T_max :
  index_total var_index (range num_tasks) T_max ->
  index_in_range (length result) var_index ->
  tasks_defined task_map num_tasks ->
  exists schedule,
    extract_schedule_from_result result var_index task_map num_tasks T_max = Ok schedule /\
    (forall k, (k < num_tasks)%nat ->
       occurrences schedule k = length (selected_starts result var_index T_max k)) /\
    (check_unique_start_constraint schedule num_tasks = [] <->
     forall k, (k < num_tasks)%nat ->
       exists t, selected_starts result var_index T_max k = [t]).
Proof.
  intros Htot Hrange Htasks. eexists.
  split; [by apply extract_schedule_scanned|].
  assert (Hocc : forall k, (k < num_tasks)%nat ->
            occurrences (sorted_by start
                           (scanned result var_index task_map num_tasks T_max)) k =
            length (selected_starts result var_index T_max k)).
  { intros k Hk.
    rewrite <- (scanned_occurrences result var_index task_map num_tasks T_max k Hk).
    unfold occurrences. by rewrite sorted_by_perm. }
  split; [exact Hocc|].
  rewrite check_unique_start_constraint_nil.
  split.
  - intros Hall k Hk. specialize (Hall k Hk). rewrite Hocc in Hall by done.
    destruct (selected_starts result var_index T_max k) as [|t [|t' l]]; try done.
    by exists t.
  - intros Hall k Hk. rewrite Hocc by done. by destruct (Hall k Hk) as [t ->].
Qed.

Lemma extract_then_check_unique_start_witness :
  exists schedule,
    extract_schedule_from_result example_assignment example_index example_tasks 2 2
    = Ok schedule /\
    occurrences schedule 0 = 2%nat /\ occurrences schedule 1 = 0%nat.
Proof.
  destruct (extract_then_check_unique_start example_assignment example_index
              example_tasks 2 2) as (schedule & Hs & Hocc & _); [compute_done..|].
  exists schedule. split; [exact Hs|].
  split; [apply (Hocc 0%nat); lia|apply (Hocc 1%nat); lia].
Defined.

(** X9.  Every record of the schedule that [extract_schedule_from_result]
    returns belongs to an expected task, starts within the horizon, carries
    the job, operation index, machine and duration that the task map holds
    for its task, and ends at its start plus its duration. *)
Theorem extract_schedule_records result var_index task_map num_tasks T_max :
  index_total var_index (range num_tasks) T_max ->
  index_in_range (length result) var_index ->
  tasks_defined task_map num_tasks ->
  exists schedule,
    extract_schedule_from_result result var_index task_map num_tasks T_max = Ok schedule /\
    forall r, r ∈ schedule ->
      (task r < num_tasks)%nat /\ 0 <= start r < Z.of_nat T_max /\
      end_ r = start r + duration r /\
      dict_lookup task_map (task r) = Some (job r, task_idx r, machine r, duration r).
Proof.
  intros Htot Hrange Htasks. eexists.
  split; [by apply extract_schedule_scanned|].
  intros r Hr. rewrite sorted_by_perm in Hr. by eapply scanned_records.
Qed.

Lemma extract_schedule_records_witness :
  exists schedule,
    extract_schedule_from_result example_assignment example_index example_tasks 2 2
    = Ok schedule /\
    forall r, r ∈ schedule -> 0 <= start r < 2 /\ end_ r = start r + duration r.
Proof.
  destruct (extract_schedule_records example_assignment example_index example_tasks 2 2)
    as (schedule & Hs & Hrec); [compute_done..|].
  exists schedule. split; [exact Hs|].
  intros r Hr. destruct (Hrec r Hr) as (_ & Hstart & Hend & _). split; [exact Hstart|exact Hend].
Defined.

(** ** The assembled matrix *)

Lemma coef_zeros n i j : coef (zeros n) i j = 0.
Proof.
  unfold coef, mget, zeros.
  destruct (replicate n (replicate n 0) !! i) as [row|] eqn:E; [|done].
  apply lookup_replicate in E as [-> _].
  destruct (replicate n 0 !! j) as [x|] eqn:E'; [|done].
  by apply lookup_replicate in E' as [-> _].
Qed.

Section Assembled.
Context (cfg : penalty_config) (n : nat) (var_index : gmap (nat * nat) nat)
        (task_map : task_dict) (num_tasks T_max : nat).
Hypothesis Hnumbered : tasks_numbered task_map num_tasks.
Hypothesis Htotal : index_total var_index (range num_tasks) T_max.
Hypothesis Hrange : index_in_range n var_index.

Lemma tasks_numbered_keys : NoDup (map fst task_map).
Proof. unfold tasks_numbered in Hnumbered. rewrite Hnumbered. apply NoDup_range. Qed.

Lemma tasks_numbered_elem k : k ∈ map fst task_map <-> (k < num_tasks)%nat.
Proof. unfold tasks_numbered in Hnumbered. by rewrite Hnumbered, elem_of_range. Qed.

Lemma tasks_numbered_total : index_total var_index (map fst task_map) T_max.
Proof.
  unfold index_total, tasks_numbered in *. by rewrite Hnumbered.
Qed.

Lemma tasks_numbered_defined : tasks_defined task_map num_tasks.
Proof.
  unfold tasks_defined. apply Forall_forall. intros k Hk.
  apply dict_lookup_is_Some, tasks_numbered_elem. by apply elem_of_range.
Qed.

Lemma contributes_apply_builder b :
  contributes n (apply_builder cfg var_index task_map num_tasks T_max b)
    (builder_contribution cfg var_index task_map num_tasks T_max b).
Proof.
  destruct b; simpl.
  - by apply contributes_unique_start.
  - apply contributes_machine_conflict; [apply tasks_numbered_total|done].
  - apply contributes_precedence; [done|apply tasks_numbered_keys].
  - apply contributes_makespan; [done|done|apply tasks_numbered_defined].
Qed.

Lemma build_qubo_contributions order :
  exists M,
    build_qubo cfg n var_index task_map num_tasks T_max order = Ok M /\
    square n M /\
    forall i j, (i < n)%nat -> (j < n)%nat ->
      coef M i j =
      sumZ (fun b => builder_contribution cfg var_index task_map num_tasks T_max b i j) order.
Proof.
  unfold build_qubo.
  destruct (contributes_for_each n order
              (apply_builder cfg var_index task_map num_tasks T_max)
              (builder_contribution cfg var_index task_map num_tasks T_max)
              (fun b _ => contributes_apply_builder b) (zeros n) (square_zeros n))
    as (M & HM & Hsq & Hadd).
  exists M. split; [done|]. split; [done|].
  intros i j Hi Hj. rewrite Hadd by done. by rewrite coef_zeros.
Qed.

Hypothesis Hinj : index_injective var_index.

(** The four contributions at the entry of two candidates. *)
Lemma builder_contributions_value ka ja oa ma da kb jb ob mb db ta tb ia ib :
  dict_lookup task_map ka = Some (ja, oa, ma, da) ->
  dict_lookup task_map kb = Some (jb, ob, mb, db) ->
  (ta < T_max)%nat -> (tb < T_max)%nat ->
  var_index !! (ka, ta) = Some ia -> var_index !! (kb, tb) = Some ib ->
  sumZ (fun b => builder_contribution cfg var_index task_map num_tasks T_max b ia ib)
       source_order =
  (if decide (ka = kb /\ ta = tb)
   then - one_hot cfg + makespan cfg * (Z.of_nat ta + da) else 0) +
  (if decide (ka = kb /\ (ta < tb)%nat) then one_hot cfg else 0) +
  (if decide (ka <> kb /\ ma = mb /\ 0 < Z.of_nat tb - Z.of_nat ta < da)
   then machine_penalty cfg else 0) +
  (if decide ((ka, kb) ∈ consecutive_pairs task_map /\ Z.of_nat tb < Z.of_nat ta + da)
   then precedence cfg else 0).
Proof.
  intros Hda Hdb Hta Htb Hia Hib.
  pose proof (dict_lookup_elem_of _ _ _ Hda) as Ha.
  pose proof (dict_lookup_elem_of _ _ _ Hdb) as Hb.
  assert (Hka : (ka < num_tasks)%nat).
  { apply tasks_numbered_elem, list_elem_of_fmap. by exists (ka, (ja, oa, ma, da)). }
  assert (Hkb : (kb < num_tasks)%nat).
  { apply tasks_numbered_elem, list_elem_of_fmap. by exists (kb, (jb, ob, mb, db)). }
  assert (Eia : ia = idx_of var_index ka ta) by (unfold idx_of; by rewrite Hia).
  assert (Eib : ib = idx_of var_index kb tb) by (unfold idx_of; by rewrite Hib).
  unfold source_order. cbn [sumZ builder_contribution].
  (* precedence *)
  rewrite (precedence_contribution_value var_index task_map T_max (precedence cfg)
             tasks_numbered_keys Hinj ka ta kb tb ia ib) by done.
  assert (Hdur : duration_of task_map ka = da) by (unfold duration_of; by rewrite Hda).
  rewrite Hdur.
  (* machine conflict *)
  rewrite Eia, Eib.
  rewrite (machine_conflict_contribution_value var_index task_map T_max
             (machine_penalty cfg) tasks_numbered_total Hinj tasks_numbered_keys
             ka ja oa ma da kb jb ob mb db ta tb) by done.
  (* unique start and makespan *)
  destruct (decide (ka = kb)) as [<-|Hk].
  - rewrite (unique_start_contribution_same_task var_index num_tasks T_max (one_hot cfg)
               Htotal Hinj) by done.
    destruct (decide (ta = tb)) as [<-|Ht].
    + rewrite (makespan_contribution_diagonal var_index task_map num_tasks T_max
                 (makespan cfg) Htotal Hinj) by done.
      rewrite Hdur.
      rewrite (decide_True (P := ka = ka /\ ta = ta)) by done.
      rewrite (decide_False (P := ka = ka /\ (ta < ta)%nat)) by lia.
      lia.
    + rewrite makespan_contribution_off_diagonal.
      2:{ intros E. destruct (idx_of_inj var_index ka ta ka tb Hinj) as [_ ?];
            [by eexists..|done|done]. }
      rewrite (decide_False (P := ka = ka /\ ta = tb)) by tauto.
      destruct (decide (ta < tb)%nat).
      * rewrite (decide_True (P := ka = ka /\ (ta < tb)%nat)) by done. lia.
      * rewrite (decide_False (P := ka = ka /\ (ta < tb)%nat)) by tauto. lia.
  - rewrite unique_start_contribution_elsewhere.
    2:{ intros k t1 t2 Hk' Ht12 E. simplify_eq.
        destruct (idx_of_inj var_index ka ta k t1 Hinj) as [? ?];
          [by eexists|by eapply index_total_is_Some; [done|apply elem_of_range|lia]|done|].
        destruct (idx_of_inj var_index kb tb k t2 Hinj) as [? ?];
          [by eexists|by eapply index_total_is_Some; [done|apply elem_of_range|lia]|done|].
        congruence. }
    rewrite makespan_contribution_off_diagonal.
    2:{ intros E. destruct (idx_of_inj var_index ka ta kb tb Hinj) as [? _];
          [by eexists..|done|done]. }
    rewrite (decide_False (P := ka = kb /\ ta = tb)) by tauto.
    rewrite (decide_False (P := ka = kb /\ (ta < tb)%nat)) by tauto.
    lia.
Qed.
End Assembled.

(** X10.  On tasks numbered [0 .. num_tasks - 1] and a total, in-range,
    injective variable index, the matrix assembled by
    [solve_and_visualize_jssp] exists and is known entry by entry.  At the
    variables of (ka, ta) and (kb, tb) it holds: on the diagonal, minus the
    one-hot penalty plus the makespan weight times the finish time; for two
    slots of one task in time order, the one-hot penalty; for distinct tasks
    of one machine with [0 < tb - ta < da], the machine penalty; for
    consecutive tasks of a job with [tb < ta + da], the precedence penalty.
    Every entry that is not at two such variables is zero. *)
Theorem build_qubo_closed_form cfg num_vars var_index task_map num_tasks T_max :
  tasks_numbered task_map num_tasks ->
  index_total var_index (range num_tasks) T_max ->
  index_in_range num_vars var_index ->
  index_injective var_index ->
  exists M,
    build_qubo cfg num_vars var_index task_map num_tasks T_max source_order = Ok M /\
    square num_vars M /\
    (forall ka ja oa ma da kb jb ob mb db ta tb ia ib,
       dict_lookup task_map ka = Some (ja, oa, ma, da) ->
       dict_lookup task_map kb = Some (jb, ob, mb, db) ->
       (ta < T_max)%nat -> (tb < T_max)%nat ->
       var_index !! (ka, ta) = Some ia -> var_index !! (kb, tb) = Some ib ->
       coef M ia ib =
       (if decide (ka = kb /\ ta = tb)
        then - one_hot cfg + makespan cfg * (Z.of_nat ta + da) else 0) +
       (if decide (ka = kb /\ (ta < tb)%nat) then one_hot cfg else 0) +
       (if decide (ka <> kb /\ ma = mb /\ 0 < Z.of_nat tb - Z.of_nat ta < da)
        then machine_penalty cfg else 0) +
       (if decide ((ka, kb) ∈ consecutive_pairs task_map /\
                   Z.of_nat tb < Z.of_nat ta + da)
        then precedence cfg else 0)) /\
    (forall i j,
       (forall ka kb ta tb, (ka < num_tasks)%nat -> (kb < num_tasks)%nat ->
          (ta < T_max)%nat -> (tb < T_max)%nat ->
          ~ (var_index !! (ka, ta) = Some i /\ var_index !! (kb, tb) = Some j)) ->
       coef M i j = 0) /\
    (forall k1 k2, (k1, k2) ∈ consecutive_pairs task_map <-> consecutive task_map k1 k2).
Proof.
  intros Hnum Htot Hrange Hinj.
  destruct (build_qubo_contributions cfg num_vars var_index task_map num_tasks T_max
              Hnum Htot Hrange source_order) as (M & HM & Hsq & Hadd).
  pose proof (tasks_numbered_keys task_map num_tasks Hnum) as Hkeys.
  exists M. split; [done|]. split; [done|]. split; [|split].
  - intros ka ja oa ma da kb jb ob mb db ta tb ia ib Hda Hdb Hta Htb Hia Hib.
    rewrite Hadd by (by eapply index_in_range_lookup).
    by apply (builder_contributions_value cfg var_index task_map num_tasks T_max
                Hnum Htot Hinj ka ja oa ma da kb jb ob mb db).
  - intros i j Hmiss.
    destruct (decide ((i < num_vars)%nat /\ (j < num_vars)%nat)) as [[Hi Hj]|Hout];
      [|by rewrite (coef_outside num_vars)].
    rewrite Hadd by done. unfold source_order. cbn [sumZ builder_contribution].
    assert (Hidx : forall k t, (k < num_tasks)%nat -> (t < T_max)%nat ->
              var_index !! (k, t) = Some (idx_of var_index k t)).
    { intros k t Hk Ht. by apply (unique_start_lookup var_index num_tasks T_max Htot). }
    rewrite unique_start_contribution_elsewhere.
    2:{ intros k t1 t2 Hk Ht E. simplify_eq.
        apply (Hmiss k k t1 t2); [done|done|lia|lia|]. split; apply Hidx; first [done|lia]. }
    rewrite machine_conflict_contribution_elsewhere.
    2:{ intros k1 k2 t1 t2 Hk1 Hk2 Ht1 Ht2 E. simplify_eq.
        apply (tasks_numbered_elem task_map num_tasks Hnum) in Hk1, Hk2.
        apply (Hmiss k1 k2 t1 t2); [done..|]. split; by apply Hidx. }
    rewrite precedence_contribution_elsewhere.
    2:{ intros k1 k2 t1 t2 Hp Ht1 Ht2 [H1 H2].
        apply (consecutive_pairs_keys task_map Hkeys) in Hp as [Hk1 Hk2].
        apply (tasks_numbered_elem task_map num_tasks Hnum) in Hk1, Hk2.
        by apply (Hmiss k1 k2 t1 t2). }
    destruct (decide (i = j)) as [<-|Hne].
    + rewrite makespan_contribution_elsewhere; [lia|].
      intros k t Hk Ht ->. apply (Hmiss k k t t); [done..|]. split; by apply Hidx.
    + rewrite makespan_contribution_off_diagonal by done. lia.
  - intros k1 k2. by apply consecutive_pairs_spec.
Qed.

Lemma build_qubo_closed_form_witness :
  exists M,
    build_qubo example_config 4 example_index example_tasks 2 2 source_order = Ok M /\
    coef M 0 3 = 12 /\ coef M 1 1 = -7.
Proof.
  destruct (build_qubo_closed_form example_config 4 example_index example_tasks 2 2)
    as (M & HM & _ & Hval & _); [compute_done..|].
  exists M. split; [exact HM|]. split.
  - rewrite (Hval 0%nat 0 0 0 2 1%nat 0 1 0 1 0%nat 1%nat 0%nat 3%nat);
      first [reflexivity | lia].
  - rewrite (Hval 0%nat 0 0 0 2 0%nat 0 0 0 2 1%nat 1%nat 1%nat 1%nat);
      first [reflexivity | lia].
Defined.

(** X11.  For two distinct tasks of one machine with positive durations,
    [apply_machine_conflict_constraint] adds the penalty to the pair of
    their variables at start times [ta] and [tb] - in one of the two entries
    of the pair - exactly when the start times differ and the two runs
    [ta, ta + da) and [tb, tb + db) intersect.  Equal start times are never
    penalised, although the two runs then intersect. *)
Theorem machine_conflict_covers_overlaps n var_index task_map T_max penalty M :
  square n M ->
  index_total var_index (map fst task_map) T_max ->
  index_in_range n var_index ->
  index_injective var_index ->
  NoDup (map fst task_map) ->
  exists M',
    apply_machine_conflict_constraint M var_index task_map T_max penalty = Ok M' /\
    forall ka ja oa ma da kb jb ob mb db ta tb ia ib,
      (ka, (ja, oa, ma, da)) ∈ task_map -> (kb, (jb, ob, mb, db)) ∈ task_map ->
      ka <> kb -> ma = mb -> 0 < da -> 0 < db ->
      (ta < T_max)%nat -> (tb < T_max)%nat ->
      var_index !! (ka, ta) = Some ia -> var_index !! (kb, tb) = Some ib ->
      (coef M' ia ib - coef M ia ib) + (coef M' ib ia - coef M ib ia) =
      if decide (ta <> tb /\ Z.of_nat ta < Z.of_nat tb + db /\
                 Z.of_nat tb < Z.of_nat ta + da)
      then penalty else 0.
Proof.
  intros HM Htot Hrange Hinj Hkeys.
  destruct (contributes_machine_conflict n var_index task_map T_max penalty
              Htot Hrange M HM) as (M' & HM' & Hsq & Hadd).
  exists M'. split; [done|].
  intros ka ja oa ma da kb jb ob mb db ta tb ia ib Ha Hb Hk Hm Hda Hdb Hta Htb Hia Hib.
  assert (ia = idx_of var_index ka ta) as -> by (unfold idx_of; by rewrite Hia).
  assert (ib = idx_of var_index kb tb) as -> by (unfold idx_of; by rewrite Hib).
  rewrite !Hadd by (by eapply index_in_range_lookup).
  rewrite (machine_conflict_contribution_value var_index task_map T_max penalty
             Htot Hinj Hkeys ka ja oa ma da kb jb ob mb db) by done.
  rewrite (machine_conflict_contribution_value var_index task_map T_max penalty
             Htot Hinj Hkeys kb jb ob mb db ka ja oa ma da) by done.
  repeat destruct (decide _); lia.
Qed.

Lemma machine_conflict_covers_overlaps_witness :
  exists M',
    apply_machine_conflict_constraint (zeros 4) example_index example_tasks 2 7 = Ok M' /\
    coef M' 0 3 + coef M' 3 0 = 7 /\ coef M' 0 2 + coef M' 2 0 = 0.
Proof.
  destruct (machine_conflict_covers_overlaps 4 example_index example_tasks 2 7 (zeros 4))
    as (M' & HM' & Hpair); [compute_done..|].
  exists M'. split; [exact HM'|].
  pose proof (Hpair 0%nat 0 0 0 2 1%nat 0 1 0 1 0%nat 1%nat 0%nat 3%nat) as H1.
  pose proof (Hpair 0%nat 0 0 0 2 1%nat 0 1 0 1 0%nat 0%nat 0%nat 2%nat) as H2.
  rewrite !coef_zeros in H1, H2. split.
  - replace (coef M' 0 3 + coef M' 3 0) with (coef M' 0 3 - 0 + (coef M' 3 0 - 0)) by lia.
    apply H1; first [compute_done | lia].
  - replace (coef M' 0 2 + coef M' 2 0) with (coef M' 0 2 - 0 + (coef M' 2 0 - 0)) by lia.
    apply H2; first [compute_done | lia].
Defined.


(** ** The quadratic program *)

Lemma var_name_inj i j : var_name i = var_name j -> i = j.
Proof.
  unfold var_name. intros E. simpl in E. injection E as E.
  by apply (inj pretty).
Qed.

Lemma declare_variables_eq n : declare_variables n = map var_name (range n).
Proof.
  unfold declare_variables.
  assert (Hgen : forall l acc,
            fold_left (fun names i => names ++ [var_name i]) l acc = acc ++ map var_name l).
  { induction l as [|i l IH]; intros acc; simpl; [by rewrite app_nil_r|].
    rewrite IH. by rewrite <- app_assoc. }
  apply (Hgen (range n) []).
Qed.

Lemma read_at_square n M i j :
  square n M -> (i < n)%nat -> (j < n)%nat -> read_at M i j = Ok (coef M i j).
Proof.
  intros HM Hi Hj. unfold read_at, coef.
  by destruct (mget_square n M i j HM Hi Hj) as [v ->].
Qed.

Section SetEntries.
Context {A K V : Type} `{Countable K} (kf : A -> K) (vf : A -> option V).

Lemma for_each_set_entries (l : list A) (body : A -> gmap K V -> res (gmap K V)) d :
  (forall x d', x ∈ l ->
     body x d' = Ok (match vf x with Some v => <[kf x := v]> d' | None => d' end)) ->
  for_each l body d = Ok (set_entries kf vf l d).
Proof.
  revert d. induction l as [|x l IH]; intros d Hbody; simpl; [done|].
  rewrite Hbody by set_solver. simpl. apply IH.
  intros y d' Hy. apply Hbody. set_solver.
Qed.

Lemma set_entries_cons x (l : list A) d :
  set_entries kf vf (x :: l) d =
  set_entries kf vf l (match vf x with Some v => <[kf x := v]> d | None => d end).
Proof. done. Qed.

Lemma set_entries_other (l : list A) d key :
  (forall x, x ∈ l -> kf x <> key) -> set_entries kf vf l d !! key = d !! key.
Proof.
  revert d. induction l as [|x l IH]; intros d Hne; [done|].
  rewrite set_entries_cons, IH by (intros y Hy; apply Hne; set_solver).
  destruct (vf x); [|done]. apply lookup_insert_ne, Hne. set_solver.
Qed.

Lemma set_entries_lookup (l : list A) d x :
  NoDup (map kf l) -> x ∈ l ->
  set_entries kf vf l d !! kf x =
  match vf x with Some v => Some v | None => d !! kf x end.
Proof.
  revert d. induction l as [|y l IH]; intros d Hnd Hx; [by apply elem_of_nil in Hx|].
  simpl in Hnd. apply NoDup_cons in Hnd as [Hy Hnd]. rewrite set_entries_cons.
  apply elem_of_cons in Hx as [->|Hx].
  - rewrite set_entries_other.
    + destruct (vf y); [apply lookup_insert_eq|done].
    + intros z Hz E. apply Hy. rewrite <- E. apply list_elem_of_fmap. by exists z.
  - rewrite IH by done.
    destruct (vf x) eqn:Ex; [done|].
    destruct (vf y); [|done]. apply lookup_insert_ne.
    intros E. apply Hy. rewrite E. apply list_elem_of_fmap. by exists x.
Qed.
End SetEntries.

Lemma upper_pairs_elem n i j : (i, j) ∈ upper_pairs n <-> (i < j < n)%nat.
Proof.
  unfold upper_pairs. rewrite elem_of_flat_map. split.
  - intros (i' & Hi' & Hin). apply elem_of_range in Hi'.
    apply list_elem_of_fmap in Hin as (j' & E & Hj'). simplify_eq.
    apply elem_of_range_from in Hj'. lia.
  - intros Hij. exists i. split; [apply elem_of_range; lia|].
    apply list_elem_of_fmap. exists j. split; [done|]. apply elem_of_range_from. lia.
Qed.

Lemma upper_pairs_NoDup n : NoDup (upper_pairs n).
Proof.
  unfold upper_pairs. apply NoDup_flat_map; [apply NoDup_range| |].
  - intros i _. apply NoDup_fmap_2; [|apply NoDup_seq]. by intros j j' [= ->].
  - intros i i' [a b] _ _ H1 H2.
    apply list_elem_of_fmap in H1 as (j & E1 & _), H2 as (j' & E2 & _). congruence.
Qed.

Lemma upper_pairs_names_NoDup n :
  NoDup (map (fun p : nat * nat => (var_name (fst p), var_name (snd p))) (upper_pairs n)).
Proof.
  apply NoDup_fmap_2; [|apply upper_pairs_NoDup].
  intros [i j] [i' j'] E. simpl in E.
  pose proof (f_equal fst E) as E1. pose proof (f_equal snd E) as E2. simpl in E1, E2.
  apply var_name_inj in E1, E2. by subst.
Qed.

Section Program.
Context (n : nat) (M : matrix).
Hypothesis HM : square n M.

Lemma linear_terms_eq :
  linear_terms n M =
  Ok (set_entries var_name (fun i => Some (coef M i i)) (range n) ∅).
Proof.
  unfold linear_terms. apply for_each_set_entries.
  intros i d Hi. apply elem_of_range in Hi. by rewrite (read_at_square n).
Qed.

Lemma quadratic_terms_eq :
  quadratic_terms n M =
  Ok (set_entries (fun p : nat * nat => (var_name (fst p), var_name (snd p)))
        (fun p => if coef M (fst p) (snd p) =? 0 then None
                  else Some (coef M (fst p) (snd p)))
        (upper_pairs n) ∅).
Proof.
  unfold quadratic_terms.
  rewrite <- (for_each_set_entries _ _ (upper_pairs n)
                (fun p d =>
                   c ← read_at M (fst p) (snd p);
                   if negb (c =? 0) then
                     v ← read_at M (fst p) (snd p);
                     Ok (<[(var_name (fst p), var_name (snd p)) := v]> d)
                   else Ok d)).
  - unfold upper_pairs. rewrite for_each_flat_map. apply for_each_ext.
    intros i d _. by rewrite for_each_fmap.
  - intros [i j] d Hij. apply upper_pairs_elem in Hij. simpl.
    rewrite (read_at_square n) by first [done|lia]. simpl.
    by destruct (coef M i j =? 0).
Qed.

Lemma linear_lookup i :
  (i < n)%nat ->
  set_entries var_name (fun i => Some (coef M i i)) (range n) ∅ !! var_name i
  = Some (coef M i i).
Proof.
  intros Hi. rewrite set_entries_lookup; [done| |by apply elem_of_range].
  apply NoDup_fmap_2; [|apply NoDup_range]. intros a b. apply var_name_inj.
Qed.

Lemma linear_lookup_is_Some name :
  is_Some (set_entries var_name (fun i => Some (coef M i i)) (range n) ∅ !! name) ->
  exists i, (i < n)%nat /\ name = var_name i.
Proof.
  intros Hsome.
  destruct (decide (name ∈ map var_name (range n))) as [Hin|Hnin].
  - apply list_elem_of_fmap in Hin as (i & -> & Hi). apply elem_of_range in Hi. eauto.
  - rewrite set_entries_other in Hsome.
    + rewrite lookup_empty in Hsome. by destruct Hsome.
    + intros i Hi E. apply Hnin. rewrite <- E. apply list_elem_of_fmap. by exists i.
Qed.

Lemma quadratic_lookup i j :
  set_entries (fun p : nat * nat => (var_name (fst p), var_name (snd p)))
    (fun p => if coef M (fst p) (snd p) =? 0 then None
              else Some (coef M (fst p) (snd p)))
    (upper_pairs n) ∅ !! (var_name i, var_name j) =
  if decide ((i < j < n)%nat /\ coef M i j <> 0) then Some (coef M i j) else None.
Proof.
  destruct (decide (i < j < n)%nat) as [Hij|Hij].
  - pose proof (set_entries_lookup
                  (fun p : nat * nat => (var_name (fst p), var_name (snd p)))
                  (fun p => if coef M (fst p) (snd p) =? 0 then None
                            else Some (coef M (fst p) (snd p)))
                  (upper_pairs n) ∅ (i, j) (upper_pairs_names_NoDup n)) as Hlook.
    cbn beta iota delta [fst snd] in Hlook. rewrite Hlook by (by apply upper_pairs_elem).
    destruct (Z.eqb_spec (coef M i j) 0).
    + rewrite lookup_empty. rewrite decide_False; [done|tauto].
    + rewrite decide_True; [done|tauto].
  - rewrite set_entries_other.
    + rewrite lookup_empty. rewrite decide_False; [done|tauto].
    + intros [i' j'] Hin E. simpl in E.
      pose proof (f_equal fst E) as E1. pose proof (f_equal snd E) as E2.
      simpl in E1, E2. apply var_name_inj in E1, E2. subst.
      by apply upper_pairs_elem in Hin.
Qed.

Lemma quadratic_lookup_is_Some key :
  is_Some (set_entries (fun p : nat * nat => (var_name (fst p), var_name (snd p)))
             (fun p => if coef M (fst p) (snd p) =? 0 then None
                       else Some (coef M (fst p) (snd p)))
             (upper_pairs n) ∅ !! key) ->
  exists i j, (i < j < n)%nat /\ key = (var_name i, var_name j).
Proof.
  intros Hsome.
  destruct (decide (key ∈ map (fun p : nat * nat => (var_name (fst p), var_name (snd p)))
                         (upper_pairs n))) as [Hin|Hnin].
  - apply list_elem_of_fmap in Hin as ([i j] & -> & Hij).
    apply upper_pairs_elem in Hij. by exists i, j.
  - rewrite set_entries_other in Hsome.
    + rewrite lookup_empty in Hsome. by destruct Hsome.
    + intros p Hp E. apply Hnin. rewrite <- E. apply list_elem_of_fmap. by exists p.
Qed.
End Program.

Lemma set_entries_ext {A K V} `{Countable K} (kf : A -> K) (vf vf' : A -> option V)
    (l : list A) (d : gmap K V) :
  (forall x, x ∈ l -> vf x = vf' x) -> set_entries kf vf l d = set_entries kf vf' l d.
Proof.
  revert d. induction l as [|x l IH]; intros d Hext; [done|].
  rewrite !set_entries_cons, Hext by set_solver.
  apply IH. intros y Hy. apply Hext. set_solver.
Qed.

Lemma build_program_eq n M :
  square n M ->
  build_program n M =
  Ok {| variables := map var_name (range n);
        linear := set_entries var_name (fun i => Some (coef M i i)) (range n) ∅;
        quadratic :=
          set_entries (fun p : nat * nat => (var_name (fst p), var_name (snd p)))
            (fun p => if coef M (fst p) (snd p) =? 0 then None
                      else Some (coef M (fst p) (snd p)))
            (upper_pairs n) ∅ |}.
Proof.
  intros HM. unfold build_program.
  rewrite (linear_terms_eq n M HM), (quadratic_terms_eq n M HM). simpl.
  by rewrite declare_variables_eq.
Qed.

Lemma var_name_declared n i : (i < n)%nat -> var_name i ∈ map var_name (range n).
Proof. intros Hi. apply list_elem_of_fmap. exists i. by rewrite elem_of_range. Qed.

(** X12.  On a square array [build_program] returns: it declares the
    variables [x_0 .. x_(n-1)], all distinct; the linear term of [x_i] is the
    diagonal entry, zero included; there is a quadratic term for
    [(x_i, x_j)] exactly when [i < j] and the entry is not zero, and it is
    that entry; every name that occurs in a term has been declared. *)
Theorem build_program_spec n M :
  square n M ->
  exists P,
    build_program n M = Ok P /\
    variables P = map var_name (range n) /\
    NoDup (variables P) /\
    (forall i, (i < n)%nat -> linear P !! var_name i = Some (coef M i i)) /\
    (forall name, is_Some (linear P !! name) -> name ∈ variables P) /\
    (forall i j, quadratic P !! (var_name i, var_name j) =
       if decide ((i < j < n)%nat /\ coef M i j <> 0) then Some (coef M i j) else None) /\
    (forall a b, is_Some (quadratic P !! (a, b)) -> a ∈ variables P /\ b ∈ variables P).
Proof.
  intros HM. eexists. split; [by apply build_program_eq|]. simpl.
  split; [done|]. split.
  { apply NoDup_fmap_2; [|apply NoDup_range]. intros a b. apply var_name_inj. }
  split; [intros i Hi; by apply linear_lookup|]. split.
  { intros name (i & Hi & ->)%linear_lookup_is_Some. by apply var_name_declared. }
  split; [intros i j; apply quadratic_lookup|].
  intros a b (i & j & Hij & E)%quadratic_lookup_is_Some. simplify_eq.
  split; apply var_name_declared; lia.
Qed.

Lemma build_program_spec_witness :
  exists P, build_program 2 [[1; 2]; [3; 4]] = Ok P /\
            quadratic P !! ("x_0", "x_1")%string = Some 2 /\
            quadratic P !! ("x_1", "x_0")%string = None.
Proof.
  destruct (build_program_spec 2 [[1; 2]; [3; 4]]) as (P & HP & _ & _ & _ & _ & Hq & _);
    [compute_done|].
  exists P. split; [exact HP|].
  split; [apply (Hq 0%nat 1%nat)|apply (Hq 1%nat 0%nat)].
Defined.

(** X13.  The program does not depend on the entries below the diagonal:
    two square arrays that agree on and above the diagonal give the same
    program. *)
Theorem build_program_ignores_lower_triangle n M1 M2 :
  square n M1 -> square n M2 ->
  (forall i j, (i <= j < n)%nat -> coef M1 i j = coef M2 i j) ->
  build_program n M1 = build_program n M2.
Proof.
  intros H1 H2 Hagree. rewrite !build_program_eq by done. do 2 f_equal.
  - apply set_entries_ext. intros i Hi. apply elem_of_range in Hi.
    by rewrite Hagree by lia.
  - apply set_entries_ext. intros [i j] Hij. apply upper_pairs_elem in Hij. simpl.
    by rewrite Hagree by lia.
Qed.

Lemma build_program_ignores_lower_triangle_witness :
  build_program 2 [[1; 2]; [3; 4]] = build_program 2 [[1; 2]; [0; 4]].
Proof.
  apply (build_program_ignores_lower_triangle 2); [compute_done..|].
  intros i j Hij.
  assert (i = 0 /\ j = 0 \/ i = 0 /\ j = 1 \/ i = 1 /\ j = 1)%nat
    as [[-> ->]|[[-> ->]|[-> ->]]] by lia; reflexivity.
Defined.

Section ProgramOfAssembly.
Context (cfg : penalty_config) (n : nat) (var_index : gmap (nat * nat) nat)
        (task_map : task_dict) (num_tasks T_max : nat).
Hypothesis Hnumbered : tasks_numbered task_map num_tasks.
Hypothesis Htotal : index_total var_index (range num_tasks) T_max.
Hypothesis Hrange : index_in_range n var_index.
Hypothesis Hinj : index_injective var_index.

(** The program of the assembled matrix, with the entries of the matrix at
    the variables of two candidates. *)
Lemma qubo_program_eq :
  exists M P,
    build_qubo cfg n var_index task_map num_tasks T_max source_order = Ok M /\
    qubo_program cfg n var_index task_map num_tasks T_max = Ok P /\
    (forall i, (i < n)%nat -> linear P !! var_name i = Some (coef M i i)) /\
    (forall i j, quadratic P !! (var_name i, var_name j) =
       if decide ((i < j < n)%nat /\ coef M i j <> 0) then Some (coef M i j) else None) /\
    (forall ka ja oa ma da kb jb ob mb db ta tb ia ib,
       dict_lookup task_map ka = Some (ja, oa, ma, da) ->
       dict_lookup task_map kb = Some (jb, ob, mb, db) ->
       (ta < T_max)%nat -> (tb < T_max)%nat ->
       var_index !! (ka, ta) = Some ia -> var_index !! (kb, tb) = Some ib ->
       (ia < n)%nat /\ (ib < n)%nat /\
       (ia = ib <-> ka = kb /\ ta = tb) /\
       coef M ia ib =
       (if decide (ka = kb /\ ta = tb)
        then - one_hot cfg + makespan cfg * (Z.of_nat ta + da) else 0) +
       (if decide (ka = kb /\ (ta < tb)%nat) then one_hot cfg else 0) +
       (if decide (ka <> kb /\ ma = mb /\ 0 < Z.of_nat tb - Z.of_nat ta < da)
        then machine_penalty cfg else 0) +
       (if decide ((ka, kb) ∈ consecutive_pairs task_map /\
                   Z.of_nat tb < Z.of_nat ta + da)
        then precedence cfg else 0)).
Proof.
  destruct (build_qubo_contributions cfg n var_index task_map num_tasks T_max
              Hnumbered Htotal Hrange source_order) as (M & HM & Hsq & Hadd).
  eexists M, _. split; [done|]. unfold qubo_program. rewrite HM. simpl.
  split; [by apply build_program_eq|]. simpl.
  split; [intros i Hi; by apply linear_lookup|].
  split; [intros i j; apply quadratic_lookup|].
  intros ka ja oa ma da kb jb ob mb db ta tb ia ib Hda Hdb Hta Htb Hia Hib.
  pose proof (index_in_range_lookup _ _ _ _ Hrange Hia) as Hlta.
  pose proof (index_in_range_lookup _ _ _ _ Hrange Hib) as Hltb.
  split; [done|]. split; [done|]. split.
  - split.
    + intros ->. pose proof (index_injective_lookup _ _ _ _ Hinj Hia Hib). by simplify_eq.
    + intros [-> ->]. congruence.
  - rewrite Hadd by done.
    by apply (builder_contributions_value cfg var_index task_map num_tasks T_max
                Hnumbered Htotal Hinj ka ja oa ma da kb jb ob mb db).
Qed.
End ProgramOfAssembly.

(** X14.  On tasks numbered [0 .. num_tasks - 1] and a total, in-range,
    injective variable index, [solve_and_visualize_jssp] reaches the solver
    with this program: the linear term of the variable of (k, t) is minus the
    one-hot penalty plus the makespan weight times [t + duration]; the
    quadratic term of the variables of (ka, ta) and (kb, tb), in this order,
    exists only when the index of the first is the smaller one, and is then
    the sum of the one-hot, machine and precedence penalties that apply to
    the ordered pair, unless that sum is zero. *)
Theorem qubo_program_terms cfg num_vars var_index task_map num_tasks T_max :
  tasks_numbered task_map num_tasks ->
  index_total var_index (range num_tasks) T_max ->
  index_in_range num_vars var_index ->
  index_injective var_index ->
  exists P,
    qubo_program cfg num_vars var_index task_map num_tasks T_max = Ok P /\
    (forall k job_id op m d t i,
       dict_lookup task_map k = Some (job_id, op, m, d) -> (t < T_max)%nat ->
       var_index !! (k, t) = Some i ->
       linear P !! var_name i = Some (- one_hot cfg + makespan cfg * (Z.of_nat t + d))) /\
    (forall ka ja oa ma da kb jb ob mb db ta tb ia ib,
       dict_lookup task_map ka = Some (ja, oa, ma, da) ->
       dict_lookup task_map kb = Some (jb, ob, mb, db) ->
       (ta < T_max)%nat -> (tb < T_max)%nat ->
       var_index !! (ka, ta) = Some ia -> var_index !! (kb, tb) = Some ib ->
       let v :=
         (if decide (ka = kb /\ (ta < tb)%nat) then one_hot cfg else 0) +
         (if decide (ka <> kb /\ ma = mb /\ 0 < Z.of_nat tb - Z.of_nat ta < da)
          then machine_penalty cfg else 0) +
         (if decide ((ka, kb) ∈ consecutive_pairs task_map /\
                     Z.of_nat tb < Z.of_nat ta + da)
          then precedence cfg else 0) in
       quadratic P !! (var_name ia, var_name ib) =
       if decide ((ia < ib)%nat /\ v <> 0) then Some v else None).
Proof.
  intros Hnum Htot Hrange Hinj.
  destruct (qubo_program_eq cfg num_vars var_index task_map num_tasks T_max
              Hnum Htot Hrange Hinj) as (M & P & _ & HP & Hlin & Hquad & Hval).
  exists P. split; [done|]. split.
  - intros k job_id op m d t i Hd Ht Hi.
    destruct (Hval k job_id op m d k job_id op m d t t i i) as (Hlt & _ & _ & Hc);
      [done..|].
    rewrite Hlin by done. f_equal. rewrite Hc.
    rewrite (decide_True (P := k = k /\ t = t)) by done.
    rewrite (decide_False (P := k = k /\ (t < t)%nat)) by lia.
    rewrite (decide_False (P := k <> k /\ _)) by tauto.
    destruct (decide ((k, k) ∈ consecutive_pairs task_map /\ _)) as [[Hp _]|_]; [|lia].
    apply (consecutive_pairs_spec task_map (tasks_numbered_keys task_map num_tasks Hnum))
      in Hp as (_ & _ & _ & Hlt' & _). lia.
  - intros ka ja oa ma da kb jb ob mb db ta tb ia ib Hda Hdb Hta Htb Hia Hib v.
    destruct (Hval ka ja oa ma da kb jb ob mb db ta tb ia ib)
      as (Hlta & Hltb & Hdiag & Hc); [done..|].
    rewrite Hquad.
    destruct (decide (ia < ib)%nat) as [Hlt|Hge].
    + assert (coef M ia ib = v) as ->.
      { rewrite Hc. rewrite (decide_False (P := ka = kb /\ ta = tb)); [subst v; lia|].
        intros Heq. apply Hdiag in Heq. lia. }
      destruct (decide (v = 0)) as [Hz|Hnz].
      * rewrite !decide_False by tauto. done.
      * rewrite !decide_True by (repeat split; first [done|lia]). done.
    + rewrite !decide_False by (intros [? ?]; lia). done.
Qed.

Lemma qubo_program_terms_witness :
  exists P,
    qubo_program example_config 4 example_index example_tasks 2 2 = Ok P /\
    linear P !! "x_1"%string = Some (-7) /\
    quadratic P !! ("x_0", "x_3")%string = Some 12.
Proof.
  destruct (qubo_program_terms example_config 4 example_index example_tasks 2 2)
    as (P & HP & Hlin & Hquad); [compute_done..|].
  exists P. split; [exact HP|]. split.
  - apply (Hlin 0%nat 0 0 0 2 1%nat 1%nat); first [reflexivity | lia].
  - apply (Hquad 0%nat 0 0 0 2 1%nat 0 1 0 1 0%nat 1%nat 0%nat 3%nat);
      first [reflexivity | lia].
Defined.

(** X15.  A machine conflict whose first variable has the larger index
    never reaches the solver.  For distinct tasks [ka], [kb] of one machine
    and start times with [0 < tb - ta < da], the assembled matrix holds the
    machine penalty at (variable of (ka, ta), variable of (kb, tb)); when that
    position is below the diagonal the program has no term for the pair in
    this order, and its term for the pair in the other order holds at most
    the precedence penalty. *)
Theorem qubo_program_drops_machine_conflict cfg num_vars var_index task_map num_tasks T_max
    ka ja oa ma da kb jb ob mb db ta tb ia ib :
  tasks_numbered task_map num_tasks ->
  index_total var_index (range num_tasks) T_max ->
  index_in_range num_vars var_index ->
  index_injective var_index ->
  dict_lookup task_map ka = Some (ja, oa, ma, da) ->
  dict_lookup task_map kb = Some (jb, ob, mb, db) ->
  ka <> kb -> ma = mb ->
  (ta < T_max)%nat -> (tb < T_max)%nat ->
  0 < Z.of_nat tb - Z.of_nat ta < da ->
  var_index !! (ka, ta) = Some ia -> var_index !! (kb, tb) = Some ib ->
  (ib < ia)%nat ->
  exists M P,
    build_qubo cfg num_vars var_index task_map num_tasks T_max source_order = Ok M /\
    qubo_program cfg num_vars var_index task_map num_tasks T_max = Ok P /\
    coef M ia ib =
      machine_penalty cfg +
      (if decide ((ka, kb) ∈ consecutive_pairs task_map) then precedence cfg else 0) /\
    quadratic P !! (var_name ia, var_name ib) = None /\
    quadratic P !! (var_name ib, var_name ia) =
      if decide (((kb, ka) ∈ consecutive_pairs task_map /\
                  Z.of_nat ta < Z.of_nat tb + db) /\ precedence cfg <> 0)
      then Some (precedence cfg) else None.
Proof.
  intros Hnum Htot Hrange Hinj Hda Hdb Hk Hm Hta Htb Hcond Hia Hib Hlt.
  destruct (qubo_program_eq cfg num_vars var_index task_map num_tasks T_max
              Hnum Htot Hrange Hinj) as (M & P & HM & HP & _ & Hquad & Hval).
  exists M, P. split; [done|]. split; [done|].
  destruct (Hval ka ja oa ma da kb jb ob mb db ta tb ia ib) as (Hlta & Hltb & _ & Hab);
    [done..|].
  destruct (Hval kb jb ob mb db ka ja oa ma da tb ta ib ia) as (_ & _ & _ & Hba);
    [done..|].
  split; [|split].
  - rewrite Hab.
    rewrite (decide_False (P := ka = kb /\ ta = tb)) by tauto.
    rewrite (decide_False (P := ka = kb /\ (ta < tb)%nat)) by tauto.
    rewrite (decide_True (P := ka <> kb /\ _)) by tauto.
    destruct (decide ((ka, kb) ∈ consecutive_pairs task_map)).
    + rewrite decide_True; [lia|]. split; [done|lia].
    + rewrite decide_False; [lia|tauto].
  - rewrite Hquad. rewrite decide_False; [done|]. lia.
  - rewrite Hquad, Hba.
    rewrite (decide_False (P := kb = ka /\ tb = ta)) by (intros [-> _]; done).
    rewrite (decide_False (P := kb = ka /\ (tb < ta)%nat)) by (intros [-> _]; done).
    rewrite (decide_False (P := kb <> ka /\ _)) by lia.
    destruct (decide ((kb, ka) ∈ consecutive_pairs task_map /\ _)) as [Hp|Hp].
    + destruct (decide (precedence cfg = 0)) as [Hz|Hnz].
      * rewrite !decide_False; [done|tauto|]. intros [_ Hne]. apply Hne. lia.
      * rewrite !decide_True; [f_equal; lia|tauto|]. split; [lia|]. lia.
    + rewrite !decide_False; [done|tauto|]. intros [_ Hne]. by apply Hne.
Qed.

Lemma qubo_program_drops_machine_conflict_witness :
  exists M P,
    build_qubo example_config 4 example_index example_long_tasks 2 2 source_order = Ok M /\
    qubo_program example_config 4 example_index example_long_tasks 2 2 = Ok P /\
    coef M 2 1 = 7 /\
    quadratic P !! ("x_2", "x_1")%string = None /\
    quadratic P !! ("x_1", "x_2")%string = None.
Proof.
  destruct (qubo_program_drops_machine_conflict example_config 4 example_index
              example_long_tasks 2 2 1%nat 1 0 0 2 0%nat 0 0 0 2 0%nat 1%nat 2%nat 1%nat)
    as (M & P & HM & HP & Hc & Hq1 & Hq2); first [compute_done | lia | reflexivity | idtac].
  exists M, P. split; [exact HM|]. split; [exact HP|].
  split; [exact Hc|]. split; [exact Hq1|exact Hq2].
Defined.

(** ** The extractor followed by the makespan *)

Lemma compute_makespan_max schedule r0 :
  r0 ∈ schedule ->
  exists m, compute_makespan schedule = Ok m /\
            (exists r, r ∈ schedule /\ end_ r = m) /\
            (forall r, r ∈ schedule -> end_ r <= m).
Proof.
  intros Hr0. destruct schedule as [|r schedule]; [by apply elem_of_nil in Hr0|].
  unfold compute_makespan. simpl. eexists. split; [done|]. split.
  - destruct (fold_left_max_elem (map end_ schedule) (end_ r)) as [E|E].
    + exists r. split; [set_solver|done].
    + apply list_elem_of_fmap in E as (r' & E & Hr'). exists r'. split; [set_solver|done].
  - intros r' [->|Hr']%elem_of_cons.
    + apply fold_left_max_ge.
    + apply fold_left_max_bound. apply list_elem_of_fmap. by exists r'.
Qed.

Lemma record_of_end task_map k t :
  end_ (record_of task_map k t) = Z.of_nat t + duration_of task_map k.
Proof.
  unfold record_of, duration_of.
  by destruct (dict_lookup task_map k) as [[[[j o] m] d]|]; simpl; [|lia].
Qed.

(** X16.  On well-formed inputs, when the assignment selects no start time
    at all the extracted schedule is empty and [compute_makespan] raises
    [ValueError] on it; otherwise [compute_makespan] returns the largest
    finish time [t + duration] over the selected (task, start time) pairs. *)
Theorem extract_then_compute_makespan result var_index task_map num_tasks T_max :
  index_total var_index (range num_tasks) T_max ->
  index_in_range (length result) var_index ->
  tasks_defined task_map num_tasks ->
  exists schedule,
    extract_schedule_from_result result var_index task_map num_tasks T_max = Ok schedule /\
    ((forall k t, (k < num_tasks)%nat -> (t < T_max)%nat ->
        selected result var_index k t = false) ->
     schedule = [] /\ compute_makespan schedule = Raise ValueError) /\
    (forall k t, (k < num_tasks)%nat -> (t < T_max)%nat ->
       selected result var_index k t = true ->
       exists m,
         compute_makespan schedule = Ok m /\
         Z.of_nat t + duration_of task_map k <= m /\
         exists k' t', (k' < num_tasks)%nat /\ (t' < T_max)%nat /\
                       selected result var_index k' t' = true /\
                       m = Z.of_nat t' + duration_of task_map k').
Proof.
  intros Htot Hrange Htasks. eexists.
  split; [by apply extract_schedule_scanned|].
  assert (Hmem : forall r,
            r ∈ sorted_by start (scanned result var_index task_map num_tasks T_max) <->
            exists k t, (k < num_tasks)%nat /\ (t < T_max)%nat /\
                        selected result var_index k t = true /\
                        r = record_of task_map k t).
  { intros r. rewrite sorted_by_perm. by apply scanned_elem_of. }
  split.
  - intros Hnone.
    assert (sorted_by start (scanned result var_index task_map num_tasks T_max) = [])
      as ->; [|done].
    apply elem_of_nil_inv. intros r (k & t & Hk & Ht & Hsel & _)%Hmem.
    by rewrite Hnone in Hsel.
  - intros k t Hk Ht Hsel.
    destruct (compute_makespan_max
                (sorted_by start (scanned result var_index task_map num_tasks T_max))
                (record_of task_map k t)) as (m & Hm & (r & Hr & Hend) & Hbound).
    { apply Hmem. by exists k, t. }
    exists m. split; [done|]. split.
    + rewrite <- record_of_end. apply Hbound, Hmem. by exists k, t.
    + apply Hmem in Hr as (k' & t' & Hk' & Ht' & Hsel' & ->).
      exists k', t'. rewrite record_of_end in Hend. done.
Qed.

Lemma extract_then_compute_makespan_witness :
  exists schedule,
    extract_schedule_from_result [0 # 1; 0 # 1; 0 # 1; 0 # 1]%Q example_index
      example_tasks 2 2 = Ok schedule /\
    compute_makespan schedule = Raise ValueError.
Proof.
  destruct (extract_then_compute_makespan [0 # 1; 0 # 1; 0 # 1; 0 # 1]%Q example_index
              example_tasks 2 2) as (schedule & Hs & Hnone & _); [compute_done..|].
  exists schedule. split; [exact Hs|]. apply Hnone.
  intros k t Hk Ht.
  assert (k = 0 \/ k = 1)%nat as [-> | ->] by lia;
    assert (t = 0 \/ t = 1)%nat as [-> | ->] by lia; reflexivity.
Defined.

(** ** Degenerate inputs *)

Lemma for_each_skip {A St} (l : list A) (body : A -> St -> res St) s :
  (forall x s', x ∈ l -> body x s' = Ok s') -> for_each l body s = Ok s.
Proof.
  induction l as [|x l IH]; intros Hbody; simpl; [done|].
  rewrite Hbody by set_solver. simpl. apply IH. intros y s' Hy. apply Hbody. set_solver.
Qed.

(** X17.  With an empty horizon no candidate exists: on any array and any
    variable index, [apply_unique_start_constraint],
    [apply_machine_conflict_constraint] and [apply_precedence_constraint]
    (on a task map with distinct keys) return the array unchanged, and so
    does [apply_makespan_objective] provided every expected task is in the
    task map. *)
Theorem builders_empty_horizon (M : matrix) var_index task_map num_tasks penalty :
  NoDup (map fst task_map) ->
  apply_unique_start_constraint M var_index num_tasks 0 penalty = Ok M /\
  apply_machine_conflict_constraint M var_index task_map 0 penalty = Ok M /\
  apply_precedence_constraint M var_index task_map 0 penalty = Ok M /\
  (tasks_defined task_map num_tasks ->
   apply_makespan_objective M var_index task_map num_tasks 0 penalty = Ok M).
Proof.
  intros Hkeys. split; [|split; [|split]].
  - unfold apply_unique_start_constraint. by apply for_each_skip.
  - unfold apply_machine_conflict_constraint.
    apply for_each_skip. intros [k1 [[[j1 o1] m1] d1]] M1 _.
    apply for_each_skip. intros [k2 [[[j2 o2] m2] d2]] M2 _.
    destruct (k1 =? k2)%nat; [done|]. by destruct (negb (m1 =? m2)).
  - rewrite apply_precedence_constraint_pairs.
    apply for_each_skip. intros [k1 k2] M1 Hp.
    apply (consecutive_pairs_keys task_map Hkeys) in Hp as [Hk1 _].
    destruct (dict_lookup_is_Some task_map k1 Hk1) as [[[[j o] m] d] Hd].
    unfold dict_subscript. by rewrite Hd.
  - intros Htasks. unfold apply_makespan_objective.
    apply for_each_skip. intros k M1 Hk.
    unfold tasks_defined in Htasks. rewrite Forall_forall in Htasks.
    destruct (Htasks k Hk) as [[[[j o] m] d] Hd].
    unfold dict_subscript. by rewrite Hd.
Qed.

Lemma builders_empty_horizon_witness :
  apply_machine_conflict_constraint [[1; 2]; [3; 4]] ∅ example_tasks 0 7
  = Ok [[1; 2]; [3; 4]].
Proof.
  destruct (builders_empty_horizon [[1; 2]; [3; 4]] ∅ example_tasks 2 7)
    as (_ & Hmc & _); [compute_done|].
  exact Hmc.
Defined.
